(** * svtplay-dl-category: a shallow embedding of the download orchestrator

    The script [svtplay-dl-category.py] crawls a category page, discovers
    movies and episodes, runs an external downloader for each and keeps four
    state files.  This development embeds the state trackers, the retry
    helper, episode discovery, file-name sanitisation and the item loop of
    [main] as Rocq functions and proves the properties of their
    specification.

    Conventions.
    - Python [int] is [Z]; [str] is [string] (the UTF-8 bytes: every
      character the script tests for is ASCII, so byte-wise and
      code-point-wise processing agree).
    - A [dict] keyed by URL is a [gmap string _]; the iteration order of such
      a dict is not modelled.  A dict obtained from [json.loads] is an
      association list, because the script iterates over it.
    - Effects are explicit: a [World] carries the mutable stores, the
      counters, and the trace of externally visible actions; everything the
      environment decides (process exit codes, the clock, signals, the
      network, library parsers) is read from an [Env].
    - A Python exception is a value of [exn]; code that can raise returns an
      [outcome].

    Not modelled: console output; the forced exit on a second signal; a
    failing file operation (writes to the state files are taken to
    succeed); the HTML and image handling behind [get_video_metadata],
    which is taken from the [Env] as a whole; an exception of
    [subprocess.Popen] other than [FileNotFoundError]; a [ValueError] of
    [urljoin] on a malformed path.

    Further down, the seen files and the poster download are embedded over
    a file system, and the category listing and the cover-image helpers as
    pure functions, with the properties of a whole run that follow. *)

From Stdlib Require Import ZArith String Ascii List Bool Lia.
From stdpp Require Import base option list gmap strings pretty.

Open Scope Z_scope.
Set Warnings "-register-all".

(** ** Strings *)

(** The empty Python string. *)
Definition nil_str : string := EmptyString.

(** Truth value of a [str]: only the empty string is falsy. *)
Definition str_truthy (s : string) : bool :=
  match s with EmptyString => false | String _ _ => true end.

(** [mem_chars cs c]: the character [c] occurs in the character set [cs]. *)
Definition mem_chars (cs : list ascii) (c : ascii) : bool :=
  existsb (Ascii.eqb c) cs.

(** [re.sub('[cs]', '', s)] for a character class [cs]: every occurrence of a
    character of the class is deleted. *)
Fixpoint re_sub_class (cs : list ascii) (s : string) : string :=
  match s with
  | EmptyString => EmptyString
  | String c s' =>
      if mem_chars cs c then re_sub_class cs s'
      else String c (re_sub_class cs s')
  end.

(** [s.lstrip(cs)]. *)
Fixpoint lstrip (cs : list ascii) (s : string) : string :=
  match s with
  | EmptyString => EmptyString
  | String c s' => if mem_chars cs c then lstrip cs s' else s
  end.

(** [s.rstrip(cs)]. *)
Fixpoint rstrip (cs : list ascii) (s : string) : string :=
  match s with
  | EmptyString => EmptyString
  | String c s' =>
      match rstrip cs s' with
      | EmptyString => if mem_chars cs c then EmptyString else String c EmptyString
      | r => String c r
      end
  end.

(** [s.strip(cs)]: Python strips the characters of [cs] from BOTH ends. *)
Definition strip (cs : list ascii) (s : string) : string :=
  rstrip cs (lstrip cs s).

(** The character class of [sanitize_filename]: less-than, greater-than,
    colon, double quote (code 34), slash, backslash, bar, question mark and
    star. *)
Definition forbidden_chars : list ascii :=
  ["<"; ">"; ":"; "034"; "/"; "\"; "|"; "?"; "*"]%char.

(** The argument of [strip] in [sanitize_filename]: dot and space. *)
Definition dot_space : list ascii := ["."; " "]%char.

(** [sanitize_filename]: [re.sub] deletes the characters of the class, then
    [name.strip] is called with the two-character string dot, space. *)
Definition sanitize_filename (name : string) : string :=
  let name := re_sub_class forbidden_chars name in
  strip dot_space name.

(** [s.startswith(p)]. *)
Definition startswith (s p : string) : bool := String.prefix p s.

(** [p in s] for strings: [p] occurs in [s] as a substring. *)
Fixpoint str_contains (p s : string) : bool :=
  String.prefix p s
  || match s with
     | EmptyString => false
     | String _ s' => str_contains p s'
     end.

(** [s.rsplit(slash, 1)[-1]]: the part of [s] after its last slash (all of [s]
    when it has none). *)
Fixpoint after_last_slash (s : string) : string :=
  match s with
  | EmptyString => EmptyString
  | String c s' =>
      if str_contains "/" s' then after_last_slash s'
      else if Ascii.eqb c "/" then s'
      else s
  end.

(** Characters of a string, as one-character strings (what iterating over a
    [str] yields). *)
Fixpoint str_chars (s : string) : list string :=
  match s with
  | EmptyString => []
  | String c s' => String c EmptyString :: str_chars s'
  end.

(** ** Exceptions *)

(** The exceptions the modelled code can raise. *)
Inductive exn : Type :=
| TypeError
| AttributeError
| KeyError.

(** Result of a computation that may raise. *)
Inductive outcome (A : Type) : Type :=
| Ret (a : A)
| Exn (e : exn).
Arguments Ret {A} a.
Arguments Exn {A} e.

Definition obind {A B} (o : outcome A) (k : A -> outcome B) : outcome B :=
  match o with
  | Ret a => k a
  | Exn e => Exn e
  end.

(** ** JSON values *)

(** What [json.loads] returns.  A float is kept only up to whether it is
    zero, all that the script can observe of it (its truth value). *)
Inductive json : Type :=
| JNull
| JBool (b : bool)
| JInt (n : Z)
| JFloat (nonzero : bool)
| JStr (s : string)
| JArr (l : list json)
| JObj (kvs : list (string * json)).

(** Python truth value. *)
Definition truthy (v : json) : bool :=
  match v with
  | JNull => false
  | JBool b => b
  | JInt n => negb (n =? 0)
  | JFloat nz => nz
  | JStr s => str_truthy s
  | JArr l => match l with [] => false | _ => true end
  | JObj kvs => match kvs with [] => false | _ => true end
  end.

(** [k in d] and [d.get(k)] on the items of a dict. *)
Fixpoint dict_lookup (kvs : list (string * json)) (k : string) : option json :=
  match kvs with
  | [] => None
  | (k', v) :: rest => if String.eqb k' k then Some v else dict_lookup rest k
  end.

(** [d.get(k)]: [None] (JSON null) when the key is absent. *)
Definition dict_get (kvs : list (string * json)) (k : string) : json :=
  default JNull (dict_lookup kvs k).

(** [d.get(k, dflt)]. *)
Definition dict_get_default (kvs : list (string * json)) (k : string)
    (dflt : json) : json :=
  default dflt (dict_lookup kvs k).

(** [[
def _safe_get(d, *keys):
    for k in keys:
        if not isinstance(d, dict):
            return None
        d = d.get(k)
    return d
]] *)
Fixpoint _safe_get (d : json) (keys : list string) : json :=
  match keys with
  | [] => d
  | k :: ks =>
      match d with
      | JObj kvs => _safe_get (dict_get kvs k) ks
      | _ => JNull
      end
  end.

(** [x.get] on a value that must be a dict: anything else has no attribute
    [get]. *)
Definition as_dict (v : json) : outcome (list (string * json)) :=
  match v with
  | JObj kvs => Ret kvs
  | _ => Exn AttributeError
  end.

(** [for x in v]: a list yields its elements, a dict its keys, a string its
    characters; nothing else is iterable. *)
Definition py_iter (v : json) : outcome (list json) :=
  match v with
  | JArr l => Ret l
  | JObj kvs => Ret (map (fun kv => JStr (fst kv)) kvs)
  | JStr s => Ret (map JStr (str_chars s))
  | _ => Exn TypeError
  end.

(** ** The environment *)

(** How an attempt to start the downloader ends: the child ran and exited
    with a code, or [subprocess.Popen] raised [FileNotFoundError]. *)
Inductive spawn_result : Type :=
| Exited (rc : Z)
| FileNotFound.

(** What [datetime.fromisoformat] makes of a string: a naive datetime (as
    microseconds on the local time line), a timezone-aware one, or a
    [ValueError]. *)
Inductive iso_parse : Type :=
| IsoNaive (t : Z)
| IsoAware
| IsoInvalid.

(** The return code [run_svtplay_dl] reports: the exit status of the child,
    or 127 when the executable was not found. *)
Definition exit_code (r : spawn_result) : Z :=
  match r with
  | Exited rc => rc
  | FileNotFound => 127
  end.

(** Everything the script takes from outside.  Library functions are pure
    functions; what the outside world decides at run time is indexed by the
    number of interactions made so far ([w_tick] below), so that two calls
    need not agree. *)
Record Env : Type := mkEnv {
  (** [urllib.parse.urljoin], on two strings. *)
  urljoin : string -> string -> string;
  (** [json.loads] on a string; [None] is [JSONDecodeError]. *)
  json_loads : string -> option json;
  (** [re.search(INFO_SEARCH_EXPR, html)]: group 1 of the match, if any. *)
  re_search_info : string -> option string;
  (** [datetime.isoformat] and [datetime.fromisoformat]. *)
  isoformat : Z -> string;
  fromisoformat : string -> iso_parse;
  (** [os.path.join]. *)
  path_join : list string -> string;
  (** [get_video_metadata]: name, year and image URL of a detail page; its
      result only feeds the folder name and the stored display name. *)
  get_video_metadata :
    string -> outcome (option string * option string * option string);
  (** Outcome of the next [subprocess.Popen(cmd)] ... [wait()]. *)
  popen : nat -> list string -> spawn_result;
  (** [datetime.now()]. *)
  clock : nat -> Z;
  (** The value of the global [stop_requested] when it is read. *)
  stop_requested : nat -> bool;
  (** [fetch_html(url)]; [None] when it raises. *)
  fetch_html : nat -> string -> option string;
  (** [os.path.exists]. *)
  path_exists : nat -> string -> bool;
}.

(** ** Page parsing *)

Definition base_url : string := "https://www.svtplay.se".

#[global] Instance outcome_ret : MRet outcome := fun A a => Ret a.
#[global] Instance outcome_bind : MBind outcome :=
  fun A B k o => obind o k.

Section Parsing.
Variable env : Env.

(** [extract_page_json]: the inline JSON blob of a page, [None] when the
    pattern does not match or the text is not JSON. *)
Definition extract_page_json (html : string) : option json :=
  match re_search_info env html with
  | None => None
  | Some blob => json_loads env blob
  end.

(** The values of [page_json.get(props, {}).get(urqlState, {})]. *)
Definition urql_values (page_json : json) : outcome (list json) :=
  top ← as_dict page_json;
  props ← as_dict (dict_get_default top "props" (JObj []));
  urql ← as_dict (dict_get_default props "urqlState" (JObj []));
  Ret (map snd urql).

(** One step of the generator [_iter_urql_entries]: [Ret (Some v)] yields
    [v], [Ret None] skips the entry.  The membership test [data in entry]
    raises [TypeError] on a value that is not a container; the [TypeError]
    and [JSONDecodeError] raised inside the [try] are swallowed. *)
Definition urql_entry (entry : json) : outcome (option json) :=
  match entry with
  | JObj kvs =>
      match dict_lookup kvs "data" with
      | Some (JStr s) => Ret (json_loads env s)
      | _ => Ret None
      end
  | JStr _ | JArr _ => Ret None
  | _ => Exn TypeError
  end.

(** The inner loop of [_find_details] over [entry.items()]: the first
    [detailsPageByPath] whose value is a dict with the key [want]. *)
Fixpoint details_in_items (want : string) (items : list (string * json))
    : option json :=
  match items with
  | [] => None
  | (key, data) :: rest =>
      let hit :=
        String.eqb key "detailsPageByPath"
        && match data with
           | JObj d => bool_decide (is_Some (dict_lookup d want))
           | _ => false
           end in
      if hit then Some data else details_in_items want rest
  end.

(** One of the two passes of [_find_details] over the generator, which is
    consumed lazily: entries after the hit are not touched. *)
Fixpoint find_details_pass (want : string) (raw : list json)
    : outcome (option json) :=
  match raw with
  | [] => Ret None
  | e :: rest =>
      parsed ← urql_entry e;
      match parsed with
      | None => find_details_pass want rest
      | Some entry =>
          items ← as_dict entry;
          match details_in_items want items with
          | Some d => Ret (Some d)
          | None => find_details_pass want rest
          end
      end
  end.

(** [_find_details]: prefer an entry with [smartStart], else one with
    [item]. *)
Definition _find_details (page_json : json) : outcome (option json) :=
  raw ← urql_values page_json;
  first ← find_details_pass "smartStart" raw;
  match first with
  | Some d => Ret (Some d)
  | None => find_details_pass "item" raw
  end.

(** [path = _safe_get(x, item, urls, svtplay)] followed by
    [if path: urljoin(base, path)].  A truthy path that is not a string
    makes [urljoin] raise [TypeError]. *)
Definition playable_url (x : json) : outcome (option string) :=
  let path := _safe_get x ["item"; "urls"; "svtplay"] in
  if truthy path then
    match path with
    | JStr p => Ret (Some (urljoin env base_url p))
    | _ => Exn TypeError
    end
  else Ret None.

(** [if full not in videos: videos.append(full)]. *)
Definition append_new (videos : list string) (full : string) : list string :=
  if bool_decide (full ∈ videos) then videos else videos ++ [full].

(** The loop over [sel.get(items, [])]. *)
Fixpoint collect_items (items : list json) (videos : list string)
    : outcome (list string) :=
  match items with
  | [] => Ret videos
  | item :: rest =>
      u ← playable_url item;
      match u with
      | Some full => collect_items rest (append_new videos full)
      | None => collect_items rest videos
      end
  end.

(** The two [continue] tests on a module id. *)
Definition module_skipped (mod_id : string) : bool :=
  String.eqb mod_id "upcoming" || String.eqb mod_id "related"
  || startswith mod_id "details"
  || str_contains "clips" mod_id.

(** The loop over [details.get(modules, [])]. *)
Fixpoint collect_modules (modules : list json) (videos : list string)
    : outcome (list string) :=
  match modules with
  | [] => Ret videos
  | module :: rest =>
      m ← as_dict module;
      match dict_get_default m "id" (JStr nil_str) with
      | JStr mod_id =>
          if module_skipped mod_id then collect_modules rest videos
          else
            let sel := dict_get m "selection" in
            if negb (truthy sel) then collect_modules rest videos
            else
              s ← as_dict sel;
              items ← py_iter (dict_get_default s "items" (JArr []));
              videos' ← collect_items items videos;
              collect_modules rest videos'
      | _ => Exn AttributeError
      end
  end.

(** [x == Single] for a JSON value [x]. *)
Definition is_Single (x : json) : bool :=
  match x with
  | JStr s => String.eqb s "Single"
  | _ => false
  end.

(** [discover_episode_urls] from the point where [details] is known. *)
Definition discover_in_details (details : json) : outcome (list string) :=
  let parent_type := _safe_get details ["item"; "parent"; "__typename"] in
  if is_Single parent_type then
    u ← playable_url details;
    Ret (match u with Some full => [full] | None => [] end)
  else
    d ← as_dict details;
    modules ← py_iter (dict_get_default d "modules" (JArr []));
    collect_modules modules [].

(** [discover_episode_urls]. *)
Definition discover_episode_urls (html : string) : outcome (list string) :=
  match extract_page_json html with
  | None => Ret []
  | Some page_json =>
      if negb (truthy page_json) then Ret []
      else
        details ← _find_details page_json;
        match details with
        | None => Ret []
        | Some d => if truthy d then discover_in_details d else Ret []
        end
  end.

End Parsing.

(** ** State stores *)

(** An entry of [errors.json].  A field is [None] when its key is missing
    from the stored object. *)
Record ErrorEntry : Type := mkErrorEntry {
  fail_count : option Z;
  permanent : option bool;
  last_error : option string;
  last_failure : option string;
}.

(** An entry of [series_state.json]; [last_new_episode_date] is [None] for a
    missing key and for JSON null alike. *)
Record SeriesEntry : Type := mkSeriesEntry {
  name : option string;
  check_count : option Z;
  last_new_episode_date : option string;
}.

(** The counters of one run ([stats] in [main]). *)
Record Stats : Type := mkStats {
  movies_downloaded : Z;
  episodes_downloaded : Z;
  series_checked : Z;
  skipped_seen : Z;
  skipped_permanent : Z;
  errors_this_run : Z;
}.

(** The document handed to [save_json_state]. *)
Inductive json_doc : Type :=
| ErrorsDoc (m : gmap string ErrorEntry)
| SeriesDoc (m : gmap string SeriesEntry).

(** Externally visible actions, in the order they happen.  Console output is
    not recorded. *)
Inductive event : Type :=
| EvPopen (cmd : list string) (r : spawn_result)
| EvSaveJson (path : string) (doc : json_doc)
| EvAppend (path : string) (line : string)
| EvMakedirs (path : string)
| EvDownloadFile (url dest : string)
| EvSleep (duration : Z).

(** The mutable state of a run: the four in-memory stores, the counters, the
    trace, and the number of questions asked of the environment. *)
Record World : Type := mkWorld {
  errors : gmap string ErrorEntry;
  series_state : gmap string SeriesEntry;
  seen : gset string;
  seen_episodes : gset string;
  stats : Stats;
  trace : list event;
  tick : nat;
}.

Definition set_errors (f : gmap string ErrorEntry -> gmap string ErrorEntry)
    (w : World) : World :=
  mkWorld (f (errors w)) (series_state w) (seen w) (seen_episodes w)
          (stats w) (trace w) (tick w).

Definition set_series_state
    (f : gmap string SeriesEntry -> gmap string SeriesEntry) (w : World)
    : World :=
  mkWorld (errors w) (f (series_state w)) (seen w) (seen_episodes w)
          (stats w) (trace w) (tick w).

Definition set_seen (f : gset string -> gset string) (w : World) : World :=
  mkWorld (errors w) (series_state w) (f (seen w)) (seen_episodes w)
          (stats w) (trace w) (tick w).

Definition set_seen_episodes (f : gset string -> gset string) (w : World)
    : World :=
  mkWorld (errors w) (series_state w) (seen w) (f (seen_episodes w))
          (stats w) (trace w) (tick w).

Definition set_stats (f : Stats -> Stats) (w : World) : World :=
  mkWorld (errors w) (series_state w) (seen w) (seen_episodes w)
          (f (stats w)) (trace w) (tick w).

Definition set_trace (f : list event -> list event) (w : World) : World :=
  mkWorld (errors w) (series_state w) (seen w) (seen_episodes w)
          (stats w) (f (trace w)) (tick w).

Definition set_tick (f : nat -> nat) (w : World) : World :=
  mkWorld (errors w) (series_state w) (seen w) (seen_episodes w)
          (stats w) (trace w) (f (tick w)).

(** ** The monad of the script: state and exceptions *)

(** A computation transforms the world and returns or raises; the world at
    the raise is kept, since the stores are mutated in place. *)
Definition M (A : Type) : Type := World -> outcome A * World.

#[global] Instance M_ret : MRet M := fun A a w => (Ret a, w).
#[global] Instance M_bind : MBind M :=
  fun A B k m w =>
    match m w with
    | (Ret a, w') => k a w'
    | (Exn e, w') => (Exn e, w')
    end.

Definition get_world : M World := fun w => (Ret w, w).
Definition modify (f : World -> World) : M unit := fun w => (Ret tt, f w).
Definition raise {A} (e : exn) : M A := fun w => (Exn e, w).
Definition skip : M unit := mret tt.

(** Run a pure computation that may raise. *)
Definition lift {A} (o : outcome A) : M A := fun w => (o, w).

(** Record an action at the end of the trace. *)
Definition emit (ev : event) : M unit :=
  modify (set_trace (fun t => t ++ [ev])).

(** Ask the environment: returns the index of this question. *)
Definition ask : M nat := fun w => (Ret (tick w), set_tick S w).

(** ** JSON state files *)

(** [save_json_state]: nothing without a path, else the document is written
    to a temporary file that replaces the target. *)
Definition save_json_state (path : string) (data : json_doc) : M unit :=
  if negb (str_truthy path) then skip
  else emit (EvSaveJson path data).

(** [append_seen]. *)
Definition append_seen (path url : string) : M unit :=
  if negb (str_truthy path) then skip
  else emit (EvAppend path url).

(** ** Error tracking *)

(** [errors.get(url, {}).get(permanent, False)]. *)
Definition is_permanent_error (errs : gmap string ErrorEntry) (url : string)
    : bool :=
  match errs !! url with
  | Some entry => default false (permanent entry)
  | None => false
  end.

(** The entry [record_error] starts from when the URL has none. *)
Definition fresh_error : ErrorEntry :=
  mkErrorEntry (Some 0) (Some false) None None.

(** The message stored in [last_error]. *)
Definition exit_message (return_code : Z) : string :=
  "svtplay-dl exited with code " +:+ pretty return_code.

(** The entry [record_error] stores, given the old one and the time stamp. *)
Definition bump_error (entry : ErrorEntry) (return_code : Z) (stamp : string)
    : ErrorEntry :=
  let fc := default 0 (fail_count entry) + 1 in
  mkErrorEntry (Some fc)
               (if fc >? 2 then Some true else permanent entry)
               (Some (exit_message return_code))
               (Some stamp).

(** The command line of the downloader. *)
Definition svtplay_dl_cmd (url output_dir : string) : list string :=
  ["svtplay-dl"; "-S"; "-o"; output_dir; url].

Section Script.
Variable env : Env.

(** [datetime.now()]. *)
Definition now : M Z := n ← ask; mret (clock env n).

(** [record_error]. *)
Definition record_error (url : string) (return_code : Z)
    (errors_file : string) : M unit :=
  w ← get_world;
  let entry := default fresh_error (errors w !! url) in
  t ← now;
  let entry' := bump_error entry return_code (isoformat env t) in
  modify (set_errors (insert url entry'));;
  w' ← get_world;
  save_json_state errors_file (ErrorsDoc (errors w')).

(** ** Series state *)

(** [update_series_state]. *)
Definition update_series_state (show_url : string) (found_new : bool)
    (show_name : string) (state_file : string) : M unit :=
  w ← get_world;
  let entry :=
    default (mkSeriesEntry (Some show_name) (Some 0) None)
            (series_state w !! show_url) in
  let name' :=
    if str_truthy show_name then show_name
    else default show_url (name entry) in
  entry' ←
    (if found_new then
       t ← now;
       mret (mkSeriesEntry (Some name') (Some 0) (Some (isoformat env t)))
     else
       mret (mkSeriesEntry (Some name')
                           (Some (default 0 (check_count entry) + 1))
                           (last_new_episode_date entry)));
  modify (set_series_state (insert show_url entry'));;
  w' ← get_world;
  save_json_state state_file (SeriesDoc (series_state w')).

(** Microseconds in a day. *)
Definition day_us : Z := 86400000000.

(** The body of the loop of [find_stale_series] for one entry: [Ret None]
    when the entry is passed over, [Ret (Some (url, name, days, checks))]
    when it is yielded.  Subtracting an aware datetime from the naive
    [now] raises [TypeError]; [timedelta.days] rounds down. *)
Definition stale_entry (now_t stale_days : Z) (url : string)
    (entry : SeriesEntry) : outcome (option (string * string * Z * Z)) :=
  let checks := default 0 (check_count entry) in
  if checks <? 2 then Ret None
  else
    days ←
      match last_new_episode_date entry with
      | Some raw =>
          if str_truthy raw then
            match fromisoformat env raw with
            | IsoNaive t => Ret ((now_t - t) `div` day_us)
            | IsoInvalid => Ret 9999
            | IsoAware => Exn TypeError
            end
          else Ret 9999
      | None => Ret 9999
      end;
    if days >=? stale_days
    then Ret (Some (url, default url (name entry), days, checks))
    else Ret None.

(** The generator run to its end over the items of the state. *)
Fixpoint stale_items (now_t stale_days : Z)
    (items : list (string * SeriesEntry))
    : outcome (list (string * string * Z * Z)) :=
  match items with
  | [] => Ret []
  | (url, entry) :: rest =>
      y ← stale_entry now_t stale_days url entry;
      ys ← stale_items now_t stale_days rest;
      Ret (match y with Some x => x :: ys | None => ys end)
  end.

(** [list(find_stale_series(state, stale_days))]. *)
Definition find_stale_series (state : gmap string SeriesEntry)
    (stale_days : Z) : M (list (string * string * Z * Z)) :=
  t ← now;
  lift (stale_items t stale_days (map_to_list state)).

(** ** Running the downloader *)

(** [run_svtplay_dl]: the exit code; under dry-run no process is started
    and the result is 0; a missing executable gives 127. *)
Definition run_svtplay_dl (url output_dir : string) (dry_run : bool)
    : M Z :=
  let cmd := svtplay_dl_cmd url output_dir in
  if dry_run then mret 0
  else
    n ← ask;
    let r := popen env n cmd in
    emit (EvPopen cmd r);;
    mret (exit_code r).

(** [if url in errors: del errors[url]; save_json_state(...)]. *)
Definition clear_error (url errors_file : string) : M unit :=
  w ← get_world;
  if bool_decide (is_Some (errors w !! url)) then
    modify (set_errors (delete url));;
    w' ← get_world;
    save_json_state errors_file (ErrorsDoc (errors w'))
  else skip.

(** [download_with_retry]. *)
Definition download_with_retry (url output_dir : string) (dry_run : bool)
    (errors_file : string) : M bool :=
  w ← get_world;
  if is_permanent_error (errors w) url then mret false
  else
    rc ← run_svtplay_dl url output_dir dry_run;
    if rc =? 0 then clear_error url errors_file;; mret true
    else
      rc ← run_svtplay_dl url output_dir dry_run;
      if rc =? 0 then clear_error url errors_file;; mret true
      else record_error url rc errors_file;; mret false.

End Script.

(** ** The orchestrator *)

(** The command-line arguments the item loop reads.  [arg_sleep] is a
    duration of which only the sign is tested. *)
Record Args : Type := mkArgs {
  arg_output_dir : string;
  arg_seen_file : string;
  arg_seen_episodes_file : string;
  arg_series_state_file : string;
  arg_errors_file : string;
  arg_sleep : Z;
  arg_stale_days : Z;
  arg_max_dl : Z;
  arg_dry_run : bool;
}.

(** [x[k]] inside the [try] of the item loop: [None] stands for the
    [KeyError] or [TypeError] that the loop catches. *)
Definition subscript (x : json) (k : string) : option json :=
  match x with
  | JObj kvs => dict_lookup kvs k
  | _ => None
  end.

(** [dl_limit_reached], on the counters. *)
Definition dl_limit_reached (args : Args) (st : Stats) : bool :=
  if arg_max_dl args <=? 0 then false
  else
    let total := movies_downloaded st + episodes_downloaded st in
    total >=? arg_max_dl args.

Definition incr_movies_downloaded (st : Stats) : Stats :=
  mkStats (movies_downloaded st + 1) (episodes_downloaded st)
          (series_checked st) (skipped_seen st) (skipped_permanent st)
          (errors_this_run st).

Definition incr_episodes_downloaded (st : Stats) : Stats :=
  mkStats (movies_downloaded st) (episodes_downloaded st + 1)
          (series_checked st) (skipped_seen st) (skipped_permanent st)
          (errors_this_run st).

Definition incr_series_checked (st : Stats) : Stats :=
  mkStats (movies_downloaded st) (episodes_downloaded st)
          (series_checked st + 1) (skipped_seen st) (skipped_permanent st)
          (errors_this_run st).

Definition incr_skipped_seen (st : Stats) : Stats :=
  mkStats (movies_downloaded st) (episodes_downloaded st)
          (series_checked st) (skipped_seen st + 1) (skipped_permanent st)
          (errors_this_run st).

Definition add_skipped_permanent (k : Z) (st : Stats) : Stats :=
  mkStats (movies_downloaded st) (episodes_downloaded st)
          (series_checked st) (skipped_seen st) (skipped_permanent st + k)
          (errors_this_run st).

Definition incr_errors_this_run (st : Stats) : Stats :=
  mkStats (movies_downloaded st) (episodes_downloaded st)
          (series_checked st) (skipped_seen st) (skipped_permanent st)
          (errors_this_run st + 1).

(** The counters at the start of the item loop. *)
Definition zero_stats : Stats := mkStats 0 0 0 0 0 0.

Section Orchestrator.
Variable env : Env.
Variable args : Args.

(** Read the global [stop_requested]. *)
Definition read_stop : M bool := n ← ask; mret (stop_requested env n).

(** [stop_requested or dl_limit_reached()]. *)
Definition stop_or_limit : M bool :=
  s ← read_stop;
  if (s : bool) then mret true
  else w ← get_world; mret (dl_limit_reached args (stats w)).

(** [if args.sleep > 0 and i < n - 1 and not stop_requested:
    time.sleep(args.sleep)]. *)
Definition maybe_sleep (i n : nat) : M unit :=
  if (arg_sleep args >? 0) && (Z.of_nat i <? Z.of_nat n - 1) then
    s ← read_stop;
    if (s : bool) then skip else emit (EvSleep (arg_sleep args))
  else skip.

(** The [try] block at the head of the loop body.  [Ret None] is a
    malformed item (the caught [KeyError] or [TypeError]); on success the
    result is [(item_url, is_single, name_hint)].  [urljoin] returns the
    base for a falsy path, and [rstrip] on a falsy path that is not a
    string raises the uncaught [AttributeError]. *)
Definition parse_item (item_data : json)
    : outcome (option (string * bool * string)) :=
  match subscript item_data "item" with
  | None => Ret None
  | Some item =>
      match subscript item "urls" with
      | None => Ret None
      | Some urls =>
          match subscript urls "svtplay" with
          | None => Ret None
          | Some url_path =>
              let is_single := is_Single (_safe_get item ["__typename"]) in
              match url_path with
              | JStr p =>
                  let item_url :=
                    if str_truthy p then urljoin env base_url p
                    else base_url in
                  Ret (Some (item_url, is_single,
                             after_last_slash (rstrip ["/"%char] p)))
              | _ =>
                  if truthy url_path then Ret None
                  else Exn AttributeError
              end
          end
      end
  end.

(** The loop over [new_eps]. *)
Fixpoint episode_loop (folder_path : string) (n_new ep_i : nat)
    (eps : list string) : M unit :=
  match eps with
  | [] => skip
  | ep_url :: rest =>
      stop ← stop_or_limit;
      if (stop : bool) then skip
      else
        ok ← download_with_retry env ep_url folder_path (arg_dry_run args)
               (arg_errors_file args);
        (if (ok : bool) then
           (if arg_dry_run args then skip
            else append_seen (arg_seen_episodes_file args) ep_url);;
           modify (set_seen_episodes (fun s => s ∪ {[ep_url]}));;
           modify (set_stats incr_episodes_downloaded)
         else modify (set_stats incr_errors_this_run));;
        maybe_sleep ep_i n_new;;
        episode_loop folder_path n_new (S ep_i) rest
  end.

(** The movie branch of the loop body; the result tells whether the body
    runs on to the sleep at its end ([false]: [continue]). *)
Definition movie_path (item_url folder_path : string) : M bool :=
  w ← get_world;
  if is_permanent_error (errors w) item_url then
    modify (set_stats (add_skipped_permanent 1));;
    mret false
  else
    ok ← download_with_retry env item_url folder_path (arg_dry_run args)
           (arg_errors_file args);
    (if (ok : bool) then
       (if arg_dry_run args then skip
        else append_seen (arg_seen_file args) item_url);;
       modify (set_seen (fun s => s ∪ {[item_url]}));;
       modify (set_stats incr_movies_downloaded)
     else modify (set_stats incr_errors_this_run));;
    mret true.

(** The episodes still to download: not seen and not permanently failed. *)
Definition new_episodes (w : World) (episode_urls : list string)
    : list string :=
  filter (fun ep => (ep ∉ seen_episodes w)
                    ∧ is_permanent_error (errors w) ep = false)
         episode_urls.

(** The series branch of the loop body. *)
Definition series_path (item_url folder_path detail_html name : string)
    : M unit :=
  modify (set_stats incr_series_checked);;
  episode_urls ← lift (discover_episode_urls env detail_html);
  w ← get_world;
  let new_eps := new_episodes w episode_urls in
  let perm_skipped :=
    Z.of_nat (length (filter (fun ep => is_permanent_error (errors w) ep = true)
                             episode_urls)) in
  (if perm_skipped =? 0 then skip
   else modify (set_stats (add_skipped_permanent perm_skipped)));;
  let found_new := (Z.of_nat (length new_eps) >? 0) in
  episode_loop folder_path (length new_eps) 0 new_eps;;
  if arg_dry_run args then skip
  else update_series_state env item_url found_new name
         (arg_series_state_file args).

(** The poster step: [if image_url and not os.path.exists(poster_path)],
    then [download_file] unless this is a dry run. *)
Definition fetch_poster (image_url : option string) (poster_path : string)
    : M unit :=
  match image_url with
  | Some img =>
      if str_truthy img then
        n ← ask;
        if path_exists env n poster_path then skip
        else if arg_dry_run args then skip
        else emit (EvDownloadFile img poster_path)
      else skip
  | None => skip
  end.

(** The loop body from the detail page on; the result is [false] when the
    body ends in [continue]. *)
Definition handle_item (category_name item_url : string) (is_single : bool)
    (name_hint detail_html : string) : M bool :=
  meta ← lift (get_video_metadata env detail_html);
  let '(name0, year, image_url) := meta in
  let name :=
    match name0 with
    | Some n => if str_truthy n then n else name_hint
    | None => name_hint
    end in
  let folder_name :=
    match year with
    | Some y =>
        if str_truthy y then sanitize_filename name +:+ " (" +:+ y +:+ ")"
        else sanitize_filename name
    | None => sanitize_filename name
    end in
  let folder_path :=
    path_join env [arg_output_dir args; sanitize_filename category_name;
                   folder_name] in
  (if arg_dry_run args then skip else emit (EvMakedirs folder_path));;
  fetch_poster image_url (path_join env [folder_path; "poster.jpg"]);;
  if is_single then movie_path item_url folder_path
  else (series_path item_url folder_path detail_html name;; mret true).

(** The loop [for idx, item_data in enumerate(items)]; [n_items] is
    [len(items)] and [idx] the index of the head of [items]. *)
Fixpoint item_loop (category_name : string) (n_items idx : nat)
    (items : list json) : M unit :=
  match items with
  | [] => skip
  | item_data :: rest =>
      stop ← stop_or_limit;
      if (stop : bool) then skip
      else
        parsed ← lift (parse_item item_data);
        match parsed with
        | None => item_loop category_name n_items (S idx) rest
        | Some (item_url, is_single, name_hint) =>
            w ← get_world;
            if bool_decide (item_url ∈ seen w) then
              modify (set_stats incr_skipped_seen);;
              item_loop category_name n_items (S idx) rest
            else
              n ← ask;
              match fetch_html env n item_url with
              | None =>
                  modify (set_stats incr_errors_this_run);;
                  item_loop category_name n_items (S idx) rest
              | Some detail_html =>
                  to_end ← handle_item category_name item_url is_single
                             name_hint detail_html;
                  (if (to_end : bool) then maybe_sleep idx n_items else skip);;
                  item_loop category_name n_items (S idx) rest
              end
        end
  end.

(** The stale-series report: what [find_stale_series] yields, without the
    series already in the seen set. *)
Definition stale_report : M (list (string * string * Z * Z)) :=
  w ← get_world;
  stale ← find_stale_series env (series_state w) (arg_stale_days args);
  w' ← get_world;
  mret (filter (fun x => x.1.1.1 ∉ seen w') stale).

(** [main] from the start of the item loop to the stale report, for the
    items of the category listing. *)
Definition main_items (category_name : string) (items : list json)
    : M (list (string * string * Z * Z)) :=
  modify (set_stats (fun _ => zero_stats));;
  item_loop category_name (length items) 0 items;;
  stale_report.

End Orchestrator.

(** The world after the state files are loaded. *)
Definition init_world (seen0 seen_episodes0 : gset string)
    (series0 : gmap string SeriesEntry) (errors0 : gmap string ErrorEntry)
    : World :=
  mkWorld errors0 series0 seen0 seen_episodes0 zero_stats [] 0.

(** ** Auxiliary definitions for the statements *)

(** The characters of a string. *)
Abbreviation chars_of := list_ascii_of_string.

(** [sanitize_filename] as the specification words it: the characters of
    the class deleted and only TRAILING dots and spaces trimmed. *)
Definition sanitize_trailing_only (name : string) : string :=
  rstrip dot_space (re_sub_class forbidden_chars name).

(** What [save_json_state path doc] adds to the trace. *)
Definition saved (path : string) (doc : json_doc) : list event :=
  if str_truthy path then [EvSaveJson path doc] else [].

(** The failure count of a URL in the error store, 0 when it has none. *)
Definition fail_count_of (errs : gmap string ErrorEntry) (url : string) : Z :=
  match errs !! url with
  | Some entry => default 0 (fail_count entry)
  | None => 0
  end.

(** An error entry as the script itself makes them: flagged permanent
    exactly when it counts more than two failures. *)
Definition entry_consistent (entry : ErrorEntry) : Prop :=
  default false (permanent entry) = (default 0 (fail_count entry) >? 2).

(** The process launches recorded in a trace. *)
Definition launches (t : list event) : list event :=
  List.filter (fun ev => match ev with EvPopen _ _ => true | _ => false end) t.

(** A small concrete environment: [urljoin] concatenates, the parsers find
    nothing, time stands at [t0] and prints as a fixed stamp, every launch of
    the downloader ends as [spawn] says, and the stop flag reads [stop]. *)
Definition toy_env (spawn : nat -> spawn_result) (stop : nat -> bool)
    (page : string -> option json) : Env :=
  mkEnv (fun base p => base +:+ p)
        page
        (fun html => Some html)
        (fun _ => "2024-01-01T00:00:00")
        (fun raw => if String.eqb raw "2024-01-01T00:00:00" then IsoNaive 0
                    else IsoInvalid)
        (fun parts => foldr (fun p acc => p +:+ "/" +:+ acc) nil_str parts)
        (fun _ => Ret (Some "Show", None, None))
        (fun n _ => spawn n)
        (fun _ => 400 * 86400000000)
        stop
        (fun _ url => Some url)
        (fun _ _ => true).

(** The downloader always fails with exit code 1; no stop is requested. *)
Definition failing_env : Env :=
  toy_env (fun _ => Exited 1) (fun _ => false) (fun _ => None).

(** The downloader always succeeds. *)
Definition succeeding_env : Env :=
  toy_env (fun _ => Exited 0) (fun _ => false) (fun _ => None).

(** A world with empty stores. *)
Definition empty_world : World := init_world ∅ ∅ ∅ ∅.

(** The check count of a series in the state, 0 when it has no entry or no
    count. *)
Definition check_count_of (st : gmap string SeriesEntry) (url : string) : Z :=
  match st !! url with
  | Some entry => default 0 (check_count entry)
  | None => 0
  end.

(** The stored time stamp of the last new episode of a series, if any. *)
Definition last_date_of (st : gmap string SeriesEntry) (url : string)
    : option string :=
  match st !! url with
  | Some entry => last_new_episode_date entry
  | None => None
  end.

(** Days elapsed since the last new episode, as the specification words it:
    the whole days between the stored time stamp and now, and 9999 when the
    stamp is absent (or empty) or does not parse. *)
Definition elapsed_days (env : Env) (now_t : Z) (entry : SeriesEntry) : Z :=
  match last_new_episode_date entry with
  | Some raw =>
      if str_truthy raw then
        match fromisoformat env raw with
        | IsoNaive t => (now_t - t) `div` day_us
        | _ => 9999
        end
      else 9999
  | None => 9999
  end.

(** An entry that [find_stale_series] cannot handle: it is checked often
    enough to be looked at, and its time stamp is not empty and
    timezone-aware, so that subtracting it from the naive [now] raises. *)
Definition aware_stamp (env : Env) (entry : SeriesEntry) : Prop :=
  2 ≤ default 0 (check_count entry)
  ∧ ∃ raw, last_new_episode_date entry = Some raw
           ∧ str_truthy raw = true
           ∧ fromisoformat env raw = IsoAware.

(** No entry of the state is such an entry.  The script writes naive
    stamps only, so a state it made itself qualifies. *)
Definition comparable_stamps (env : Env) (st : gmap string SeriesEntry)
    : Prop :=
  ∀ url entry, st !! url = Some entry → ¬ aware_stamp env entry.

(** The URL of a line of the stale report. *)
Definition stale_url (x : string * string * Z * Z) : string := x.1.1.1.

(** *** Episode discovery, as the specification words it *)

(** The module list of a detail object. *)
Definition modules_of (details : json) : list json :=
  match details with
  | JObj d =>
      match dict_get_default d "modules" (JArr []) with
      | JArr modules => modules
      | _ => []
      end
  | _ => []
  end.

(** The identifier of a module (empty when it has none). *)
Definition module_id (m : json) : string :=
  match m with
  | JObj kvs =>
      match dict_lookup kvs "id" with
      | Some (JStr s) => s
      | _ => nil_str
      end
  | _ => nil_str
  end.

(** The selection items of a module. *)
Definition selection_items (m : json) : list json :=
  match _safe_get m ["selection"; "items"] with
  | JArr items => items
  | _ => []
  end.

(** The playable URL of an item, resolved against the site base URL. *)
Definition resolved_url (env : Env) (x : json) : option string :=
  match _safe_get x ["item"; "urls"; "svtplay"] with
  | JStr p => if str_truthy p then Some (urljoin env base_url p) else None
  | _ => None
  end.

(** A module is skipped when its identifier is [upcoming] or [related],
    starts with [details], or contains [clips]. *)
Definition skipped_id (mod_id : string) : bool :=
  bool_decide (mod_id = "upcoming" ∨ mod_id = "related")
  || String.prefix "details" mod_id
  || str_contains "clips" mod_id.

(** Remove duplicates, keeping the first occurrence of each element. *)
Fixpoint dedup_first (l : list string) : list string :=
  match l with
  | [] => []
  | x :: rest => x :: filter (fun y => y ≠ x) (dedup_first rest)
  end.

(** The URLs a list of modules contributes, in order: the resolved URLs of
    the selection items of the modules that are not skipped. *)
Definition urls_of_modules (env : Env) (modules : list json) : list string :=
  mjoin (map (fun m => omap (resolved_url env) (selection_items m))
             (filter (fun m => skipped_id (module_id m) = false) modules)).

(** The resolved URLs of all items of all modules that are not skipped, in
    order, duplicates included. *)
Definition listed_urls (env : Env) (details : json) : list string :=
  urls_of_modules env (modules_of details).

(** Episode discovery on a series page: the listed URLs without
    duplicates, first-seen order. *)
Definition episodes_spec (env : Env) (details : json) : list string :=
  dedup_first (listed_urls env details).

(** The shape the script expects of an item: its playable path is absent
    (falsy) or a string. *)
Definition item_well_formed (x : json) : Prop :=
  let path := _safe_get x ["item"; "urls"; "svtplay"] in
  truthy path = false ∨ ∃ p, path = JStr p.

(** ... of a module: an object whose id, if any, is a string, and which,
    unless it is skipped, has no selection or one whose items form a list of
    well-formed items. *)
Definition module_well_formed (m : json) : Prop :=
  ∃ kvs, m = JObj kvs
    ∧ (∃ mod_id, dict_get_default kvs "id" (JStr nil_str) = JStr mod_id)
    ∧ (skipped_id (module_id m) = true
       ∨ truthy (dict_get kvs "selection") = false
       ∨ ∃ s items,
           dict_get kvs "selection" = JObj s
           ∧ dict_get_default s "items" (JArr []) = JArr items
           ∧ Forall item_well_formed items).

(** ... of a detail object: an object whose modules, if any, form a list of
    well-formed modules. *)
Definition details_well_formed (details : json) : Prop :=
  ∃ d modules, details = JObj d
    ∧ dict_get_default d "modules" (JArr []) = JArr modules
    ∧ Forall module_well_formed modules.

(** The only events of a dry run: a rewrite of the errors file and a sleep.
    In particular no line is appended to a seen file, the series state is
    not saved, no process is started, no directory made, no poster
    fetched. *)
Definition dry_event (ev : event) : Prop :=
  match ev with
  | EvSaveJson _ (ErrorsDoc _) => True
  | EvSleep _ => True
  | _ => False
  end.

(** Successful downloads of the run so far. *)
Definition total_downloads (w : World) : Z :=
  movies_downloaded (stats w) + episodes_downloaded (stats w).

(** Any event but a save of the series state. *)
Definition not_series_save (ev : event) : Prop :=
  match ev with
  | EvSaveJson _ (SeriesDoc _) => False
  | _ => True
  end.

(** *** A small site for the examples *)

(** A selection item (or catalog stub) with the given path and type. *)
Definition stub (path typename : string) : json :=
  JObj [("item", JObj [("urls", JObj [("svtplay", JStr path)]);
                       ("__typename", JStr typename)])].

(** A module with an id and selection items. *)
Definition module_of (mod_id : string) (items : list json) : json :=
  JObj [("id", JStr mod_id); ("selection", JObj [("items", JArr items)])].

(** The details of a series with two seasons that share an episode, and an
    [upcoming] module. *)
Definition show_details : json :=
  JObj [("smartStart", JNull);
        ("item", JObj [("parent", JObj [("__typename", JStr "TvSeries")])]);
        ("modules",
         JArr [module_of "season-1"
                 [stub "/show/a" "Episode"; stub "/show/b" "Episode"];
               module_of "upcoming" [stub "/show/x" "Episode"];
               module_of "season-2"
                 [stub "/show/b" "Episode"; stub "/show/c" "Episode"]])].

(** The details of a series with a single episode. *)
Definition mini_details : json :=
  JObj [("item", JObj [("parent", JObj [("__typename", JStr "TvSeries")])]);
        ("modules", JArr [module_of "season-1" [stub "/mini/a" "Episode"]])].

(** The details of a movie. *)
Definition film_details : json :=
  JObj [("smartStart", JNull);
        ("item", JObj [("parent", JObj [("__typename", JStr "Single")]);
                       ("urls", JObj [("svtplay", JStr "/film")])])].

(** A page whose data store has one entry, stored under [key]. *)
Definition page_with (key : string) : json :=
  JObj [("props", JObj [("urqlState",
                         JObj [("q1", JObj [("data", JStr key)])])])].

(** The parser of the small site: a detail page is its own URL, and its
    store entry is kept under a key. *)
Definition site (text : string) : option json :=
  if String.eqb text "https://www.svtplay.se/show" then Some (page_with "SHOW")
  else if String.eqb text "https://www.svtplay.se/mini"
  then Some (page_with "MINI")
  else if String.eqb text "https://www.svtplay.se/film"
  then Some (page_with "FILM")
  else if String.eqb text "SHOW"
  then Some (JObj [("detailsPageByPath", show_details)])
  else if String.eqb text "MINI"
  then Some (JObj [("detailsPageByPath", mini_details)])
  else if String.eqb text "FILM"
  then Some (JObj [("detailsPageByPath", film_details)])
  else None.

(** The small site with a downloader that always fails, resp. succeeds. *)
Definition site_failing : Env :=
  toy_env (fun _ => Exited 1) (fun _ => false) site.
Definition site_succeeding : Env :=
  toy_env (fun _ => Exited 0) (fun _ => false) site.

(** The default arguments, and variants. *)
Definition args_default : Args :=
  mkArgs "Downloads" "seen_urls.txt" "seen_episodes.txt" "series_state.json"
         "errors.json" 1 365 0 false.
Definition args_dry : Args :=
  mkArgs "Downloads" "seen_urls.txt" "seen_episodes.txt" "series_state.json"
         "errors.json" 1 365 0 true.
Definition args_max2 : Args :=
  mkArgs "Downloads" "seen_urls.txt" "seen_episodes.txt" "series_state.json"
         "errors.json" 1 365 2 false.

(** Sample stores. *)
Definition errors_two : gmap string ErrorEntry :=
  {[ "u" := mkErrorEntry (Some 2) (Some false) None None ]}.
Definition errors_permanent : gmap string ErrorEntry :=
  {[ "u" := mkErrorEntry (Some 3) (Some true) None None ]}.
Definition errors_film : gmap string ErrorEntry :=
  {[ "https://www.svtplay.se/film"
     := mkErrorEntry (Some 1) (Some false) None None ]}.
Definition world_two : World := init_world ∅ ∅ ∅ errors_two.
Definition world_permanent : World := init_world ∅ ∅ ∅ errors_permanent.
Definition series_once : gmap string SeriesEntry :=
  {[ "s" := mkSeriesEntry (Some "Show") (Some 1) None ]}.
Definition series_old : gmap string SeriesEntry :=
  {[ "s" := mkSeriesEntry (Some "Show") (Some 2)
              (Some "2024-01-01T00:00:00") ]}.
Definition series_mini : gmap string SeriesEntry :=
  {[ "https://www.svtplay.se/mini"
     := mkSeriesEntry (Some "Mini") (Some 1) None ]}.

(** The entry [update_series_state] stores. *)
Definition updated_entry (st : gmap string SeriesEntry) (show_url : string)
    (found_new : bool) (show_name : string) (stamp : string)
    : SeriesEntry :=
  let entry :=
    default (mkSeriesEntry (Some show_name) (Some 0) None)
            (st !! show_url) in
  let name' :=
    if str_truthy show_name then show_name
    else default show_url (name entry) in
  if found_new then mkSeriesEntry (Some name') (Some 0) (Some stamp)
  else mkSeriesEntry (Some name')
                     (Some (default 0 (check_count entry) + 1))
                     (last_new_episode_date entry).


(** *** Frame reasoning: relations between the world before and after *)

(** [preserves R m]: running [m] takes every world to an [R]-related one,
    whether it returns or raises. *)
Definition preserves {A} (R : World -> World -> Prop) (m : M A) : Prop :=
  ∀ w, R w (m w).2.

(** [triple P m Q E]: from a world satisfying [P], [m] returns a value and a
    world satisfying [Q], or raises in a world satisfying [E]. *)
Definition triple {A} (P : World -> Prop) (m : M A)
    (Q : A -> World -> Prop) (E : World -> Prop) : Prop :=
  ∀ w, P w →
    match m w with
    | (Ret a, w') => Q a w'
    | (Exn _, w') => E w'
    end.

(** The counters are unchanged. *)
Definition same_stats (w w' : World) : Prop := stats w' = stats w.

(** The trace grew by events that all satisfy [P]. *)
Definition trace_grows (P : event -> Prop) (w w' : World) : Prop :=
  ∃ evs, trace w' = trace w ++ evs ∧ Forall P evs.

(** The series state is unchanged. *)
Definition same_series (w w' : World) : Prop :=
  series_state w' = series_state w.

(** Both at once. *)
Definition both (R1 R2 : World -> World -> Prop) (w w' : World) : Prop :=
  R1 w w' ∧ R2 w w'.

(** What a dry run may do to the world: extend the trace by [dry_event]s and
    leave the series state alone. *)
Definition dry_step : World -> World -> Prop :=
  both (trace_grows dry_event) same_series.

(** What the episode loop may do: anything but touch the series state. *)
Definition episode_step : World -> World -> Prop :=
  both (trace_grows not_series_save) same_series.

(** The number of successful downloads is unchanged. *)
Definition same_total (w w' : World) : Prop :=
  total_downloads w' = total_downloads w.

(** The limit of [--max-dl] is not exceeded. *)
Definition within_limit (args : Args) (w : World) : Prop :=
  total_downloads w ≤ arg_max_dl args.

(** There is room for one more download under the limit. *)
Definition room_left (args : Args) (w : World) : Prop :=
  total_downloads w < arg_max_dl args.

(** One call of the retry helper on [u] with a downloader that fails. *)
Definition failed_call (w : World) : World :=
  (download_with_retry failing_env "u" "out" false "errors.json" w).2.

(** A category listing with a movie and two series. *)
Definition three_items : list json :=
  [stub "/film" "Single"; stub "/show" "TvSeries"; stub "/mini" "TvSeries"].

(** ** The seen files and the poster file on disk

    The item loop above records an append to a seen file as an event.  The
    functions that read and rewrite those files, and the poster download,
    are embedded here over a file system: a finite map from paths to file
    contents.  Files are the UTF-8 bytes of their text; platform newline
    conventions are those of POSIX (a written newline is one byte); a
    decoding error or a failing file operation is not modelled. *)

(** *** Text files as Python reads them *)

(** Universal newlines: on reading, a carriage return, alone or followed by
    a line feed, becomes one line feed.  [after_cr] tells that the previous
    character was a carriage return. *)
Fixpoint translate_newlines_from (after_cr : bool) (raw : string) : string :=
  match raw with
  | EmptyString => EmptyString
  | String c r =>
      if Ascii.eqb c "013" then String "010" (translate_newlines_from true r)
      else if Ascii.eqb c "010" then
        if after_cr then translate_newlines_from false r
        else String "010" (translate_newlines_from false r)
      else String c (translate_newlines_from false r)
  end.

Definition translate_newlines (raw : string) : string :=
  translate_newlines_from false raw.

(** [f.readlines()] (and iteration over [f]) on the translated text: the
    lines with their line feeds, the last one possibly without. *)
Fixpoint readlines (text : string) : list string :=
  match text with
  | EmptyString => []
  | String c r =>
      if Ascii.eqb c "010" then String c EmptyString :: readlines r
      else
        match readlines r with
        | [] => [String c EmptyString]
        | l :: ls => String c l :: ls
        end
  end.

(** [f.writelines(lines)]: the lines one after the other. *)
Definition writelines (lines : list string) : string :=
  foldr String.append EmptyString lines.

(** *** [str.strip()] without argument *)

(** The one-byte white space of Python: tab to carriage return, the four
    separators 28 to 31, and the space. *)
Definition ascii_ws (c : ascii) : bool :=
  let n := nat_of_ascii c in
  ((9 <=? n)%nat && (n <=? 13)%nat) || ((28 <=? n)%nat && (n <=? 32)%nat).

(** The two-byte white space: U+0085 and U+00A0. *)
Definition ws2 (c1 c2 : ascii) : bool :=
  Ascii.eqb c1 "194" && (Ascii.eqb c2 "133" || Ascii.eqb c2 "160").

(** The three-byte white space: U+1680, U+2000 to U+200A, U+2028, U+2029,
    U+202F, U+205F and U+3000. *)
Definition ws3 (c1 c2 c3 : ascii) : bool :=
  let n3 := nat_of_ascii c3 in
  (Ascii.eqb c1 "225" && Ascii.eqb c2 "154" && Ascii.eqb c3 "128")
  || (Ascii.eqb c1 "226" && Ascii.eqb c2 "128"
      && (((128 <=? n3)%nat && (n3 <=? 138)%nat)
          || Ascii.eqb c3 "168" || Ascii.eqb c3 "169" || Ascii.eqb c3 "175"))
  || (Ascii.eqb c1 "226" && Ascii.eqb c2 "129" && Ascii.eqb c3 "159")
  || (Ascii.eqb c1 "227" && Ascii.eqb c2 "128" && Ascii.eqb c3 "128").

(** [s.lstrip()]. *)
Fixpoint lstrip_ws (s : string) : string :=
  match s with
  | EmptyString => EmptyString
  | String c1 r1 =>
      if ascii_ws c1 then lstrip_ws r1
      else
        match r1 with
        | EmptyString => s
        | String c2 r2 =>
            if ws2 c1 c2 then lstrip_ws r2
            else
              match r2 with
              | EmptyString => s
              | String c3 r3 => if ws3 c1 c2 c3 then lstrip_ws r3 else s
              end
        end
  end.

(** The string is white space from end to end. *)
Definition all_ws (s : string) : bool :=
  negb (str_truthy (lstrip_ws s)).

(** [s.rstrip()]: the shortest prefix after which only white space
    follows. *)
Fixpoint rstrip_ws (s : string) : string :=
  match s with
  | EmptyString => EmptyString
  | String c r => if all_ws s then EmptyString else String c (rstrip_ws r)
  end.

(** [s.strip()]. *)
Definition strip_ws (s : string) : string := rstrip_ws (lstrip_ws s).

(** *** The file operations *)

(** How the HTTP exchange of [download_file] goes: [Request] rejects the
    URL (a [ValueError] raised outside the [try]); an exception is raised
    before the destination is opened ([urlopen] or [open] fails); or the
    body arrives as the chunks [resp.read] returns, after which the stream
    ends or, if [completes] is false, an exception is raised (by the read or
    by the write). *)
Inductive http_session : Type :=
| InvalidRequest
| FailedBeforeOpen
| Streaming (chunks : list string) (completes : bool).

Module Disk.

(** [os.path.exists] for a file. *)
Definition file_exists (files : gmap string string) (path : string) : bool :=
  bool_decide (is_Some (files !! path)).

(** The text of a file as [open(path, r)] gives it. *)
Definition read_text (files : gmap string string) (path : string) : string :=
  translate_newlines (default EmptyString (files !! path)).

(** The guard [not path or not os.path.exists(path)]. *)
Definition missing (files : gmap string string) (path : string) : bool :=
  negb (str_truthy path) || negb (file_exists files path).

(** [load_seen]: the stripped lines that are not blank. *)
Definition load_seen (files : gmap string string) (path : string)
    : gset string :=
  if missing files path then ∅
  else
    list_to_set
      (List.filter str_truthy
         (map strip_ws (readlines (read_text files path)))).

(** [append_seen]: the file is opened for appending (and created if need
    be) and the URL written with a line feed. *)
Definition append_seen (files : gmap string string) (path url : string)
    : gmap string string :=
  if negb (str_truthy path) then files
  else
    <[path := default EmptyString (files !! path)
              +:+ url +:+ String "010" EmptyString]> files.

(** [remove_from_seen]: the file rewritten without the lines that strip to
    the URL; [False] and no write when there is none. *)
Definition remove_from_seen (files : gmap string string) (path url : string)
    : bool * gmap string string :=
  if missing files path then (false, files)
  else
    let lines := readlines (read_text files path) in
    let filtered :=
      List.filter (fun l => negb (String.eqb (strip_ws l) url)) lines in
    if (length filtered =? length lines)%nat then (false, files)
    else (true, <[path := writelines filtered]> files).

(** The [--mark-complete] branch of [main]. *)
Definition mark_complete (files : gmap string string)
    (seen_file url : string) : gmap string string :=
  if bool_decide (url ∈ load_seen files seen_file) then files
  else append_seen files seen_file url.

(** The [--unmark-complete] branch of [main]. *)
Definition unmark_complete (files : gmap string string)
    (seen_file url : string) : bool * gmap string string :=
  remove_from_seen files seen_file url.

(** The loop of [download_file] over the chunks read: the bytes written,
    and whether the loop ended normally.  An empty chunk ends the
    stream. *)
Fixpoint stream (chunks : list string) (completes : bool) (written : string)
    : string * bool :=
  match chunks with
  | [] => (written, completes)
  | chunk :: rest =>
      if str_truthy chunk then stream rest completes (written +:+ chunk)
      else (written, true)
  end.

(** [download_file]: [None] is the [ValueError] of an invalid URL; the
    [except] branch removes the destination if it exists. *)
Definition download_file (files : gmap string string)
    (session : http_session) (dest_path : string)
    : option bool * gmap string string :=
  match session with
  | InvalidRequest => (None, files)
  | FailedBeforeOpen => (Some false, delete dest_path files)
  | Streaming chunks completes =>
      let '(written, finished) := stream chunks completes EmptyString in
      if finished then (Some true, <[dest_path := written]> files)
      else (Some false, delete dest_path files)
  end.

End Disk.

(** *** Shapes of lines and URLs *)

(** No line feed and no carriage return. *)
Fixpoint no_newline (s : string) : bool :=
  match s with
  | EmptyString => true
  | String c r =>
      negb (Ascii.eqb c "010") && negb (Ascii.eqb c "013") && no_newline r
  end.

(** A URL that a seen file stores faithfully: not empty, on one line, and
    given back by stripping the line it is written as. *)
Definition clean_url (url : string) : Prop :=
  str_truthy url = true
  ∧ no_newline url = true
  ∧ strip_ws (url +:+ String "010" EmptyString) = url.

(** A printable ASCII character other than the space. *)
Definition printable (c : ascii) : bool :=
  let n := nat_of_ascii c in (33 <=? n)%nat && (n <=? 126)%nat.

(** The text of a file is empty or ends with a line feed. *)
Definition ends_with_newline (text : string) : Prop :=
  text = EmptyString ∨ ∃ t, text = t +:+ String "010" EmptyString.

(** The file at [path], if any, is empty or ends with a line feed. *)
Definition file_terminated (files : gmap string string) (path : string)
    : Prop :=
  ends_with_newline (Disk.read_text files path).

(** No carriage return; no line feed. *)
Fixpoint no_cr (s : string) : bool :=
  match s with
  | EmptyString => true
  | String c r => negb (Ascii.eqb c "013") && no_cr r
  end.

Fixpoint no_lf (s : string) : bool :=
  match s with
  | EmptyString => true
  | String c r => negb (Ascii.eqb c "010") && no_lf r
  end.

(** A complete line: its only line feed is its last character. *)
Fixpoint is_terminated (l : string) : bool :=
  match l with
  | EmptyString => false
  | String c r =>
      if Ascii.eqb c "010" then negb (str_truthy r) else is_terminated r
  end.

(** The lines of a text: every line is complete, but the last may be a
    non-empty line without line feed. *)
Fixpoint lines_wf (ls : list string) : bool :=
  match ls with
  | [] => true
  | l :: rest =>
      (is_terminated l
       || (match rest with [] => true | _ => false end
           && str_truthy l && no_lf l))
      && lines_wf rest
  end.

(** The line feed as a string. *)
Definition nl : string := String "010" EmptyString.

(** The bytes of a response body: the chunks up to the first empty one. *)
Fixpoint body_of (chunks : list string) : string :=
  match chunks with
  | [] => EmptyString
  | chunk :: rest =>
      if str_truthy chunk then chunk +:+ body_of rest else EmptyString
  end.

(** The stream delivers an empty chunk, which ends it. *)
Definition has_empty_chunk (chunks : list string) : bool :=
  existsb (fun chunk => negb (str_truthy chunk)) chunks.

(** A non-empty string of printable ASCII characters other than the
    space. *)
Fixpoint all_printable (s : string) : bool :=
  match s with
  | EmptyString => true
  | String c r => printable c && all_printable r
  end.

Definition printable_url (url : string) : bool :=
  str_truthy url && all_printable url.

(** ** The run, its trace and the state files *)

(** The URLs a trace appends to the file [path], in order. *)
Definition appended (path : string) (evs : list event) : list string :=
  omap (fun ev =>
          match ev with
          | EvAppend p url => if String.eqb p path then Some url else None
          | _ => None
          end) evs.

(** The appends of a trace, carried out on the files. *)
Definition replay_appends (evs : list event) (files : gmap string string)
    : gmap string string :=
  foldl (fun fs ev =>
           match ev with
           | EvAppend p url => Disk.append_seen fs p url
           | _ => fs
           end) files evs.

(** The document the file [path] holds after the saves of a trace, [doc0]
    being the one it held before. *)
Definition persisted (path : string) (doc0 : json_doc) (evs : list event)
    : json_doc :=
  foldl (fun doc ev =>
           match ev with
           | EvSaveJson p d => if String.eqb p path then d else doc
           | _ => doc
           end) doc0 evs.

(** The seen sets grew by exactly the URLs the new part of the trace
    appends to their files. *)
Definition tracks_seen (args : Args) (w w' : World) : Prop :=
  ∃ evs, trace w' = trace w ++ evs
    ∧ seen w' = seen w ∪ list_to_set (appended (arg_seen_file args) evs)
    ∧ seen_episodes w'
      = seen_episodes w
        ∪ list_to_set (appended (arg_seen_episodes_file args) evs).

(** The two JSON stores are what the new part of the trace leaves in their
    files. *)
Definition tracks_stores (args : Args) (w w' : World) : Prop :=
  ∃ evs, trace w' = trace w ++ evs
    ∧ persisted (arg_errors_file args) (ErrorsDoc (errors w)) evs
      = ErrorsDoc (errors w')
    ∧ persisted (arg_series_state_file args) (SeriesDoc (series_state w)) evs
      = SeriesDoc (series_state w').

(** Every entry of the error store is flagged permanent exactly when it
    counts more than two failures. *)
Definition errors_consistent (errs : gmap string ErrorEntry) : Prop :=
  map_Forall (fun _ entry => entry_consistent entry) errs.

(** A consistent error store stays consistent. *)
Definition keeps_consistent (w w' : World) : Prop :=
  errors_consistent (errors w) → errors_consistent (errors w').

(** The part of the trace of [w'] that was added since [w]. *)
Definition new_events (w w' : World) : list event :=
  drop (length (trace w)) (trace w').

(** The step of the loop bodies that records a finished movie, resp.
    episode: the line in the seen file (not in a dry run) and the URL in the
    set. *)
Definition mark_movie (args : Args) (url : string) : M unit :=
  (if arg_dry_run args then skip else append_seen (arg_seen_file args) url);;
  modify (set_seen (fun s => s ∪ {[url]})).

Definition mark_episode (args : Args) (url : string) : M unit :=
  (if arg_dry_run args then skip
   else append_seen (arg_seen_episodes_file args) url);;
  modify (set_seen_episodes (fun s => s ∪ {[url]})).

(** Any event but an append to a seen file; any event but a save of a JSON
    state file. *)
Definition not_append (ev : event) : Prop :=
  match ev with EvAppend _ _ => False | _ => True end.

Definition not_save (ev : event) : Prop :=
  match ev with EvSaveJson _ _ => False | _ => True end.

(** A change of the counters that leaves the two download counters
    alone. *)
Definition keeps_downloads (f : Stats -> Stats) : Prop :=
  ∀ st, movies_downloaded (f st) = movies_downloaded st
        ∧ episodes_downloaded (f st) = episodes_downloaded st.

(** Marking and counting a finished movie, resp. episode. *)
Definition record_movie (args : Args) (url : string) : M unit :=
  mark_movie args url;; modify (set_stats incr_movies_downloaded).

Definition record_episode (args : Args) (url : string) : M unit :=
  mark_episode args url;; modify (set_stats incr_episodes_downloaded).

(** The two download counters grew by the number of lines the new part of
    the trace appends to the two seen files. *)
Definition counts_downloads (args : Args) (w w' : World) : Prop :=
  ∃ evs, trace w' = trace w ++ evs
    ∧ movies_downloaded (stats w')
      = movies_downloaded (stats w)
        + Z.of_nat (length (appended (arg_seen_file args) evs))
    ∧ episodes_downloaded (stats w')
      = episodes_downloaded (stats w)
        + Z.of_nat (length (appended (arg_seen_episodes_file args) evs)).

(** The URL a launch of the downloader is for: the last word of the
    command. *)
Definition launch_url (ev : event) : option string :=
  match ev with
  | EvPopen cmd _ => last cmd
  | _ => None
  end.

(** The URLs the downloader was launched for, in order. *)
Definition launched (evs : list event) : list string := omap launch_url evs.

(** If [url] was flagged permanent it still is, and the downloader was not
    launched for it. *)
Definition never_launches (url : string) (w w' : World) : Prop :=
  is_permanent_error (errors w) url = true →
  is_permanent_error (errors w') url = true
  ∧ ∃ evs, trace w' = trace w ++ evs ∧ url ∉ launched evs.

(** The downloader was launched for URLs of the list [U] only. *)
Definition launches_within (U : list string) (w w' : World) : Prop :=
  ∃ evs, trace w' = trace w ++ evs ∧ ∀ u, u ∈ launched evs → u ∈ U.

(** ** Further auxiliary definitions *)

(** Every character of the string is deleted or stripped by
    [sanitize_filename]: it is in the forbidden class, a dot or a space. *)
Definition vanishing (c : ascii) : bool :=
  mem_chars forbidden_chars c || mem_chars dot_space c.

(** An entry of the data store carries a [detailsPageByPath] object that
    has the key [want]. *)
Definition carries_details (want : string) (entry : json) : Prop :=
  ∃ items kvs,
    entry = JObj items
    ∧ (("detailsPageByPath" : string), JObj kvs) ∈ items
    ∧ is_Some (dict_lookup kvs want).

(** An environment that differs in [datetime.fromisoformat] only. *)
Definition with_fromisoformat (env : Env) (f : string -> iso_parse) : Env :=
  mkEnv (urljoin env) (json_loads env) (re_search_info env) (isoformat env)
        f (path_join env) (get_video_metadata env) (popen env) (clock env)
        (stop_requested env) (fetch_html env) (path_exists env).

(** Every stamp with a UTC offset marker is aware. *)
Definition offset_env : Env :=
  with_fromisoformat failing_env
    (fun raw => if str_contains "+" raw then IsoAware
                else fromisoformat failing_env raw).

(** A series checked twice, with a stamp that carries an offset. *)
Definition series_aware : gmap string SeriesEntry :=
  {[ "s" := mkSeriesEntry (Some "Show") (Some 2)
              (Some "2024-01-01T00:00:00+00:00") ]}.

(** The value of [item_data[item][urls][svtplay]], if the three subscripts
    succeed. *)
Definition svtplay_path (item_data : json) : option json :=
  match subscript item_data "item" with
  | Some item =>
      match subscript item "urls" with
      | Some urls => subscript urls "svtplay"
      | None => None
      end
  | None => None
  end.

(** A listing item whose play path is JSON null. *)
Definition null_item : json :=
  JObj [("item", JObj [("urls", JObj [("svtplay", JNull)])])].

(** The seen set of movies is as before, and no line was appended to its
    file. *)
Definition spares_seen (args : Args) (w w' : World) : Prop :=
  ∃ evs, trace w' = trace w ++ evs
    ∧ seen w' = seen w
    ∧ appended (arg_seen_file args) evs = [].

(** An event that is not an append to the file [path]. *)
Definition not_append_to (path : string) (ev : event) : Prop :=
  appended path [ev] = [].

(** A listing item that the loop passes over: malformed, or with a URL in
    the set [S]. *)
Definition passed_over (env : Env) (S : gset string) (item_data : json)
    : Prop :=
  parse_item env item_data = Ret None
  ∨ ∃ item_url is_single name_hint,
      parse_item env item_data = Ret (Some (item_url, is_single, name_hint))
      ∧ item_url ∈ S.

(** ** Cover images from the page data *)

Section Images.
(** What an f-string makes of a value. *)
Variable fmt : json -> string.

(** [_image_url_from_dict]. *)
Definition _image_url_from_dict (img : list (string * json))
    : option string :=
  match dict_lookup img "id", dict_lookup img "changed" with
  | Some id, Some changed =>
      Some ("https://www.svtstatic.se/image/original/default/"
            +:+ fmt id +:+ "/" +:+ fmt changed
            +:+ "?format=auto&quality=100")
  | _, _ => None
  end.

(** [_image_from_json]: the wide image of the parent, else the wide image
    of the page; a dict ends the search whether it gives a URL or not, a
    string only if it is not empty. *)
Definition _image_from_json (details : json) : option string :=
  match _safe_get details ["item"; "parent"; "image"; "wide"] with
  | JObj img => _image_url_from_dict img
  | JStr (String c s) => Some (String c s)
  | _ =>
      match _safe_get details ["images"; "wide"] with
      | JObj img => _image_url_from_dict img
      | JStr (String c s) => Some (String c s)
      | _ => None
      end
  end.

End Images.

(** ** The category listing *)

(** [x != all] fails. *)
Definition is_all (x : json) : bool :=
  match x with
  | JStr s => String.eqb s "all"
  | _ => false
  end.

(** The loop over [tab.get(modules, [])]: [items.extend] appends the items
    of every truthy selection. *)
Fixpoint category_modules (modules items : list json)
    : outcome (list json) :=
  match modules with
  | [] => Ret items
  | module :: rest =>
      m ← as_dict module;
      let sel := dict_get m "selection" in
      if truthy sel then
        s ← as_dict sel;
        more ← py_iter (dict_get_default s "items" (JArr []));
        category_modules rest (items ++ more)
      else category_modules rest items
  end.

(** The loop over [data.get(lazyLoadedTabs, [])]. *)
Fixpoint category_tabs (tabs items : list json) : outcome (list json) :=
  match tabs with
  | [] => Ret items
  | tab :: rest =>
      t ← as_dict tab;
      if is_all (dict_get t "slug") then
        modules ← py_iter (dict_get_default t "modules" (JArr []));
        items' ← category_modules modules items;
        category_tabs rest items'
      else category_tabs rest items
  end.

(** The loop over [entry.items()]. *)
Fixpoint category_entry (kvs : list (string * json)) (items : list json)
    : outcome (list json) :=
  match kvs with
  | [] => Ret items
  | (key, data) :: rest =>
      match data with
      | JObj d =>
          if String.eqb key "categoryPage" then
            tabs ← py_iter (dict_get_default d "lazyLoadedTabs" (JArr []));
            items' ← category_tabs tabs items;
            category_entry rest items'
          else category_entry rest items
      | _ => category_entry rest items
      end
  end.

Section Category.
Variable env : Env.

(** The loop over the generator [_iter_urql_entries]. *)
Fixpoint category_pass (raw items : list json) : outcome (list json) :=
  match raw with
  | [] => Ret items
  | e :: rest =>
      parsed ← urql_entry env e;
      match parsed with
      | None => category_pass rest items
      | Some entry =>
          kvs ← as_dict entry;
          items' ← category_entry kvs items;
          category_pass rest items'
      end
  end.

(** [get_category_items]. *)
Definition get_category_items (page_json : json) : outcome (list json) :=
  raw ← urql_values page_json;
  category_pass raw [].

(** *** The listing, as a description *)

(** The elements of a JSON list, nothing for any other value. *)
Definition elements_of (v : json) : list json :=
  match v with
  | JArr l => l
  | _ => []
  end.

(** The items a module lists: those of its selection, if it has one. *)
Definition module_listing (module : json) : list json :=
  elements_of (_safe_get module ["selection"; "items"]).

(** The items a tab lists: those of its modules if its slug is [all]. *)
Definition tab_listing (tab : json) : list json :=
  if is_all (_safe_get tab ["slug"])
  then flat_map module_listing (elements_of (_safe_get tab ["modules"]))
  else [].

(** The items an entry of the data store lists: those of the tabs of its
    [categoryPage] objects. *)
Definition entry_listing (kvs : list (string * json)) : list json :=
  flat_map (fun kv =>
              match kv with
              | (key, JObj d) =>
                  if String.eqb key "categoryPage"
                  then flat_map tab_listing
                         (elements_of (dict_get d "lazyLoadedTabs"))
                  else []
              | _ => []
              end) kvs.

(** The listing of a data store: entry after entry, nothing removed. *)
Definition store_listing (raw : list json) : list json :=
  flat_map (fun e =>
              match urql_entry env e with
              | Ret (Some (JObj kvs)) => entry_listing kvs
              | _ => []
              end) raw.

(** The shape the script expects: a module is an object whose selection,
    if truthy, is an object with a list of items (or none). *)
Definition module_listed (module : json) : Prop :=
  ∃ m, module = JObj m
    ∧ (truthy (dict_get m "selection") = false
       ∨ ∃ s items, dict_get m "selection" = JObj s
                    ∧ dict_get_default s "items" (JArr []) = JArr items).

(** A tab is an object; if its slug is [all], its modules, if any, form a
    list of such modules. *)
Definition tab_listed (tab : json) : Prop :=
  ∃ t, tab = JObj t
    ∧ (is_all (dict_get t "slug") = false
       ∨ ∃ modules, dict_get_default t "modules" (JArr []) = JArr modules
                    ∧ Forall module_listed modules).

(** The tabs of every [categoryPage] object of an entry, if any, form a
    list of such tabs. *)
Definition entry_listed (kvs : list (string * json)) : Prop :=
  Forall (fun kv =>
            ∀ d, kv = (("categoryPage" : string), JObj d) →
                 ∃ tabs, dict_get_default d "lazyLoadedTabs" (JArr [])
                         = JArr tabs
                         ∧ Forall tab_listed tabs) kvs.

(** Every entry of the store that carries data parses to such an entry or
    is passed over. *)
Definition store_listed (raw : list json) : Prop :=
  Forall (fun e =>
            urql_entry env e = Ret None
            ∨ ∃ kvs, urql_entry env e = Ret (Some (JObj kvs))
                     ∧ entry_listed kvs) raw.

End Category.

(** A category page for the examples: a tab with every item, and a tab
    with a selection of them. *)
Definition category_data : json :=
  JObj [("categoryPage",
         JObj [("heading", JStr "Filmer");
               ("lazyLoadedTabs",
                JArr [JObj [("slug", JStr "popular");
                            ("modules",
                             JArr [module_of "top"
                                     [stub "/film" "Single"]])];
                      JObj [("slug", JStr "all");
                            ("modules",
                             JArr [module_of "a-o"
                                     [stub "/film" "Single";
                                      stub "/show" "TvSeries"];
                                   JObj [("id", JStr "empty")];
                                   module_of "more"
                                     [stub "/mini" "TvSeries"]])]])])].

Definition category_site (text : string) : option json :=
  if String.eqb text "CATEGORY" then Some category_data else site text.

Definition category_env : Env :=
  toy_env (fun _ => Exited 0) (fun _ => false) category_site.

(** ** The cover image in the HTML *)

(** [s.split(sep)] for a one-character separator. *)
Fixpoint split_char (sep : ascii) (s : string) : list string :=
  match s with
  | EmptyString => [EmptyString]
  | String c r =>
      if Ascii.eqb c sep then EmptyString :: split_char sep r
      else
        match split_char sep r with
        | p :: ps => String c p :: ps
        | [] => [String c EmptyString]
        end
  end.

(** [s.rsplit(space, 1)] when it gives two pieces, those around the last
    space; [None] when [s] has no space. *)
Fixpoint rsplit_space (s : string) : option (string * string) :=
  match s with
  | EmptyString => None
  | String c r =>
      match rsplit_space r with
      | Some (a, b) => Some (String c a, b)
      | None => if Ascii.eqb c " " then Some (EmptyString, r) else None
      end
  end.

(** What the HTML parser hands to the handlers: a start tag with its
    attributes (the value is [None] for an attribute without one), or an
    end tag. *)
Inductive tag_event : Type :=
| StartTag (tag : string) (attrs : list (string * option string))
| EndTag (tag : string).

(** The two fields of [_ImageSrcsetExtractor]. *)
Record extractor : Type := mkExtractor {
  in_container : bool;
  image_url : option string;
}.

(** [dict(attrs).get(k)]: the last attribute of that name decides. *)
Definition attr_get (attrs : list (string * option string)) (k : string)
    : option string :=
  fold_left (fun acc kv => if String.eqb (fst kv) k then snd kv else acc)
            attrs None.

(** [x or y] on optional strings. *)
Definition str_or (x y : option string) : option string :=
  match x with
  | Some (String c s) => x
  | _ => y
  end.

Section Srcset.
(** [int(s)]; [None] is [ValueError]. *)
Variable py_int : string -> option Z.
(** The events the parser produces for a text. *)
Variable html_events : string -> list tag_event.

(** The body of the loop over the parts of a srcset, up to the comparison:
    the URL and the width of a part that has both. *)
Definition candidate (part : string) : option (string * Z) :=
  match rsplit_space (strip_ws part) with
  | Some (url, width) =>
      match py_int (rstrip ["w"%char] width) with
      | Some w => Some (url, w)
      | None => None
      end
  | None => None
  end.

(** The loop over the parts. *)
Fixpoint best_candidate (parts : list string) (best_url : option string)
    (best_w : Z) : option string * Z :=
  match parts with
  | [] => (best_url, best_w)
  | part :: rest =>
      match candidate part with
      | Some (url, w) =>
          if w >? best_w then best_candidate rest (Some url) w
          else best_candidate rest best_url best_w
      | None => best_candidate rest best_url best_w
      end
  end.

(** [handle_starttag]. *)
Definition handle_starttag (st : extractor) (tag : string)
    (attrs : list (string * option string)) : extractor :=
  let in_c :=
    (String.eqb tag "div"
     && bool_decide (attr_get attrs "data-css-selector"
                     = Some "imageContainer"))
    || in_container st in
  if String.eqb tag "img" && in_c
     && bool_decide (image_url st = None)
  then
    match attr_get attrs "srcset" with
    | Some (String c s) =>
        let best := best_candidate (split_char "," (String c s)) None 0 in
        mkExtractor in_c (str_or (fst best) (attr_get attrs "src"))
    | _ => mkExtractor in_c (attr_get attrs "src")
    end
  else mkExtractor in_c (image_url st).

(** [handle_endtag]. *)
Definition handle_endtag (st : extractor) (tag : string) : extractor :=
  if String.eqb tag "div" then mkExtractor false (image_url st) else st.

(** [feed], on the events of the text. *)
Definition feed (evs : list tag_event) (st : extractor) : extractor :=
  fold_left (fun st ev =>
               match ev with
               | StartTag tag attrs => handle_starttag st tag attrs
               | EndTag tag => handle_endtag st tag
               end) evs st.

(** [_image_from_html]. *)
Definition _image_from_html (html : string) : option string :=
  image_url (feed (html_events html) (mkExtractor false None)).

End Srcset.

(** A reading of decimal numerals, for the examples. *)
Fixpoint digits_value (acc : Z) (s : string) : option Z :=
  match s with
  | EmptyString => Some acc
  | String c r =>
      let n := Z.of_nat (nat_of_ascii c) in
      if (48 <=? n) && (n <=? 57) then digits_value (10 * acc + (n - 48)) r
      else None
  end.

Definition decimal (s : string) : option Z :=
  match s with
  | EmptyString => None
  | _ => digits_value 0 s
  end.

(** An event opens an image container. *)
Definition opens_container (ev : tag_event) : bool :=
  match ev with
  | StartTag tag attrs =>
      String.eqb tag "div"
      && bool_decide (attr_get attrs "data-css-selector"
                      = Some "imageContainer")
  | EndTag _ => false
  end.

(** * Properties *)

(** ** File-name sanitisation *)

Section StripFacts.
Variable cs : list ascii.

Lemma chars_re_sub_class s :
  chars_of (re_sub_class cs s)
  = List.filter (fun c => negb (mem_chars cs c)) (chars_of s).
Proof.
  induction s as [|c s IH]; simpl; [reflexivity|].
  destruct (mem_chars cs c); simpl; by rewrite IH.
Qed.

Lemma lstrip_split s :
  ∃ pre, chars_of s = pre ++ chars_of (lstrip cs s)
         ∧ Forall (fun c => mem_chars cs c = true) pre.
Proof.
  induction s as [|c s [pre [E F]]]; simpl.
  - by exists [].
  - destruct (mem_chars cs c) eqn:Hc.
    + exists (c :: pre). split; [by rewrite E | by constructor].
    + by exists [].
Qed.

Lemma lstrip_head s c r :
  chars_of (lstrip cs s) = c :: r → mem_chars cs c = false.
Proof.
  induction s as [|a s IH]; simpl; [discriminate|].
  destruct (mem_chars cs a) eqn:Ha; [exact IH|].
  simpl. intros [= <- _]. exact Ha.
Qed.

Lemma rstrip_split s :
  ∃ post, chars_of s = chars_of (rstrip cs s) ++ post
          ∧ Forall (fun c => mem_chars cs c = true) post.
Proof.
  induction s as [|c s [post [E F]]]; simpl.
  - by exists [].
  - destruct (rstrip cs s) as [|b r] eqn:Hr.
    + destruct (mem_chars cs c) eqn:Hc; simpl in *.
      * exists (c :: post). split; [by rewrite E | by constructor].
      * exists post. by rewrite E.
    + exists post. simpl in *. by rewrite E.
Qed.

Lemma rstrip_last s c r :
  chars_of (rstrip cs s) = r ++ [c] → mem_chars cs c = false.
Proof.
  revert r. induction s as [|a s IH]; simpl; intros r.
  - by destruct r.
  - destruct (rstrip cs s) as [|b t] eqn:Hr.
    + destruct (mem_chars cs a) eqn:Ha; simpl.
      * destruct r; simpl; intros E; discriminate E.
      * destruct r as [|x [|y r]]; simpl; intros E; simplify_eq; done.
    + destruct r as [|x r]; simpl; intros E.
      * discriminate E.
      * injection E as _ E. by apply (IH r).
Qed.

(** The two ends of [strip]: nothing of the set is left on either side. *)
Lemma strip_ends s :
  (∀ c r, chars_of (strip cs s) = c :: r → mem_chars cs c = false)
  ∧ (∀ c r, chars_of (strip cs s) = r ++ [c] → mem_chars cs c = false).
Proof.
  unfold strip. split; intros c r E.
  - destruct (rstrip_split (lstrip cs s)) as [post [E' _]].
    rewrite E in E'. by apply (lstrip_head s c (r ++ post)).
  - by apply (rstrip_last (lstrip cs s) c r).
Qed.

Lemma strip_split s :
  ∃ pre post, chars_of s = pre ++ chars_of (strip cs s) ++ post
              ∧ Forall (fun c => mem_chars cs c = true) pre
              ∧ Forall (fun c => mem_chars cs c = true) post.
Proof.
  destruct (lstrip_split s) as [pre [E F]].
  destruct (rstrip_split (lstrip cs s)) as [post [E' F']].
  exists pre, post. unfold strip. by rewrite E, E'.
Qed.
End StripFacts.

(** C4, as amended: [sanitize_filename] deletes every occurrence of the
    nine characters of the class, keeping the other characters in order,
    and then removes the dots and spaces at BOTH ends: what is left of the
    kept characters is a middle part that neither starts nor ends with a
    dot or a space, and what was cut off on either side is dots and spaces
    only. *)
Theorem sanitize_filename_strips_both_ends (name : string) :
  let kept :=
    List.filter (fun c => negb (mem_chars forbidden_chars c)) (chars_of name) in
  ∃ pre post,
    kept = pre ++ chars_of (sanitize_filename name) ++ post
    ∧ Forall (fun c => mem_chars dot_space c = true) pre
    ∧ Forall (fun c => mem_chars dot_space c = true) post
    ∧ (∀ c r, chars_of (sanitize_filename name) = c :: r →
              mem_chars dot_space c = false)
    ∧ (∀ c r, chars_of (sanitize_filename name) = r ++ [c] →
              mem_chars dot_space c = false).
Proof.
  intros kept. unfold sanitize_filename.
  destruct (strip_split dot_space (re_sub_class forbidden_chars name))
    as [pre [post [E [F1 F2]]]].
  destruct (strip_ends dot_space (re_sub_class forbidden_chars name))
    as [H1 H2].
  exists pre, post. subst kept.
  rewrite <- chars_re_sub_class. auto.
Qed.

(** C4, as stated, fails: a leading dot is stripped too, where trimming
    trailing characters only would keep it. *)
Lemma sanitize_filename_strips_leading_dot :
  sanitize_filename ".hidden " = "hidden"
  ∧ sanitize_trailing_only ".hidden " = ".hidden"
  ∧ sanitize_filename ".hidden " ≠ sanitize_trailing_only ".hidden ".
Proof. repeat split; try reflexivity. discriminate. Qed.

(** ** Error accounting and the retry helper *)

(** Unfold the outermost bind of the script monad. *)
Ltac mstep := unfold mbind at 1, M_bind at 1.

Section ErrorFacts.
Variable env : Env.

Lemma record_error_run url rc ef w :
  record_error env url rc ef w =
  let entry' := bump_error (default fresh_error (errors w !! url)) rc
                  (isoformat env (clock env (tick w))) in
  let errs' := <[url := entry']> (errors w) in
  (Ret tt,
   mkWorld errs' (series_state w) (seen w) (seen_episodes w) (stats w)
           (trace w ++ saved ef (ErrorsDoc errs')) (S (tick w))).
Proof.
  unfold record_error, save_json_state, saved, now, ask, emit, modify,
    get_world, skip, mbind, M_bind, mret, M_ret.
  simpl. destruct (str_truthy ef); simpl; [reflexivity|].
  unfold set_errors; simpl. by rewrite app_nil_r.
Qed.

Lemma clear_error_run url ef w :
  clear_error url ef w =
  (Ret tt,
   if bool_decide (is_Some (errors w !! url)) then
     mkWorld (delete url (errors w)) (series_state w) (seen w)
             (seen_episodes w) (stats w)
             (trace w ++ saved ef (ErrorsDoc (delete url (errors w))))
             (tick w)
   else w).
Proof.
  unfold clear_error, save_json_state, saved, emit, modify, get_world,
    skip, mbind, M_bind, mret, M_ret.
  simpl. case_bool_decide; [|reflexivity].
  destruct (str_truthy ef); simpl; [reflexivity|].
  unfold set_errors; simpl. by rewrite app_nil_r.
Qed.

Lemma run_svtplay_dl_live url out w :
  run_svtplay_dl env url out false w =
  let r := popen env (tick w) (svtplay_dl_cmd url out) in
  (Ret (exit_code r),
   mkWorld (errors w) (series_state w) (seen w) (seen_episodes w) (stats w)
           (trace w ++ [EvPopen (svtplay_dl_cmd url out) r]) (S (tick w))).
Proof. reflexivity. Qed.

Lemma run_svtplay_dl_dry url out w :
  run_svtplay_dl env url out true w = (Ret 0, w).
Proof. reflexivity. Qed.

Lemma download_with_retry_permanent url out dry ef w :
  is_permanent_error (errors w) url = true →
  download_with_retry env url out dry ef w = (Ret false, w).
Proof.
  intros Hp. unfold download_with_retry, get_world, mbind, M_bind.
  simpl. by rewrite Hp.
Qed.

(** The three ways a call on a live (not dry-run) downloader can go. *)
Lemma download_with_retry_live url out ef w :
  is_permanent_error (errors w) url = false →
  let cmd := svtplay_dl_cmd url out in
  let r1 := popen env (tick w) cmd in
  let r2 := popen env (S (tick w)) cmd in
  let w1 := mkWorld (errors w) (series_state w) (seen w) (seen_episodes w)
                    (stats w) (trace w ++ [EvPopen cmd r1]) (S (tick w)) in
  let w2 := mkWorld (errors w) (series_state w) (seen w) (seen_episodes w)
                    (stats w) (trace w1 ++ [EvPopen cmd r2])
                    (S (S (tick w))) in
  download_with_retry env url out false ef w =
  if exit_code r1 =? 0 then (Ret true, (clear_error url ef w1).2)
  else if exit_code r2 =? 0 then (Ret true, (clear_error url ef w2).2)
  else (Ret false, (record_error env url (exit_code r2) ef w2).2).
Proof.
  intros Hp. unfold download_with_retry.
  mstep. unfold get_world. rewrite Hp.
  mstep. rewrite run_svtplay_dl_live. cbv beta iota zeta.
  destruct (exit_code (popen env (tick w) (svtplay_dl_cmd url out)) =? 0).
  - mstep. cbn [trace]. rewrite !clear_error_run. reflexivity.
  - mstep. rewrite run_svtplay_dl_live. cbv beta iota zeta. cbn [tick].
    destruct (exit_code (popen env (S (tick w)) (svtplay_dl_cmd url out))
              =? 0).
    + mstep. cbn [trace]. rewrite !clear_error_run. reflexivity.
    + mstep. cbn [trace]. rewrite !record_error_run. reflexivity.
Qed.

(** Under dry-run every attempt is a success without a process. *)
Lemma download_with_retry_dry url out ef w :
  is_permanent_error (errors w) url = false →
  download_with_retry env url out true ef w
  = (Ret true, (clear_error url ef w).2).
Proof.
  intros Hp. unfold download_with_retry.
  mstep. unfold get_world. rewrite Hp.
  mstep. rewrite run_svtplay_dl_dry. cbv beta iota.
  change (0 =? 0) with true. cbv iota.
  mstep. cbn [trace]. rewrite !clear_error_run. reflexivity.
Qed.

Lemma is_permanent_insert errs url entry :
  is_permanent_error (<[url := entry]> errs) url
  = default false (permanent entry).
Proof. unfold is_permanent_error. by rewrite lookup_insert_eq. Qed.

Lemma fail_count_of_insert errs url entry :
  fail_count_of (<[url := entry]> errs) url = default 0 (fail_count entry).
Proof. unfold fail_count_of. by rewrite lookup_insert_eq. Qed.

Lemma bump_error_permanent errs url rc stamp :
  default false
    (permanent (bump_error (default fresh_error (errs !! url)) rc stamp))
  = (fail_count_of errs url + 1 >? 2) || is_permanent_error errs url.
Proof.
  unfold bump_error, fail_count_of, is_permanent_error. simpl.
  destruct (errs !! url) as [old|]; simpl.
  - by destruct (_ >? 2).
  - reflexivity.
Qed.

Lemma bump_error_fail_count errs url rc stamp :
  fail_count (bump_error (default fresh_error (errs !! url)) rc stamp)
  = Some (fail_count_of errs url + 1).
Proof.
  unfold bump_error, fail_count_of. simpl. by destruct (errs !! url).
Qed.

Lemma bump_error_consistent entry rc stamp :
  entry_consistent entry → entry_consistent (bump_error entry rc stamp).
Proof.
  unfold entry_consistent, bump_error. simpl. intros H.
  destruct (default 0 (fail_count entry) + 1 >? 2) eqn:E; [reflexivity|].
  rewrite H. rewrite Z.gtb_ltb in *. apply Z.ltb_ge in E.
  apply Z.ltb_ge. lia.
Qed.

End ErrorFacts.

(** C1: [record_error] adds exactly one to the failure count of the URL
    (counting from 0 when it has no entry), stamps [last_error] with the
    exit message and [last_failure] with the current time, and raises the
    [permanent] flag exactly when the new count exceeds 2: the flag after
    the call is the old flag or-ed with that test, so for an entry the
    script made itself the URL is permanent if and only if its count
    exceeds 2.  No other URL is touched.  And [download_with_retry] on a URL
    flagged permanent returns [False] at once: the world is unchanged, so
    no process is launched and nothing is written. *)
Theorem record_error_escalates_and_permanent_skips
    (env : Env) (url : string) (return_code : Z) (errors_file out : string)
    (dry_run : bool) (w : World) :
  (let res := record_error env url return_code errors_file w in
   let w' := res.2 in
   res.1 = Ret tt
   ∧ (∃ entry,
        errors w' !! url = Some entry
        ∧ fail_count entry = Some (fail_count_of (errors w) url + 1)
        ∧ last_error entry = Some (exit_message return_code)
        ∧ last_failure entry = Some (isoformat env (clock env (tick w))))
   ∧ is_permanent_error (errors w') url
     = (fail_count_of (errors w) url + 1 >? 2)
       || is_permanent_error (errors w) url
   ∧ ((∀ old, errors w !! url = Some old → entry_consistent old) →
      (is_permanent_error (errors w') url = true
       ↔ fail_count_of (errors w') url > 2))
   ∧ (∀ u, u ≠ url → errors w' !! u = errors w !! u)
   ∧ trace w' = trace w ++ saved errors_file (ErrorsDoc (errors w')))
  ∧ (is_permanent_error (errors w) url = true →
     download_with_retry env url out dry_run errors_file w = (Ret false, w)).
Proof.
  split; [|apply download_with_retry_permanent].
  rewrite record_error_run. cbv zeta. cbn [fst snd errors trace].
  split; [reflexivity|]. split; [|split; [|split; [|split]]].
  - eexists. rewrite lookup_insert_eq. split; [reflexivity|].
    rewrite bump_error_fail_count. by cbn.
  - rewrite is_permanent_insert. apply bump_error_permanent.
  - intros Hold.
    rewrite is_permanent_insert, fail_count_of_insert.
    assert (Hc : entry_consistent (default fresh_error (errors w !! url))).
    { destruct (errors w !! url) as [old|] eqn:E; [by apply Hold|].
      reflexivity. }
    apply (bump_error_consistent _ return_code
             (isoformat env (clock env (tick w)))) in Hc.
    unfold entry_consistent in Hc. rewrite Hc.
    rewrite Z.gtb_ltb, Z.ltb_lt. lia.
  - intros u Hu. by rewrite lookup_insert_ne.
  - reflexivity.
Qed.


(** The third failure of [u] makes it permanent, and a permanent [u] is
    skipped without a launch. *)
Lemma record_error_escalates_witness :
  is_permanent_error
    (errors (record_error failing_env "u" 1 "errors.json" world_two).2) "u"
  = true
  ∧ download_with_retry failing_env "u" "out" false "errors.json"
      world_permanent
    = (Ret false, world_permanent).
Proof.
  pose proof (record_error_escalates_and_permanent_skips
                failing_env "u" 1 "errors.json" "out" false world_two)
    as [(_ & _ & _ & Hiff & _) _].
  pose proof (record_error_escalates_and_permanent_skips
                failing_env "u" 1 "errors.json" "out" false world_permanent)
    as [_ Hskip].
  split.
  - apply Hiff.
    + intros old Hold. vm_compute in Hold. injection Hold as <-.
      reflexivity.
    + vm_compute. reflexivity.
  - apply Hskip. vm_compute. reflexivity.
Defined.

(** C2: on a URL that is not flagged permanent, with a live downloader,
    [download_with_retry] launches the downloader once and, only when that
    attempt exits nonzero, exactly once more.  A zero exit at either attempt
    returns [True] and removes the entry of the URL from the error store
    (rewriting the file if there was one).  Two nonzero exits return [False]
    and add exactly one to the failure count of the URL.  Nothing but the
    error store, the trace and the interaction count changes.  (In a dry
    run the single attempt starts no process and counts as a zero exit.) *)
Theorem download_with_retry_two_attempts
    (env : Env) (url out errors_file : string) (w : World) :
  is_permanent_error (errors w) url = false →
  let cmd := svtplay_dl_cmd url out in
  let r1 := popen env (tick w) cmd in
  let r2 := popen env (S (tick w)) cmd in
  let res := download_with_retry env url out false errors_file w in
  let w' := res.2 in
  let rewritten :=
    if bool_decide (is_Some (errors w !! url))
    then saved errors_file (ErrorsDoc (errors w')) else [] in
  (series_state w', seen w', seen_episodes w', stats w')
  = (series_state w, seen w, seen_episodes w, stats w)
  ∧ (exit_code r1 = 0 →
     res.1 = Ret true
     ∧ errors w' = delete url (errors w)
     ∧ trace w' = trace w ++ [EvPopen cmd r1] ++ rewritten)
  ∧ (exit_code r1 ≠ 0 → exit_code r2 = 0 →
     res.1 = Ret true
     ∧ errors w' = delete url (errors w)
     ∧ trace w' = trace w ++ [EvPopen cmd r1; EvPopen cmd r2] ++ rewritten)
  ∧ (exit_code r1 ≠ 0 → exit_code r2 ≠ 0 →
     res.1 = Ret false
     ∧ fail_count_of (errors w') url = fail_count_of (errors w) url + 1
     ∧ (∀ u, u ≠ url → errors w' !! u = errors w !! u)
     ∧ trace w' = trace w ++ [EvPopen cmd r1; EvPopen cmd r2]
                  ++ saved errors_file (ErrorsDoc (errors w')))
  ∧ (let dry := download_with_retry env url out true errors_file w in
     dry.1 = Ret true
     ∧ errors dry.2 = delete url (errors w)
     ∧ launches (trace dry.2) = launches (trace w)).
Proof.
  intros Hp cmd r1 r2 res w' rewritten.
  subst res w' rewritten.
  match goal with
  | |- ?A ∧ ?B ∧ ?C ∧ ?D ∧ ?E =>
      assert (Hdry : E); [|cut (A ∧ B ∧ C ∧ D); [tauto|]]
  end.
  { cbv zeta. rewrite (download_with_retry_dry env url out errors_file w Hp),
      clear_error_run. cbn [fst snd].
    case_bool_decide as Hsome; cbn [errors trace].
    - split; [reflexivity|]. split; [reflexivity|].
      unfold launches, saved. rewrite List.filter_app.
      destruct (str_truthy errors_file); cbn; by rewrite app_nil_r.
    - split; [reflexivity|]. split; [|reflexivity].
      symmetry. apply delete_id. by apply eq_None_not_Some. }
  clear Hdry.
  rewrite (download_with_retry_live env url out errors_file w Hp).
  cbv zeta. fold cmd r1 r2.
  rewrite !clear_error_run, record_error_run. cbv zeta.
  cbn [errors trace tick series_state seen seen_episodes stats].
  destruct (Z.eqb_spec (exit_code r1) 0) as [E1|E1];
    [|destruct (Z.eqb_spec (exit_code r2) 0) as [E2|E2]];
    cbn [fst snd]; (split; [|split; [|split]]); try (intros; congruence).
  - by case_bool_decide.
  - intros _. case_bool_decide; cbn [errors trace].
    + by rewrite <- app_assoc.
    + split; [reflexivity|]. split; [|by rewrite app_nil_r].
      symmetry. apply delete_id. by apply eq_None_not_Some.
  - by case_bool_decide.
  - intros _ _. case_bool_decide; cbn [errors trace].
    + by rewrite <- !app_assoc.
    + split; [reflexivity|]. split; [|by rewrite <- app_assoc, app_nil_r].
      symmetry. apply delete_id. by apply eq_None_not_Some.
  - reflexivity.
  - intros _ _. cbn [errors trace]. split; [reflexivity|]. split; [|split].
    + rewrite fail_count_of_insert, bump_error_fail_count. reflexivity.
    + intros u Hu. by rewrite lookup_insert_ne.
    + by rewrite <- !app_assoc.
Qed.

(** Two failed attempts on a URL that failed twice before: one more failure
    is counted, not two. *)
Lemma download_with_retry_two_attempts_witness :
  is_permanent_error (errors world_two) "u" = false
  ∧ fail_count_of
      (errors (download_with_retry failing_env "u" "out" false "errors.json"
                 world_two).2) "u"
    = 3.
Proof.
  split; [reflexivity|].
  pose proof (download_with_retry_two_attempts failing_env "u" "out"
                "errors.json" world_two eq_refl) as (_ & _ & _ & H & _).
  destruct H as (_ & Hfc & _); [discriminate | discriminate |].
  rewrite Hfc. reflexivity.
Defined.

(** ** Series accounting and stale detection *)

Section SeriesFacts.
Variable env : Env.

Lemma update_series_state_run show_url found_new show_name state_file w :
  update_series_state env show_url found_new show_name state_file w =
  let st' :=
    <[show_url := updated_entry (series_state w) show_url found_new
                    show_name (isoformat env (clock env (tick w)))]>
      (series_state w) in
  (Ret tt,
   mkWorld (errors w) st' (seen w) (seen_episodes w) (stats w)
           (trace w ++ saved state_file (SeriesDoc st'))
           (if found_new then S (tick w) else tick w)).
Proof.
  unfold update_series_state, updated_entry, save_json_state, saved, now,
    ask, emit, modify, get_world, skip, mbind, M_bind, mret, M_ret.
  destruct found_new; simpl; destruct (str_truthy state_file); simpl;
    unfold set_series_state; simpl; rewrite ?app_nil_r; reflexivity.
Qed.

Lemma stale_entry_comparable now_t stale_days url entry :
  ¬ aware_stamp env entry →
  stale_entry env now_t stale_days url entry =
  Ret (if (2 <=? default 0 (check_count entry))
          && (stale_days <=? elapsed_days env now_t entry)
       then Some (url, default url (name entry),
                  elapsed_days env now_t entry,
                  default 0 (check_count entry))
       else None).
Proof.
  intros Hn. unfold stale_entry, elapsed_days.
  rewrite (Z.leb_antisym _ 2).
  destruct (default 0 (check_count entry) <? 2) eqn:Ec; [reflexivity|].
  apply Z.ltb_ge in Ec. cbn [negb andb].
  assert (G : ∀ d : Z,
    (Ret d ≫= λ days : Z,
       if days >=? stale_days
       then Ret (Some (url, default url (name entry), days,
                       default 0 (check_count entry)))
       else Ret None)
    = Ret (if stale_days <=? d
           then Some (url, default url (name entry), d,
                      default 0 (check_count entry))
           else None)).
  { intros d. unfold mbind, outcome_bind, obind.
    rewrite Z.geb_leb. by destruct (stale_days <=? d). }
  destruct (last_new_episode_date entry) as [raw|] eqn:E; [|apply G].
  destruct (str_truthy raw) eqn:Et; [|apply G].
  destruct (fromisoformat env raw) eqn:Ef; [apply G | | apply G].
  destruct Hn. split; [lia|]. by exists raw.
Qed.

(** Without an entry it cannot handle the generator runs to its end, and
    it yields an item exactly when its entry passes both tests. *)
Lemma stale_items_comparable now_t stale_days items :
  (∀ url entry, (url, entry) ∈ items → ¬ aware_stamp env entry) →
  ∃ l, stale_items env now_t stale_days items = Ret l
       ∧ (∀ u n d c, (u, n, d, c) ∈ l ↔
            ∃ entry, (u, entry) ∈ items
                     ∧ c = default 0 (check_count entry)
                     ∧ 2 ≤ c
                     ∧ d = elapsed_days env now_t entry
                     ∧ stale_days ≤ d
                     ∧ n = default u (name entry))
       ∧ (NoDup items.*1 → NoDup (stale_url <$> l)).
Proof.
  induction items as [|[url entry] rest IH]; intros Hn.
  - exists []. split; [reflexivity|]. split; [|constructor].
    intros u n d c. split; [by intros ?%elem_of_nil|].
    by intros (e & ?%elem_of_nil & _).
  - destruct IH as (l & El & Hl & Hd).
    { intros u e Hin. apply (Hn u e). by right. }
    cbn [stale_items]. rewrite stale_entry_comparable, El;
      [|apply (Hn url entry); by left].
    unfold mbind, outcome_bind, obind.
    destruct (2 <=? default 0 (check_count entry)) eqn:E2;
      [destruct (stale_days <=? elapsed_days env now_t entry) eqn:E3|];
      cbn [andb]; eexists; (split; [reflexivity|]).
    + apply Z.leb_le in E2, E3. split.
      * intros u n d c. rewrite elem_of_cons, Hl. split.
        -- intros [[= -> -> -> ->]|(e & Hin & H)].
           ++ exists entry. by rewrite elem_of_cons; auto 10.
           ++ exists e. rewrite elem_of_cons. auto.
        -- intros (e & [[= -> ->]|Hin]%elem_of_cons & -> & ? & -> & ? & ->).
           ++ by left.
           ++ right. exists e. auto 10.
      * cbn. intros [Hnot Hnd]%NoDup_cons. apply NoDup_cons. split; [|auto].
        unfold stale_url at 1. cbn. intros Hin. apply Hnot.
        apply list_elem_of_fmap in Hin as ([[[u n] d] c] & -> & Hin).
        apply Hl in Hin as (e & Hin & _).
        apply list_elem_of_fmap. by exists (u, e).
    + apply Z.leb_gt in E3. split.
      * intros u n d c. rewrite Hl. split.
        -- intros (e & Hin & H). exists e. rewrite elem_of_cons. auto.
        -- intros (e & [[= -> ->]|Hin]%elem_of_cons & -> & ? & -> & ? & ->);
             [lia|]. exists e. auto 10.
      * cbn. intros [_ Hnd]%NoDup_cons. auto.
    + apply Z.leb_gt in E2. split.
      * intros u n d c. rewrite Hl. split.
        -- intros (e & Hin & H). exists e. rewrite elem_of_cons. auto.
        -- intros (e & [[= -> ->]|Hin]%elem_of_cons & -> & ? & -> & ? & ->);
             [lia|]. exists e. auto 10.
      * cbn. intros [_ Hnd]%NoDup_cons. auto.
Qed.

End SeriesFacts.

(** C7: [update_series_state] with [found_new] true stores check count 0
    and stamps [last_new_episode_date] with the current time; with
    [found_new] false it stores the old check count plus one (counting from
    0 for a new series) and keeps [last_new_episode_date].  In both cases a
    non-empty given name is stored, and an empty one falls back to the name
    stored before.  A check count that was not negative stays so.  No other
    series is touched and the state is saved once. *)
Theorem update_series_state_counts
    (env : Env) (show_url : string) (found_new : bool)
    (show_name state_file : string) (w : World) :
  let res := update_series_state env show_url found_new show_name
               state_file w in
  let w' := res.2 in
  res.1 = Ret tt
  ∧ (∃ entry,
       series_state w' !! show_url = Some entry
       ∧ (found_new = true →
          check_count entry = Some 0
          ∧ last_new_episode_date entry
            = Some (isoformat env (clock env (tick w))))
       ∧ (found_new = false →
          check_count entry
          = Some (check_count_of (series_state w) show_url + 1)
          ∧ last_new_episode_date entry
            = last_date_of (series_state w) show_url)
       ∧ (str_truthy show_name = true → name entry = Some show_name)
       ∧ (str_truthy show_name = false →
          ∀ old n, series_state w !! show_url = Some old →
                   name old = Some n → name entry = Some n)
       ∧ (0 ≤ check_count_of (series_state w) show_url →
          ∃ c, check_count entry = Some c ∧ 0 ≤ c))
  ∧ (∀ u, u ≠ show_url → series_state w' !! u = series_state w !! u)
  ∧ trace w' = trace w ++ saved state_file (SeriesDoc (series_state w')).
Proof.
  rewrite update_series_state_run. cbv zeta.
  cbn [fst snd series_state trace].
  split; [reflexivity|]. split; [|split].
  - eexists. rewrite lookup_insert_eq. split; [reflexivity|].
    unfold updated_entry, check_count_of, last_date_of.
    destruct (series_state w !! show_url) as [old|] eqn:E; simpl;
      destruct found_new; simpl;
      repeat split; try done; try (intros ->; done);
      try (intros Hf old' n [= <-] Hn; by rewrite Hf, Hn);
      try (intros ?; eexists; split; [reflexivity|lia]).
  - intros u Hu. by rewrite lookup_insert_ne.
  - reflexivity.
Qed.

(** A second check of [s] without news, with no name given. *)
Lemma update_series_state_counts_witness :
  series_state
    (update_series_state failing_env "s" false nil_str "series_state.json"
       (init_world ∅ ∅ series_once ∅)).2 !! "s"
  = Some (mkSeriesEntry (Some "Show") (Some 2) None).
Proof.
  pose proof (update_series_state_counts failing_env "s" false nil_str
                "series_state.json" (init_world ∅ ∅ series_once ∅))
    as (_ & (entry & -> & _ & Hcc & _ & Hname & _) & _).
  destruct (Hcc eq_refl) as [Hc Hd].
  specialize (Hname eq_refl _ "Show" eq_refl eq_refl).
  destruct entry as [n c d]. cbn in *. by subst.
Defined.

(** C10: the first call of [update_series_state] for a series without
    entry, with [found_new] false, stores check count 1 and no date, and the
    entry does not pass the check-count test of [find_stale_series]; after a
    second such call the count is 2 and the entry is yielded, with 9999
    days, for every threshold up to 9999, although the series never had a
    new episode recorded. *)
Theorem first_check_counts_one
    (env : Env) (show_url show_name state_file : string) (w : World)
    (now_t stale_days : Z) :
  series_state w !! show_url = None →
  let w1 := (update_series_state env show_url false show_name state_file
               w).2 in
  let w2 := (update_series_state env show_url false show_name state_file
               w1).2 in
  (∃ entry1,
     series_state w1 !! show_url = Some entry1
     ∧ check_count entry1 = Some 1
     ∧ last_new_episode_date entry1 = None
     ∧ stale_entry env now_t stale_days show_url entry1 = Ret None)
  ∧ (∃ entry2,
       series_state w2 !! show_url = Some entry2
       ∧ check_count entry2 = Some 2
       ∧ last_new_episode_date entry2 = None
       ∧ (stale_days ≤ 9999 →
          stale_entry env now_t stale_days show_url entry2
          = Ret (Some (show_url, default show_url (name entry2), 9999, 2)))).
Proof.
  intros Hnone w1 w2. subst w1 w2.
  rewrite !update_series_state_run. cbv zeta.
  cbn [fst snd series_state tick].
  split.
  - eexists. rewrite lookup_insert_eq. split; [reflexivity|].
    unfold updated_entry. rewrite Hnone. by simpl.
  - eexists. rewrite lookup_insert_eq. split; [reflexivity|].
    unfold updated_entry. rewrite !lookup_insert_eq, Hnone. simpl.
    repeat split. intros Hle.
    unfold stale_entry. simpl.
    destruct (Z.geb_spec 9999 stale_days); [reflexivity | lia].
Qed.

(** With the default threshold of 365 days, a series first met two runs ago
    is reported after its second run without news. *)
Lemma first_check_counts_one_witness :
  series_state empty_world !! "s" = None
  ∧ ∃ entry2,
      series_state
        (update_series_state failing_env "s" false "Show" "st.json"
           (update_series_state failing_env "s" false "Show" "st.json"
              empty_world).2).2 !! "s" = Some entry2
      ∧ stale_entry failing_env 0 365 "s" entry2
        = Ret (Some ("s", default "s" (name entry2), 9999, 2)).
Proof.
  split; [reflexivity|].
  pose proof (first_check_counts_one failing_env "s" "Show" "st.json"
                empty_world 0 365 eq_refl) as (_ & entry2 & H1 & _ & _ & H4).
  exists entry2. split; [exact H1|]. apply H4. lia.
Defined.

(** C5: when no entry with a check count of at least 2 carries a
    non-empty timezone-aware time stamp, stale detection runs to its end
    and yields, once each, exactly the entries of the series state whose
    check count is at least 2 and whose elapsed days since
    [last_new_episode_date] reach the threshold, an absent, empty or
    unparseable stamp counting as 9999 days; and the stale report is what
    was yielded without the series whose URL is in the seen set. *)
Theorem stale_detection_exact (env : Env) (args : Args) (w : World) :
  comparable_stamps env (series_state w) →
  ∃ yielded report,
    find_stale_series env (series_state w) (arg_stale_days args) w
    = (Ret yielded, set_tick S w)
    ∧ stale_report env args w = (Ret report, set_tick S w)
    ∧ (∀ u n d c, (u, n, d, c) ∈ yielded ↔
         ∃ entry, series_state w !! u = Some entry
                  ∧ c = default 0 (check_count entry)
                  ∧ 2 ≤ c
                  ∧ d = elapsed_days env (clock env (tick w)) entry
                  ∧ arg_stale_days args ≤ d
                  ∧ n = default u (name entry))
    ∧ NoDup (stale_url <$> yielded)
    ∧ (∀ x, x ∈ report ↔ x ∈ yielded ∧ stale_url x ∉ seen w).
Proof.
  intros Hn.
  destruct (stale_items_comparable env (clock env (tick w))
              (arg_stale_days args) (map_to_list (series_state w)))
    as (l & El & Hl & Hd).
  { intros u e Hin. apply (Hn u e). by apply elem_of_map_to_list. }
  assert (Hrun : find_stale_series env (series_state w) (arg_stale_days args) w
                 = (Ret l, set_tick S w)).
  { unfold find_stale_series, now, ask, lift, mbind, M_bind, mret, M_ret.
    cbn. by rewrite El. }
  exists l, (filter (fun x => stale_url x ∉ seen w) l).
  split; [exact Hrun|]. split; [|split; [|split]].
  - unfold stale_report. mstep. unfold get_world. mstep. rewrite Hrun.
    reflexivity.
  - intros u n d c. rewrite Hl. split.
    + intros (e & Hin%elem_of_map_to_list & H). by exists e.
    + intros (e & Hin & H). exists e. by rewrite elem_of_map_to_list.
  - apply Hd, NoDup_fst_map_to_list.
  - intros x. rewrite list_elem_of_filter. tauto.
Qed.

(** The old series is reported as long as it is not in the seen set. *)
Lemma stale_detection_exact_witness :
  comparable_stamps failing_env (series_state (init_world ∅ ∅ series_old ∅))
  ∧ ∃ report,
      (stale_report failing_env args_default
         (init_world ∅ ∅ series_old ∅)).1 = Ret report
      ∧ ("s", "Show", 400, 2) ∈ report.
Proof.
  assert (Hn : comparable_stamps failing_env
                 (series_state (init_world ∅ ∅ series_old ∅))).
  { intros u e Hu (_ & raw & Hraw & _ & Haware). cbn in Hu.
    unfold series_old in Hu.
    apply lookup_singleton_Some in Hu as [_ <-]. cbn in Hraw.
    injection Hraw as <-. discriminate. }
  split; [exact Hn|].
  destruct (stale_detection_exact failing_env args_default _ Hn)
    as (y & r & _ & Hr & Hy & _ & Hrep).
  exists r. split; [by rewrite Hr|].
  apply Hrep. split.
  - apply Hy. eexists. split; [apply lookup_singleton_eq|].
    repeat split; vm_compute; congruence.
  - cbn. set_solver.
Defined.

(** The claim fails on a stamp with a UTC offset: the series was checked
    twice and its last new episode is 400 days old, so for the threshold of
    365 days it should be yielded; instead the subtraction raises
    [TypeError], nothing is yielded and there is no report. *)
Lemma stale_detection_fails_on_aware_stamp :
  series_aware !! "s"
  = Some (mkSeriesEntry (Some "Show") (Some 2)
            (Some "2024-01-01T00:00:00+00:00"))
  ∧ fromisoformat offset_env "2024-01-01T00:00:00+00:00" = IsoAware
  ∧ (find_stale_series offset_env series_aware 365
       (init_world ∅ ∅ series_aware ∅)).1 = Exn TypeError
  ∧ (stale_report offset_env args_default
       (init_world ∅ ∅ series_aware ∅)).1 = Exn TypeError.
Proof. repeat split; vm_compute; reflexivity. Qed.

(** ** Episode discovery *)

Section DiscoverFacts.
Variable env : Env.

Lemma playable_url_sound x o :
  playable_url env x = Ret o → o = resolved_url env x.
Proof.
  unfold playable_url, resolved_url.
  destruct (_safe_get x ["item"; "urls"; "svtplay"]) as [|b|n|nz|p|l|kvs];
    cbn; repeat case_match; congruence.
Qed.

Lemma playable_url_total x :
  item_well_formed x → playable_url env x = Ret (resolved_url env x).
Proof.
  unfold item_well_formed, playable_url, resolved_url.
  intros [Hf|[p ->]].
  - rewrite Hf.
    destruct (_safe_get x ["item"; "urls"; "svtplay"]); try reflexivity.
    cbn in Hf. by rewrite Hf.
  - cbn. by destruct (str_truthy p).
Qed.

Lemma collect_items_sound items videos l :
  collect_items env items videos = Ret l →
  l = fold_left append_new (omap (resolved_url env) items) videos.
Proof.
  revert videos. induction items as [|x items IH]; intros videos; cbn.
  - congruence.
  - destruct (playable_url env x) as [o|e] eqn:E; cbn; [|discriminate].
    apply playable_url_sound in E as ->.
    destruct (resolved_url env x); cbn; apply IH.
Qed.

Lemma collect_items_total items videos :
  Forall item_well_formed items →
  collect_items env items videos
  = Ret (fold_left append_new (omap (resolved_url env) items) videos).
Proof.
  intros H. revert videos.
  induction H as [|x items Hx _ IH]; intros videos; cbn; [reflexivity|].
  rewrite (playable_url_total x Hx). cbn.
  destruct (resolved_url env x); cbn; apply IH.
Qed.

(** Iterating over the keys of a dict or the characters of a string adds
    nothing: a string has no playable path. *)
Lemma collect_items_strings (ss : list string) videos :
  collect_items env (map JStr ss) videos = Ret videos.
Proof. induction ss as [|s ss IH]; cbn; [reflexivity | exact IH]. Qed.

Lemma module_skipped_spec mod_id :
  module_skipped mod_id = skipped_id mod_id.
Proof.
  unfold module_skipped, skipped_id, startswith.
  destruct (String.eqb_spec mod_id "upcoming") as [->|H1]; [reflexivity|].
  destruct (String.eqb_spec mod_id "related") as [->|H2]; [reflexivity|].
  rewrite bool_decide_eq_false_2; [reflexivity | tauto].
Qed.

Lemma append_new_absent acc x :
  x ∉ acc → append_new acc x = acc ++ [x].
Proof. intros H. unfold append_new. by rewrite bool_decide_eq_false_2. Qed.

Lemma append_new_present acc x : x ∈ acc → append_new acc x = acc.
Proof. intros H. unfold append_new. by rewrite bool_decide_eq_true_2. Qed.

(** The accumulating loop computes first-occurrence deduplication. *)
Lemma fold_append_new urls acc :
  fold_left append_new urls acc
  = acc ++ filter (fun y => y ∉ acc) (dedup_first urls).
Proof.
  revert acc.
  induction urls as [|x urls IH]; intros acc; cbn [fold_left dedup_first].
  - by rewrite filter_nil, app_nil_r.
  - rewrite IH. destruct (decide (x ∈ acc)) as [Hin|Hnin].
    + rewrite (append_new_present _ _ Hin).
      rewrite filter_cons_False by tauto.
      rewrite list_filter_filter. f_equal.
      apply list_filter_iff. intros y. split; [|tauto].
      intros Hy. split; [exact Hy|]. by intros ->.
    + rewrite (append_new_absent _ _ Hnin).
      rewrite filter_cons_True by exact Hnin.
      rewrite <- app_assoc. cbn. do 2 f_equal.
      rewrite list_filter_filter.
      apply list_filter_iff. intros y.
      rewrite not_elem_of_app, list_elem_of_singleton. tauto.
Qed.

Lemma dedup_first_elem x l : x ∈ dedup_first l ↔ x ∈ l.
Proof.
  induction l as [|a l IH]; cbn; [reflexivity|].
  rewrite !elem_of_cons, list_elem_of_filter, IH.
  destruct (decide (x = a)); tauto.
Qed.

Lemma dedup_first_NoDup l : NoDup (dedup_first l).
Proof.
  induction l as [|a l IH]; cbn; [constructor|].
  apply NoDup_cons. split.
  - rewrite list_elem_of_filter. tauto.
  - by apply NoDup_filter.
Qed.

Lemma urls_of_modules_skipped m modules :
  skipped_id (module_id m) = true →
  urls_of_modules env (m :: modules) = urls_of_modules env modules.
Proof.
  intros H. unfold urls_of_modules.
  rewrite filter_cons_False; [reflexivity | congruence].
Qed.

Lemma urls_of_modules_kept m modules :
  skipped_id (module_id m) = false →
  urls_of_modules env (m :: modules)
  = omap (resolved_url env) (selection_items m) ++ urls_of_modules env modules.
Proof.
  intros H. unfold urls_of_modules.
  rewrite filter_cons_True; [reflexivity | exact H].
Qed.

Lemma module_id_get kvs mod_id :
  dict_get_default kvs "id" (JStr nil_str) = JStr mod_id →
  module_id (JObj kvs) = mod_id.
Proof.
  unfold dict_get_default, module_id.
  destruct (dict_lookup kvs "id") as [v|]; cbn; [intros ->|]; congruence.
Qed.

Lemma selection_items_falsy kvs :
  truthy (dict_get kvs "selection") = false →
  selection_items (JObj kvs) = [].
Proof.
  unfold selection_items. cbn.
  destruct (dict_get kvs "selection") as [|b|n|nz|p|l|s]; try reflexivity.
  destruct s; [reflexivity | discriminate].
Qed.

Lemma selection_items_get kvs s :
  dict_get kvs "selection" = JObj s →
  selection_items (JObj kvs)
  = match dict_get_default s "items" (JArr []) with
    | JArr items => items
    | _ => []
    end.
Proof.
  unfold selection_items. cbn. intros ->.
  unfold dict_get, dict_get_default.
  by destruct (dict_lookup s "items").
Qed.

(** One module of the loop, when it is not skipped and has a selection. *)
Lemma collect_selection_sound s videos l :
  (py_iter (dict_get_default s "items" (JArr []))
     ≫= λ items, collect_items env items videos) = Ret l →
  l = fold_left append_new
        (omap (resolved_url env)
              match dict_get_default s "items" (JArr []) with
              | JArr items => items
              | _ => []
              end) videos.
Proof.
  destruct (dict_get_default s "items" (JArr [])) as [|b|n|nz|p|items|kvs];
    cbn; try discriminate.
  - rewrite collect_items_strings. congruence.
  - apply collect_items_sound.
  - rewrite <- (map_map fst JStr), collect_items_strings. congruence.
Qed.

Lemma collect_modules_sound modules videos l :
  collect_modules env modules videos = Ret l →
  l = fold_left append_new (urls_of_modules env modules) videos.
Proof.
  revert videos. induction modules as [|m modules IH]; intros videos.
  - cbn. congruence.
  - cbn [collect_modules]. destruct m as [|b|n|nz|p|ms|kvs];
      try (cbn; discriminate).
    cbn [as_dict]. unfold mbind at 1, outcome_bind at 1, obind at 1.
    destruct (dict_get_default kvs "id" (JStr nil_str))
      as [|b|n|nz|mod_id|ms|o] eqn:Eid; try discriminate.
    apply module_id_get in Eid. rewrite module_skipped_spec, <- Eid.
    destruct (skipped_id (module_id (JObj kvs))) eqn:Esk.
    { rewrite (urls_of_modules_skipped _ _ Esk). apply IH. }
    rewrite (urls_of_modules_kept _ _ Esk), fold_left_app.
    destruct (truthy (dict_get kvs "selection")) eqn:Et; cbn [negb].
    2:{ rewrite (selection_items_falsy _ Et). apply IH. }
    destruct (dict_get kvs "selection") as [|b|n|nz|p|ms|s] eqn:Es;
      try (cbn; discriminate).
    cbn [as_dict]. unfold mbind at 1, outcome_bind at 1, obind at 1.
    rewrite (selection_items_get _ _ Es).
    destruct (py_iter (dict_get_default s "items" (JArr []))
                ≫= λ items, collect_items env items videos)
      as [videos'|e] eqn:Ec.
    + rewrite <- (collect_selection_sound _ _ _ Ec).
      unfold mbind, outcome_bind, obind in *.
      destruct (py_iter (dict_get_default s "items" (JArr [])));
        [|discriminate].
      rewrite Ec. apply IH.
    + unfold mbind, outcome_bind, obind in *.
      destruct (py_iter (dict_get_default s "items" (JArr [])));
        [rewrite Ec|]; discriminate.
Qed.

Lemma collect_modules_total modules videos :
  Forall module_well_formed modules →
  collect_modules env modules videos
  = Ret (fold_left append_new (urls_of_modules env modules) videos).
Proof.
  intros H. revert videos.
  induction H as [|m modules Hm _ IH]; intros videos; [reflexivity|].
  destruct Hm as (kvs & -> & [mod_id Eid] & Hsel).
  cbn [collect_modules as_dict].
  unfold mbind at 1, outcome_bind at 1, obind at 1. rewrite Eid.
  apply module_id_get in Eid. rewrite module_skipped_spec, <- Eid.
  destruct (skipped_id (module_id (JObj kvs))) eqn:Esk.
  { rewrite (urls_of_modules_skipped _ _ Esk). apply IH. }
  rewrite (urls_of_modules_kept _ _ Esk), fold_left_app.
  destruct (truthy (dict_get kvs "selection")) eqn:Et; cbn [negb].
  2:{ rewrite (selection_items_falsy _ Et). apply IH. }
  destruct Hsel as [?|[?|(s & items & Es & Ei & Hitems)]]; try congruence.
  rewrite (selection_items_get _ _ Es), Es, Ei. cbn [as_dict py_iter].
  unfold mbind, outcome_bind, obind. rewrite Ei. cbn [py_iter].
  rewrite (collect_items_total _ _ Hitems). apply IH.
Qed.

Lemma details_in_items_truthy want items d :
  details_in_items want items = Some d → truthy d = true.
Proof.
  induction items as [|[key data] rest IH]; cbn; [discriminate|].
  destruct (String.eqb key "detailsPageByPath"); cbn; [|exact IH].
  destruct data as [|b|n|nz|p|l|kvs]; try exact IH.
  case_bool_decide as Hs; [|exact IH].
  intros [= <-]. destruct kvs; [|reflexivity].
  cbn in Hs. by destruct Hs.
Qed.

Lemma find_details_pass_truthy want raw d :
  find_details_pass env want raw = Ret (Some d) → truthy d = true.
Proof.
  induction raw as [|e raw IH]; cbn; [discriminate|].
  destruct (urql_entry env e) as [[entry|]|x]; cbn;
    [|exact IH|discriminate].
  destruct (as_dict entry) as [items|x]; cbn; [|discriminate].
  destruct (details_in_items want items) as [d'|] eqn:E; [|exact IH].
  intros [= <-]. by apply details_in_items_truthy in E.
Qed.

(** What [_find_details] returns is a non-empty dict. *)
Lemma find_details_truthy page_json d :
  _find_details env page_json = Ret (Some d) → truthy d = true.
Proof.
  unfold _find_details.
  destruct (urql_values page_json) as [raw|x]; cbn; [|discriminate].
  destruct (find_details_pass env "smartStart" raw) as [[d'|]|x] eqn:E;
    cbn; [| |discriminate].
  - intros [= <-]. by apply find_details_pass_truthy in E.
  - apply find_details_pass_truthy.
Qed.

End DiscoverFacts.

Section DiscoverSpec.
Variable env : Env.

Lemma is_Single_spec x : is_Single x = true ↔ x = JStr "Single".
Proof.
  destruct x as [|b|n|nz|s|l|kvs]; cbn; try (split; congruence).
  destruct (String.eqb_spec s "Single"); split; congruence.
Qed.

Lemma episodes_spec_fold details :
  fold_left append_new (urls_of_modules env (modules_of details)) []
  = episodes_spec env details.
Proof.
  rewrite fold_append_new. cbn [app]. unfold episodes_spec, listed_urls.
  induction (dedup_first (urls_of_modules env (modules_of details)))
    as [|x l IH]; [reflexivity|].
  rewrite filter_cons_True by apply not_elem_of_nil. by rewrite IH.
Qed.

(** The series branch of [discover_in_details]. *)
Lemma discover_series_sound details l :
  is_Single (_safe_get details ["item"; "parent"; "__typename"]) = false →
  discover_in_details env details = Ret l →
  l = episodes_spec env details.
Proof.
  intros Hs. unfold discover_in_details. rewrite Hs.
  destruct details as [|b|n|nz|s|ms|d]; try (cbn; discriminate).
  cbn [as_dict]. unfold mbind at 1, outcome_bind at 1, obind at 1.
  rewrite <- episodes_spec_fold. unfold modules_of.
  destruct (dict_get_default d "modules" (JArr []))
    as [|b|n|nz|s|modules|kvs]; cbn; try discriminate.
  - destruct s; cbn; [congruence | discriminate].
  - apply collect_modules_sound.
  - destruct kvs; cbn; [congruence | discriminate].
Qed.

Lemma discover_series_total details :
  is_Single (_safe_get details ["item"; "parent"; "__typename"]) = false →
  details_well_formed details →
  discover_in_details env details = Ret (episodes_spec env details).
Proof.
  intros Hs (d & modules & -> & Em & Hm).
  unfold discover_in_details. rewrite Hs. cbn [as_dict].
  unfold mbind, outcome_bind, obind. rewrite Em. cbn [py_iter].
  rewrite (collect_modules_total env _ _ Hm), <- episodes_spec_fold.
  unfold modules_of. by rewrite Em.
Qed.

Lemma discover_single details :
  is_Single (_safe_get details ["item"; "parent"; "__typename"]) = true →
  (∀ p, _safe_get details ["item"; "urls"; "svtplay"] = JStr p →
        str_truthy p = true →
        discover_in_details env details = Ret [urljoin env base_url p])
  ∧ (truthy (_safe_get details ["item"; "urls"; "svtplay"]) = false →
     discover_in_details env details = Ret []).
Proof.
  intros Hs. unfold discover_in_details, playable_url. rewrite Hs. split.
  - intros p -> Hp. cbn. by rewrite Hp.
  - intros ->. reflexivity.
Qed.

Lemma discover_episode_urls_details html page_json details :
  extract_page_json env html = Some page_json →
  truthy page_json = true →
  _find_details env page_json = Ret (Some details) →
  discover_episode_urls env html = discover_in_details env details.
Proof.
  intros Hx Ht Hf. unfold discover_episode_urls. rewrite Hx, Ht, Hf.
  cbn. by rewrite (find_details_truthy env _ _ Hf).
Qed.

End DiscoverSpec.

(** C6: for a detail page whose details object is [details]: if the parent
    type is [Single], discovery returns the one-element list of the item's
    own playable URL resolved against the site base URL, and the empty list
    when that URL is absent; otherwise whatever it returns is the list of
    resolved playable URLs of the selection items of the modules that are
    not skipped (id [upcoming] or [related], starting with [details],
    containing [clips]), taken in order, duplicates removed, first-seen
    order; and on a well-formed details object it does return. *)
Theorem discover_episode_urls_spec
    (env : Env) (html : string) (page_json details : json) :
  extract_page_json env html = Some page_json →
  truthy page_json = true →
  _find_details env page_json = Ret (Some details) →
  let parent_type := _safe_get details ["item"; "parent"; "__typename"] in
  let path := _safe_get details ["item"; "urls"; "svtplay"] in
  (parent_type = JStr "Single" →
   (∀ p, path = JStr p → str_truthy p = true →
         discover_episode_urls env html = Ret [urljoin env base_url p])
   ∧ (truthy path = false → discover_episode_urls env html = Ret []))
  ∧ (parent_type ≠ JStr "Single" →
     (∀ l, discover_episode_urls env html = Ret l →
           l = episodes_spec env details)
     ∧ (details_well_formed details →
        discover_episode_urls env html = Ret (episodes_spec env details))
     ∧ NoDup (episodes_spec env details)
     ∧ (∀ u, u ∈ episodes_spec env details ↔ u ∈ listed_urls env details)).
Proof.
  intros Hx Ht Hf parent_type path.
  rewrite (discover_episode_urls_details env _ _ _ Hx Ht Hf).
  split; intros Hs.
  - apply discover_single. by apply is_Single_spec.
  - assert (Hs' : is_Single parent_type = false).
    { destruct (is_Single parent_type) eqn:E; [|reflexivity].
      by apply is_Single_spec in E. }
    split; [|split; [|split]].
    + intros l. by apply discover_series_sound.
    + by apply discover_series_total.
    + apply dedup_first_NoDup.
    + intros u. apply dedup_first_elem.
Qed.

Lemma show_details_well_formed : details_well_formed show_details.
Proof.
  eexists _, _. split; [reflexivity|]. split; [reflexivity|].
  repeat apply Forall_cons_2; try apply Forall_nil_2;
    (eexists; split; [reflexivity|]; split; [by eexists|]).
  - right; right. eexists _, _. split; [reflexivity|].
    split; [reflexivity|].
    repeat apply Forall_cons_2; try apply Forall_nil_2; right; by eexists.
  - by left.
  - right; right. eexists _, _. split; [reflexivity|].
    split; [reflexivity|].
    repeat apply Forall_cons_2; try apply Forall_nil_2; right; by eexists.
Qed.

(** On the small site: the series page lists [b] twice and an upcoming
    episode; the movie page gives its own URL. *)
Lemma discover_episode_urls_spec_witness :
  discover_episode_urls site_failing "https://www.svtplay.se/show"
  = Ret ["https://www.svtplay.se/show/a"; "https://www.svtplay.se/show/b";
         "https://www.svtplay.se/show/c"]
  ∧ discover_episode_urls site_failing "https://www.svtplay.se/film"
    = Ret ["https://www.svtplay.se/film"].
Proof.
  split.
  - destruct (discover_episode_urls_spec site_failing
                "https://www.svtplay.se/show" (page_with "SHOW") show_details
                eq_refl eq_refl eq_refl) as [_ Hseries].
    destruct Hseries as (_ & Htotal & _); [discriminate|].
    rewrite (Htotal show_details_well_formed). reflexivity.
  - destruct (discover_episode_urls_spec site_failing
                "https://www.svtplay.se/film" (page_with "FILM") film_details
                eq_refl eq_refl eq_refl) as [Hsingle _].
    destruct (Hsingle eq_refl) as [Hurl _].
    exact (Hurl "/film" eq_refl eq_refl).
Defined.

(** A run of the loop without library: first-seen order is kept. *)
Example dedup_first_order :
  dedup_first ["a"; "b"; "a"; "c"; "b"] = ["a"; "b"; "c"].
Proof. reflexivity. Qed.

(** ** Frame reasoning for the script monad *)

Lemma bind_run {A B} (m : M A) (k : A -> M B) w :
  (m ≫= k) w
  = match m w with
    | (Ret a, w') => k a w'
    | (Exn e, w') => (Exn e, w')
    end.
Proof. reflexivity. Qed.

Section Preserves.
Variable R : World -> World -> Prop.
Context `{!Reflexive R, !Transitive R}.

Lemma preserves_bind {A B} (m : M A) (k : A -> M B) :
  preserves R m → (∀ a, preserves R (k a)) → preserves R (m ≫= k).
Proof.
  intros Hm Hk w. rewrite bind_run. specialize (Hm w).
  destruct (m w) as [[a|e] w1]; cbn in *; [|exact Hm].
  etrans; [exact Hm | apply Hk].
Qed.

Lemma preserves_ret {A} (a : A) : preserves R (mret a).
Proof. intros w. reflexivity. Qed.

Lemma preserves_skip : preserves R skip.
Proof. intros w. reflexivity. Qed.

Lemma preserves_get : preserves R get_world.
Proof. intros w. reflexivity. Qed.

Lemma preserves_lift {A} (o : outcome A) : preserves R (lift o).
Proof. intros w. reflexivity. Qed.

Lemma preserves_modify f : (∀ w, R w (f w)) → preserves R (modify f).
Proof. intros H w. apply H. Qed.

Lemma preserves_ask : (∀ w, R w (set_tick S w)) → preserves R ask.
Proof. intros H w. apply H. Qed.
End Preserves.

#[global] Instance same_stats_refl : Reflexive same_stats.
Proof. by intros w. Qed.
#[global] Instance same_stats_trans : Transitive same_stats.
Proof. unfold same_stats. intros w1 w2 w3 H1 H2. congruence. Qed.

#[global] Instance same_series_refl : Reflexive same_series.
Proof. by intros w. Qed.
#[global] Instance same_series_trans : Transitive same_series.
Proof. unfold same_series. intros w1 w2 w3 H1 H2. congruence. Qed.

#[global] Instance trace_grows_refl P : Reflexive (trace_grows P).
Proof. intros w. exists []. by rewrite app_nil_r. Qed.
#[global] Instance trace_grows_trans P : Transitive (trace_grows P).
Proof.
  intros w1 w2 w3 (e1 & E1 & F1) (e2 & E2 & F2). exists (e1 ++ e2).
  split; [by rewrite E2, E1, app_assoc | by apply Forall_app].
Qed.

#[global] Instance both_refl R1 R2 `{!Reflexive R1, !Reflexive R2} :
  Reflexive (both R1 R2).
Proof. intros w. split; reflexivity. Qed.
#[global] Instance both_trans R1 R2 `{!Transitive R1, !Transitive R2} :
  Transitive (both R1 R2).
Proof. intros w1 w2 w3 [? ?] [? ?]. split; etrans; eauto. Qed.

Section Triples.
Context {A B : Type}.

Lemma triple_bind P (m : M A) Q E (k : A -> M B) Q' :
  triple P m Q E → (∀ a, triple (Q a) (k a) Q' E) →
  triple P (m ≫= k) Q' E.
Proof.
  intros Hm Hk w Hw. rewrite bind_run. specialize (Hm w Hw).
  destruct (m w) as [[a|e] w1]; [by apply Hk | exact Hm].
Qed.

Lemma triple_weaken (P P' : World -> Prop) (m : M A)
    (Q Q' : A -> World -> Prop) (E E' : World -> Prop) :
  triple P m Q E → (∀ w, P' w → P w) → (∀ a w, Q a w → Q' a w) →
  (∀ w, E w → E' w) → triple P' m Q' E'.
Proof.
  intros H HP HQ HE w Hw. specialize (H w (HP w Hw)).
  destruct (m w) as [[a|e] w1]; auto.
Qed.

(** A computation that leaves the counters alone keeps every property of
    the counters. *)
Lemma triple_of_preserves (m : M A) (φ : Stats -> Prop) :
  preserves same_stats m →
  triple (fun w => φ (stats w)) m (fun _ w => φ (stats w))
         (fun w => φ (stats w)).
Proof.
  intros H w Hw. specialize (H w).
  destruct (m w) as [[a|e] w1]; unfold same_stats in H; cbn in H;
    by rewrite H.
Qed.
End Triples.


(** *** What the pieces of the script preserve *)

Section Pieces.
Variable env : Env.
Variable R : World -> World -> Prop.
Context `{!Reflexive R, !Transitive R}.
(** The events [R] tolerates in the trace. *)
Variable ok : event -> Prop.
Hypothesis R_tick : ∀ w, R w (set_tick S w).
Hypothesis R_errors : ∀ f w, R w (set_errors f w).
Hypothesis R_emit :
  ∀ ev w, ok ev → R w (set_trace (fun t => t ++ [ev]) w).

Lemma pres_emit ev : ok ev → preserves R (emit ev).
Proof. intros H w. by apply R_emit. Qed.

Lemma pres_ask : preserves R ask.
Proof. intros w. apply R_tick. Qed.

Lemma pres_now : preserves R (now env).
Proof.
  apply preserves_bind; [done.. | apply pres_ask |].
  intros n. by apply preserves_ret.
Qed.

Lemma pres_read_stop : preserves R (read_stop env).
Proof.
  apply preserves_bind; [done.. | apply pres_ask |].
  intros n. by apply preserves_ret.
Qed.

Lemma pres_save_json_state path doc :
  ok (EvSaveJson path doc) → preserves R (save_json_state path doc).
Proof.
  intros H. unfold save_json_state.
  destruct (negb (str_truthy path));
    [by apply preserves_skip | by apply pres_emit].
Qed.

Lemma pres_append_seen path url :
  ok (EvAppend path url) → preserves R (append_seen path url).
Proof.
  intros H. unfold append_seen.
  destruct (negb (str_truthy path));
    [by apply preserves_skip | by apply pres_emit].
Qed.

Hypothesis ok_save_errors : ∀ path d, ok (EvSaveJson path (ErrorsDoc d)).

Lemma pres_record_error url rc ef : preserves R (record_error env url rc ef).
Proof.
  unfold record_error.
  apply preserves_bind; [done.. | by apply preserves_get |]. intros w0.
  apply preserves_bind; [done.. | apply pres_now |]. intros t.
  apply preserves_bind; [done.. | |].
  { apply preserves_modify. intros w. apply R_errors. }
  intros _. apply preserves_bind; [done.. | by apply preserves_get |].
  intros w1. apply pres_save_json_state, ok_save_errors.
Qed.

Lemma pres_clear_error url ef : preserves R (clear_error url ef).
Proof.
  unfold clear_error.
  apply preserves_bind; [done.. | by apply preserves_get |]. intros w0.
  case_bool_decide; [|by apply preserves_skip].
  apply preserves_bind; [done.. | |].
  { apply preserves_modify. intros w. apply R_errors. }
  intros _. apply preserves_bind; [done.. | by apply preserves_get |].
  intros w1. apply pres_save_json_state, ok_save_errors.
Qed.

Lemma pres_run_svtplay_dl url out dry :
  (dry = false → ∀ cmd r, ok (EvPopen cmd r)) →
  preserves R (run_svtplay_dl env url out dry).
Proof.
  intros H. unfold run_svtplay_dl. destruct dry.
  - by apply preserves_ret.
  - apply preserves_bind; [done.. | apply pres_ask |]. intros n.
    apply preserves_bind; [done.. | by apply pres_emit, H |].
    intros _. by apply preserves_ret.
Qed.

Lemma pres_download_with_retry url out dry ef :
  (dry = false → ∀ cmd r, ok (EvPopen cmd r)) →
  preserves R (download_with_retry env url out dry ef).
Proof.
  intros H. unfold download_with_retry.
  apply preserves_bind; [done.. | by apply preserves_get |]. intros w0.
  destruct (is_permanent_error (errors w0) url);
    [by apply preserves_ret|].
  apply preserves_bind; [done.. | by apply pres_run_svtplay_dl |].
  intros rc. destruct (rc =? 0).
  { apply preserves_bind; [done.. | apply pres_clear_error |].
    intros _. by apply preserves_ret. }
  apply preserves_bind; [done.. | by apply pres_run_svtplay_dl |].
  intros rc'. destruct (rc' =? 0).
  { apply preserves_bind; [done.. | apply pres_clear_error |].
    intros _. by apply preserves_ret. }
  apply preserves_bind; [done.. | apply pres_record_error |].
  intros _. by apply preserves_ret.
Qed.

Lemma pres_maybe_sleep args i n :
  (∀ d, ok (EvSleep d)) → preserves R (maybe_sleep env args i n).
Proof.
  intros H. unfold maybe_sleep.
  destruct ((arg_sleep args >? 0) && (Z.of_nat i <? Z.of_nat n - 1));
    [|by apply preserves_skip].
  apply preserves_bind; [done.. | apply pres_read_stop |].
  intros s. destruct s; [by apply preserves_skip | by apply pres_emit].
Qed.

(** The retry helper never raises. *)
Lemma download_with_retry_returns url out dry ef w :
  ∃ ok_, (download_with_retry env url out dry ef w).1 = Ret ok_.
Proof.
  destruct (is_permanent_error (errors w) url) eqn:Hp.
  - rewrite download_with_retry_permanent by done. by eexists.
  - destruct dry.
    + rewrite download_with_retry_dry by done. by eexists.
    + rewrite download_with_retry_live by done. cbv zeta.
      repeat case_match; by eexists.
Qed.
End Pieces.

(** *** What the loops preserve *)

Ltac pres_bind :=
  apply preserves_bind; [try typeclasses eauto.. | | intros ?].

Section Loops.
Variable env : Env.
Variable args : Args.
Variable R : World -> World -> Prop.
Context `{!Reflexive R, !Transitive R}.
Variable ok : event -> Prop.
Hypothesis R_tick : ∀ w, R w (set_tick S w).
Hypothesis R_errors : ∀ f w, R w (set_errors f w).
Hypothesis R_stats : ∀ f w, R w (set_stats f w).
Hypothesis R_seen : ∀ f w, R w (set_seen f w).
Hypothesis R_seen_episodes : ∀ f w, R w (set_seen_episodes f w).
Hypothesis R_emit :
  ∀ ev w, ok ev → R w (set_trace (fun t => t ++ [ev]) w).
Hypothesis ok_save_errors : ∀ path d, ok (EvSaveJson path (ErrorsDoc d)).
Hypothesis ok_sleep : ∀ d, ok (EvSleep d).
Hypothesis ok_popen :
  arg_dry_run args = false → ∀ cmd r, ok (EvPopen cmd r).
Hypothesis ok_append :
  arg_dry_run args = false → ∀ path url, ok (EvAppend path url).

Lemma pres_stop_or_limit : preserves R (stop_or_limit env args).
Proof.
  unfold stop_or_limit.
  pres_bind; [by apply pres_read_stop|].
  destruct a; [by apply preserves_ret|].
  pres_bind; [by apply preserves_get | by apply preserves_ret].
Qed.

Lemma pres_dry_append path url :
  preserves R (if arg_dry_run args then skip else append_seen path url).
Proof.
  destruct (arg_dry_run args) eqn:E; [by apply preserves_skip|].
  apply (pres_append_seen R ok); [done | by apply ok_append].
Qed.

Lemma pres_episode_loop folder n_new ep_i eps :
  preserves R (episode_loop env args folder n_new ep_i eps).
Proof.
  revert ep_i. induction eps as [|ep eps IH]; intros ep_i;
    cbn [episode_loop]; [by apply preserves_skip|].
  pres_bind; [apply pres_stop_or_limit|].
  destruct a; [by apply preserves_skip|].
  pres_bind; [by apply (pres_download_with_retry env R ok)|].
  pres_bind.
  { destruct a.
    - pres_bind; [apply pres_dry_append|].
      pres_bind; by apply preserves_modify.
    - by apply preserves_modify. }
  pres_bind; [by apply (pres_maybe_sleep env R ok) | apply IH].
Qed.

Lemma pres_movie_path item_url folder :
  preserves R (movie_path env args item_url folder).
Proof.
  unfold movie_path.
  pres_bind; [by apply preserves_get|].
  destruct (is_permanent_error (errors a) item_url).
  { pres_bind; [by apply preserves_modify | by apply preserves_ret]. }
  pres_bind; [by apply (pres_download_with_retry env R ok)|].
  pres_bind; [|by apply preserves_ret].
  destruct a0.
  - pres_bind; [apply pres_dry_append|].
    pres_bind; by apply preserves_modify.
  - by apply preserves_modify.
Qed.

End Loops.

Section Totality.
Variable env : Env.
Variable args : Args.

(** The episode loop never raises. *)
Lemma episode_loop_returns folder n_new ep_i eps w :
  (episode_loop env args folder n_new ep_i eps w).1 = Ret tt.
Proof.
  revert ep_i w. induction eps as [|ep eps IH]; intros ep_i w;
    [reflexivity|].
  cbn [episode_loop]. rewrite bind_run.
  destruct (stop_or_limit env args w) as [[stop|e] w1] eqn:E1.
  2:{ unfold stop_or_limit, read_stop, ask, get_world in E1.
      rewrite !bind_run in E1. cbn in E1.
      destruct (stop_requested env (tick w)); discriminate. }
  destruct stop; [reflexivity|]. rewrite bind_run.
  destruct (download_with_retry_returns env ep folder (arg_dry_run args)
              (arg_errors_file args) w1) as [ok_ Hok].
  destruct (download_with_retry env ep folder (arg_dry_run args)
              (arg_errors_file args) w1) as [r w2]. cbn in Hok. subst r.
  rewrite bind_run.
  match goal with
  | |- context [(if ok_ then ?a else ?b) w2] =>
      assert (Hb : ∃ w3, (if ok_ then a else b) w2 = (Ret tt, w3))
  end.
  { destruct ok_; [|by eexists].
    rewrite !bind_run. unfold append_seen.
    destruct (arg_dry_run args); [by eexists|].
    destruct (negb (str_truthy (arg_seen_episodes_file args)));
      by eexists. }
  destruct Hb as [w3 ->]. rewrite bind_run.
  assert (Hs : ∃ w4, maybe_sleep env args ep_i n_new w3 = (Ret tt, w4)).
  { unfold maybe_sleep.
    destruct ((arg_sleep args >? 0)
              && (Z.of_nat ep_i <? Z.of_nat n_new - 1)); [|by eexists].
    unfold read_stop, ask. rewrite !bind_run. cbn.
    destruct (stop_requested env (tick w3)); by eexists. }
  destruct Hs as [w4 ->]. apply IH.
Qed.
End Totality.

(** ** Dry runs *)

Lemma dry_step_frame (f : World -> World) :
  (∀ w, trace (f w) = trace w) →
  (∀ w, series_state (f w) = series_state w) →
  ∀ w, dry_step w (f w).
Proof.
  intros Ht Hs w. split; [|apply Hs].
  exists []. by rewrite app_nil_r, Ht.
Qed.

Lemma dry_step_emit ev w :
  dry_event ev → dry_step w (set_trace (fun t => t ++ [ev]) w).
Proof.
  intros H. split; [|reflexivity]. exists [ev]. split; [reflexivity|].
  by repeat constructor.
Qed.

Section DryRun.
Variable env : Env.
Variable args : Args.
Hypothesis Hdry : arg_dry_run args = true.

(** The live branches are dead code in a dry run. *)
Ltac live_absurd :=
  let Hf := fresh in intros Hf; rewrite Hdry in Hf; discriminate Hf.

Lemma dry_episode_loop folder n_new ep_i eps :
  preserves dry_step (episode_loop env args folder n_new ep_i eps).
Proof.
  apply (pres_episode_loop env args dry_step dry_event);
    try (intros; by apply dry_step_frame);
    try (intros; by apply dry_step_emit); try done;
    live_absurd.
Qed.

Lemma dry_movie_path item_url folder :
  preserves dry_step (movie_path env args item_url folder).
Proof.
  apply (pres_movie_path env args dry_step dry_event);
    try (intros; by apply dry_step_frame);
    try (intros; by apply dry_step_emit); try done;
    live_absurd.
Qed.

Lemma dry_maybe_sleep i n : preserves dry_step (maybe_sleep env args i n).
Proof.
  apply (pres_maybe_sleep env dry_step dry_event);
    try (intros; by apply dry_step_frame);
    try (intros; by apply dry_step_emit); done.
Qed.

Lemma dry_stop_or_limit : preserves dry_step (stop_or_limit env args).
Proof.
  apply (pres_stop_or_limit env args dry_step);
    intros; by apply dry_step_frame.
Qed.

Lemma dry_modify_stats f : preserves dry_step (modify (set_stats f)).
Proof. apply preserves_modify. intros w. by apply dry_step_frame. Qed.

Lemma dry_ask : preserves dry_step ask.
Proof. intros w. by apply dry_step_frame. Qed.

Lemma dry_fetch_poster image_url poster_path :
  preserves dry_step (fetch_poster env args image_url poster_path).
Proof.
  unfold fetch_poster. rewrite Hdry.
  destruct image_url as [img|]; [|by apply preserves_skip].
  destruct (str_truthy img); [|by apply preserves_skip].
  pres_bind; [apply dry_ask|].
  destruct (path_exists env a poster_path); by apply preserves_skip.
Qed.

Lemma dry_series_path item_url folder html name :
  preserves dry_step (series_path env args item_url folder html name).
Proof.
  unfold series_path. rewrite Hdry.
  pres_bind; [apply dry_modify_stats|].
  pres_bind; [by apply preserves_lift|].
  pres_bind; [by apply preserves_get|].
  pres_bind.
  { destruct (_ =? 0); [by apply preserves_skip | apply dry_modify_stats]. }
  pres_bind; [apply dry_episode_loop | by apply preserves_skip].
Qed.

Lemma dry_handle_item cat item_url is_single name_hint html :
  preserves dry_step
    (handle_item env args cat item_url is_single name_hint html).
Proof.
  unfold handle_item. rewrite Hdry.
  pres_bind; [by apply preserves_lift|].
  destruct a as [[name0 year] image_url].
  pres_bind; [by apply preserves_skip|].
  pres_bind; [apply dry_fetch_poster|].
  destruct is_single; [apply dry_movie_path|].
  pres_bind; [apply dry_series_path | by apply preserves_ret].
Qed.

Lemma dry_item_loop cat n idx items :
  preserves dry_step (item_loop env args cat n idx items).
Proof.
  revert idx. induction items as [|item items IH]; intros idx;
    cbn [item_loop]; [by apply preserves_skip|].
  pres_bind; [apply dry_stop_or_limit|].
  destruct a; [by apply preserves_skip|].
  pres_bind; [by apply preserves_lift|].
  destruct a as [[[item_url is_single] name_hint]|]; [|apply IH].
  pres_bind; [by apply preserves_get|].
  case_bool_decide.
  { pres_bind; [apply dry_modify_stats | apply IH]. }
  pres_bind; [apply dry_ask|].
  destruct (fetch_html env a0 item_url) as [html|].
  2:{ pres_bind; [apply dry_modify_stats | apply IH]. }
  pres_bind; [apply dry_handle_item|].
  pres_bind; [|apply IH].
  destruct a1; [apply dry_maybe_sleep | by apply preserves_skip].
Qed.

Lemma dry_stale_report : preserves dry_step (stale_report env args).
Proof.
  unfold stale_report, find_stale_series, now.
  pres_bind; [by apply preserves_get|].
  pres_bind.
  { pres_bind; [|by apply preserves_lift].
    pres_bind; [apply dry_ask | by apply preserves_ret]. }
  pres_bind; [by apply preserves_get | by apply preserves_ret].
Qed.

Lemma dry_main_items cat items :
  preserves dry_step (main_items env args cat items).
Proof.
  unfold main_items.
  pres_bind; [apply dry_modify_stats|].
  pres_bind; [apply dry_item_loop | apply dry_stale_report].
Qed.
End DryRun.

(** C9: under [--dry-run] the orchestrator (item loop and stale report)
    adds nothing to the trace but rewrites of the errors file and sleeps:
    it never appends to a seen file and never saves the series state, which
    stays as loaded.  Yet a dry-run attempt counts as a success of the
    downloader without a process being started, so [download_with_retry] on
    a URL with a non-permanent error entry returns [True], deletes the entry
    and rewrites the errors file. *)
Theorem dry_run_spares_seen_and_series_but_clears_errors
    (env : Env) (args : Args) :
  arg_dry_run args = true →
  (∀ category_name items w,
     let w' := (main_items env args category_name items w).2 in
     (∃ evs, trace w' = trace w ++ evs ∧ Forall dry_event evs)
     ∧ series_state w' = series_state w)
  ∧ (∀ url output_dir w,
       is_Some (errors w !! url) →
       is_permanent_error (errors w) url = false →
       let res := download_with_retry env url output_dir (arg_dry_run args)
                    (arg_errors_file args) w in
       res.1 = Ret true
       ∧ errors res.2 = delete url (errors w)
       ∧ errors res.2 !! url = None
       ∧ trace res.2
         = trace w ++ saved (arg_errors_file args)
                        (ErrorsDoc (delete url (errors w)))
       ∧ tick res.2 = tick w).
Proof.
  intros Hdry. split.
  - intros cat items w. apply (dry_main_items env args Hdry cat items w).
  - intros url out w Hsome Hp. rewrite Hdry. cbv zeta.
    rewrite download_with_retry_dry by exact Hp.
    rewrite clear_error_run. cbn [fst snd].
    rewrite bool_decide_eq_true_2 by exact Hsome. cbn [errors trace tick].
    repeat split. apply lookup_delete_eq.
Qed.

(** A dry run over a movie that failed once before. *)
Lemma dry_run_witness :
  arg_dry_run args_dry = true
  ∧ (∃ evs,
       trace (main_items site_succeeding args_dry "Filmer" three_items
                (init_world ∅ ∅ ∅ errors_film)).2 = [] ++ evs
       ∧ Forall dry_event evs)
  ∧ errors
      (download_with_retry site_succeeding "https://www.svtplay.se/film"
         "out" true "errors.json" (init_world ∅ ∅ ∅ errors_film)).2
    !! "https://www.svtplay.se/film" = None.
Proof.
  destruct (dry_run_spares_seen_and_series_but_clears_errors
              site_succeeding args_dry eq_refl) as [Hloop Hclear].
  split; [reflexivity|]. split.
  - apply (Hloop "Filmer" three_items (init_world ∅ ∅ ∅ errors_film)).
  - apply (Hclear "https://www.svtplay.se/film" "out"
             (init_world ∅ ∅ ∅ errors_film)).
    + eexists. apply lookup_singleton_eq.
    + vm_compute. reflexivity.
Defined.

(** The same dry run evaluated: the error entry of the movie is gone and
    the errors file was rewritten, although nothing was downloaded. *)
Example dry_run_clears_error_entry :
  let w' := (main_items site_succeeding args_dry "Filmer" three_items
               (init_world ∅ ∅ ∅ errors_film)).2 in
  errors w' !! "https://www.svtplay.se/film" = None
  ∧ trace w'
    = [EvSaveJson "errors.json" (ErrorsDoc ∅);
       EvSleep 1; EvSleep 1; EvSleep 1; EvSleep 1].
Proof. vm_compute. split; reflexivity. Qed.

(** ** The download limit *)

#[global] Instance same_total_refl : Reflexive same_total.
Proof. by intros w. Qed.
#[global] Instance same_total_trans : Transitive same_total.
Proof. unfold same_total. intros w1 w2 w3 H1 H2. congruence. Qed.

Lemma total_triple {A} (m : M A) (φ : Z -> Prop) :
  preserves same_total m →
  triple (fun w => φ (total_downloads w)) m
         (fun _ w => φ (total_downloads w))
         (fun w => φ (total_downloads w)).
Proof.
  intros H w Hw. specialize (H w).
  destruct (m w) as [[a|e] w1]; unfold same_total in H; cbn in H;
    by rewrite H.
Qed.

Section Limit.
Variable env : Env.
Variable args : Args.
Hypothesis Hpos : 0 < arg_max_dl args.

#[local] Abbreviation within := (within_limit args).
#[local] Abbreviation room := (room_left args).

Lemma stop_or_limit_run w :
  stop_or_limit env args w
  = (Ret (stop_requested env (tick w) || dl_limit_reached args (stats w)),
     set_tick S w).
Proof.
  unfold stop_or_limit, read_stop, ask, get_world. rewrite !bind_run.
  cbn. by destruct (stop_requested env (tick w)).
Qed.

Lemma limit_not_reached w :
  dl_limit_reached args (stats w) = false → room w.
Proof.
  unfold dl_limit_reached, room_left, total_downloads.
  destruct (Z.leb_spec (arg_max_dl args) 0); [lia|].
  rewrite Z.geb_leb. intros ?%Z.leb_gt. lia.
Qed.

Lemma limit_reached w :
  arg_max_dl args ≤ total_downloads w →
  dl_limit_reached args (stats w) = true.
Proof.
  unfold dl_limit_reached, total_downloads. intros H.
  destruct (Z.leb_spec (arg_max_dl args) 0); [lia|].
  rewrite Z.geb_leb. by apply Z.leb_le.
Qed.

Lemma stop_or_limit_triple :
  triple within (stop_or_limit env args)
         (fun stop w => if stop then within w else room w) within.
Proof.
  intros w Hw. rewrite stop_or_limit_run.
  destruct (stop_requested env (tick w)); cbn [orb]; [exact Hw|].
  destruct (dl_limit_reached args (stats w)) eqn:E; [exact Hw|].
  by apply limit_not_reached in E.
Qed.

Lemma total_frame (f : World -> World) :
  (∀ w, stats (f w) = stats w) → ∀ w, same_total w (f w).
Proof. intros H w. unfold same_total, total_downloads. by rewrite H. Qed.

Lemma total_download_with_retry url out dry ef :
  preserves same_total (download_with_retry env url out dry ef).
Proof.
  apply (pres_download_with_retry env same_total (fun _ => True));
    try done; intros; by apply total_frame.
Qed.

Lemma total_maybe_sleep i n :
  preserves same_total (maybe_sleep env args i n).
Proof.
  apply (pres_maybe_sleep env same_total (fun _ => True));
    try done; intros; by apply total_frame.
Qed.

Lemma total_dry_append path url :
  preserves same_total
    (if arg_dry_run args then skip else append_seen path url).
Proof.
  destruct (arg_dry_run args); [by apply preserves_skip|].
  apply (pres_append_seen same_total (fun _ => True));
    try done; intros; by apply total_frame.
Qed.

Lemma total_modify f :
  (∀ w, total_downloads (f w) = total_downloads w) →
  preserves same_total (modify f).
Proof. intros H. apply preserves_modify. exact H. Qed.

Lemma room_keeps {A} (m : M A) :
  preserves same_total m → triple room m (fun _ => room) within.
Proof.
  intros H. eapply triple_weaken;
    [apply (total_triple m (fun t => t < arg_max_dl args) H) | done..|].
  intros w Hw. unfold within_limit. cbn in Hw. lia.
Qed.

Lemma within_keeps {A} (m : M A) :
  preserves same_total m → triple within m (fun _ => within) within.
Proof.
  intros H. apply (total_triple m (fun t => t ≤ arg_max_dl args) H).
Qed.

(** A successful episode: the only place the episode counter moves. *)
Lemma episode_outcome_triple (ok_ : bool) ep_url :
  triple room
    (if ok_ then
       (if arg_dry_run args then skip
        else append_seen (arg_seen_episodes_file args) ep_url);;
       modify (set_seen_episodes (fun s => s ∪ {[ep_url]}));;
       modify (set_stats incr_episodes_downloaded)
     else modify (set_stats incr_errors_this_run))
    (fun _ => within) within.
Proof.
  destruct ok_.
  - eapply triple_bind; [apply room_keeps, total_dry_append|].
    intros ?. eapply triple_bind;
      [apply room_keeps, total_modify; by intros|].
    intros ? w Hw. unfold room_left, within_limit, total_downloads in Hw |- *.
    cbn. lia.
  - intros w Hw. unfold room_left, within_limit, total_downloads in Hw |- *.
    cbn. lia.
Qed.

Lemma episode_loop_within folder n_new ep_i eps :
  triple within (episode_loop env args folder n_new ep_i eps)
         (fun _ => within) within.
Proof.
  revert ep_i. induction eps as [|ep eps IH]; intros ep_i;
    cbn [episode_loop]; [by intros w Hw|].
  eapply triple_bind; [apply stop_or_limit_triple|].
  intros [|]; [by intros w Hw|].
  eapply triple_bind; [apply room_keeps, total_download_with_retry|].
  intros ok_. eapply triple_bind; [apply episode_outcome_triple|].
  intros ?. eapply triple_bind; [|intros ?; apply IH].
  apply within_keeps, total_maybe_sleep.
Qed.

(** At the limit the episode loop stops before its next download. *)
Lemma episode_loop_halts folder n_new ep_i ep eps w :
  arg_max_dl args ≤ total_downloads w →
  episode_loop env args folder n_new ep_i (ep :: eps) w
  = (Ret tt, set_tick S w).
Proof.
  intros H. cbn [episode_loop]. rewrite bind_run, stop_or_limit_run.
  by rewrite (limit_reached _ H), orb_true_r.
Qed.
Lemma total_update_series_state url found_new nm sf :
  preserves same_total (update_series_state env url found_new nm sf).
Proof. intros w. by rewrite update_series_state_run. Qed.

Lemma total_ask : preserves same_total ask.
Proof. intros w. by apply total_frame. Qed.

Lemma total_fetch_poster image_url poster_path :
  preserves same_total (fetch_poster env args image_url poster_path).
Proof.
  unfold fetch_poster.
  destruct image_url as [img|]; [|by apply preserves_skip].
  destruct (str_truthy img); [|by apply preserves_skip].
  pres_bind; [apply total_ask|].
  destruct (path_exists env a poster_path); [by apply preserves_skip|].
  destruct (arg_dry_run args); [by apply preserves_skip|].
  apply (pres_emit same_total (fun _ => True)); [|done].
  intros; by apply total_frame.
Qed.

Lemma movie_path_within item_url folder :
  triple room (movie_path env args item_url folder)
         (fun _ => within) within.
Proof.
  unfold movie_path.
  eapply triple_bind; [apply room_keeps; by apply preserves_get|].
  intros w0. destruct (is_permanent_error (errors w0) item_url).
  { eapply triple_bind;
      [apply room_keeps, total_modify; by intros|].
    intros ? w Hw. unfold room_left in Hw. unfold within_limit. cbn. lia. }
  eapply triple_bind; [apply room_keeps, total_download_with_retry|].
  intros ok_. eapply triple_bind; [|intros ? w Hw; exact Hw].
  destruct ok_.
  - eapply triple_bind; [apply room_keeps, total_dry_append|].
    intros ?. eapply triple_bind;
      [apply room_keeps, total_modify; by intros|].
    intros ? w Hw. unfold room_left, total_downloads in Hw.
    unfold within_limit, total_downloads. cbn. lia.
  - intros w Hw. unfold room_left, total_downloads in Hw.
    unfold within_limit, total_downloads. cbn. lia.
Qed.

Lemma series_path_within item_url folder html nm :
  triple within (series_path env args item_url folder html nm)
         (fun _ => within) within.
Proof.
  unfold series_path.
  eapply triple_bind; [apply within_keeps, total_modify; by intros|].
  intros ?. eapply triple_bind;
    [apply within_keeps; by apply preserves_lift|].
  intros eps. eapply triple_bind;
    [apply within_keeps; by apply preserves_get|].
  intros w0. eapply triple_bind.
  { apply within_keeps. destruct (_ =? 0); [by apply preserves_skip|].
    apply total_modify. by intros. }
  intros ?. eapply triple_bind; [apply episode_loop_within|].
  intros ?. apply within_keeps.
  destruct (arg_dry_run args);
    [by apply preserves_skip | apply total_update_series_state].
Qed.

Lemma handle_item_within cat item_url is_single name_hint html :
  triple room (handle_item env args cat item_url is_single name_hint html)
         (fun _ => within) within.
Proof.
  unfold handle_item.
  eapply triple_bind; [apply room_keeps; by apply preserves_lift|].
  intros [[name0 year] image_url].
  eapply triple_bind.
  { apply room_keeps. destruct (arg_dry_run args);
      [by apply preserves_skip|].
    apply (pres_emit same_total (fun _ => True)); [|done].
    intros; by apply total_frame. }
  intros ?. eapply triple_bind; [apply room_keeps, total_fetch_poster|].
  intros ?. destruct is_single; [apply movie_path_within|].
  eapply triple_bind.
  { eapply triple_weaken; [apply series_path_within | | done | done].
    intros w Hw. unfold room_left in Hw. unfold within_limit. lia. }
  intros ? w Hw. exact Hw.
Qed.

Lemma item_loop_within cat n idx items :
  triple within (item_loop env args cat n idx items)
         (fun _ => within) within.
Proof.
  revert idx. induction items as [|item items IH]; intros idx;
    cbn [item_loop]; [by intros w Hw|].
  eapply triple_bind; [apply stop_or_limit_triple|].
  intros [|]; [by intros w Hw|].
  assert (Hrest : ∀ i, triple room (item_loop env args cat n i items)
                              (fun _ => within) within).
  { intros i. eapply triple_weaken; [apply IH | | done | done].
    intros w Hw. unfold room_left in Hw. unfold within_limit. lia. }
  eapply triple_bind; [apply room_keeps; by apply preserves_lift|].
  intros [[[item_url is_single] name_hint]|]; [|apply Hrest].
  eapply triple_bind; [apply room_keeps; by apply preserves_get|].
  intros w0. case_bool_decide.
  { eapply triple_bind; [apply room_keeps, total_modify; by intros|].
    intros ?. apply Hrest. }
  eapply triple_bind; [apply room_keeps, total_ask|].
  intros k. destruct (fetch_html env k item_url) as [html|].
  2:{ eapply triple_bind; [apply room_keeps, total_modify; by intros|].
      intros ?. apply Hrest. }
  eapply triple_bind; [apply handle_item_within|].
  intros to_end. eapply triple_bind; [|intros ?; apply IH].
  apply within_keeps.
  destruct to_end; [apply total_maybe_sleep | by apply preserves_skip].
Qed.

Lemma total_stale_report : preserves same_total (stale_report env args).
Proof.
  unfold stale_report, find_stale_series, now.
  pres_bind; [by apply preserves_get|].
  pres_bind.
  { pres_bind; [|by apply preserves_lift].
    pres_bind; [apply total_ask | by apply preserves_ret]. }
  pres_bind; [by apply preserves_get | by apply preserves_ret].
Qed.

Lemma main_items_within cat items w :
  within (main_items env args cat items w).2.
Proof.
  assert (H : triple (fun _ => True) (main_items env args cat items)
                     (fun _ => within) within).
  { unfold main_items.
    eapply triple_bind with (Q := fun _ => within).
    { intros w0 _. unfold within_limit, total_downloads. cbn. lia. }
    intros ?. eapply triple_bind; [apply item_loop_within|].
    intros ?. apply within_keeps, total_stale_report. }
  specialize (H w I).
  by destruct (main_items env args cat items w) as [[a|e] w1].
Qed.

(** At the limit the item loop stops before its next item. *)
Lemma item_loop_halts cat n idx item items w :
  arg_max_dl args ≤ total_downloads w →
  item_loop env args cat n idx (item :: items) w = (Ret tt, set_tick S w).
Proof.
  intros H. cbn [item_loop]. rewrite bind_run, stop_or_limit_run.
  by rewrite (limit_reached _ H), orb_true_r.
Qed.
End Limit.

(** C8: with a positive [--max-dl], the movies and episodes downloaded in a
    run never number more than the limit; the limit is tested before each
    catalog item and before each episode, and once the total has reached
    it each of the two loops ends at that test without doing anything
    more, whatever is left to process. *)
Theorem max_dl_bounds_downloads
    (env : Env) (args : Args) (category_name : string) (items : list json)
    (w : World) :
  0 < arg_max_dl args →
  total_downloads (main_items env args category_name items w).2
  ≤ arg_max_dl args
  ∧ (∀ n idx item rest w0,
       arg_max_dl args ≤ total_downloads w0 →
       item_loop env args category_name n idx (item :: rest) w0
       = (Ret tt, set_tick S w0))
  ∧ (∀ folder n ep_i ep rest w0,
       arg_max_dl args ≤ total_downloads w0 →
       episode_loop env args folder n ep_i (ep :: rest) w0
       = (Ret tt, set_tick S w0)).
Proof.
  intros Hpos. split; [|split].
  - by apply main_items_within.
  - intros. by apply item_loop_halts.
  - intros. by apply episode_loop_halts.
Qed.


(** With a limit of 2 and five downloads on offer. *)
Lemma max_dl_bounds_downloads_witness :
  0 < arg_max_dl args_max2
  ∧ total_downloads
      (main_items site_succeeding args_max2 "Filmer" three_items
         empty_world).2 ≤ 2.
Proof.
  split; [reflexivity|].
  apply (max_dl_bounds_downloads site_succeeding args_max2 "Filmer"
           three_items empty_world).
  reflexivity.
Defined.

(** The same run evaluated: the movie and the first episode are downloaded,
    then both loops stop; without a limit all five are. *)
Example max_dl_run :
  stats (main_items site_succeeding args_max2 "Filmer" three_items
           empty_world).2
  = mkStats 1 1 1 0 0 0
  ∧ stats (main_items site_succeeding args_default "Filmer" three_items
             empty_world).2
    = mkStats 1 4 2 0 0 0.
Proof. vm_compute. split; reflexivity. Qed.

(** ** The series path *)

Lemma episode_step_frame (f : World -> World) :
  (∀ w, trace (f w) = trace w) →
  (∀ w, series_state (f w) = series_state w) →
  ∀ w, episode_step w (f w).
Proof.
  intros Ht Hs w. split; [|apply Hs].
  exists []. by rewrite app_nil_r, Ht.
Qed.

Lemma episode_step_emit ev w :
  not_series_save ev → episode_step w (set_trace (fun t => t ++ [ev]) w).
Proof.
  intros H. split; [|reflexivity]. exists [ev]. split; [reflexivity|].
  by repeat constructor.
Qed.

Lemma episode_loop_spares_series env args folder n_new ep_i eps :
  preserves episode_step (episode_loop env args folder n_new ep_i eps).
Proof.
  apply (pres_episode_loop env args episode_step not_series_save);
    try (intros; by apply episode_step_frame);
    try (intros; by apply episode_step_emit); done.
Qed.

Lemma found_new_spec (new_eps : list string) :
  (Z.of_nat (length new_eps) >? 0) = bool_decide (new_eps ≠ []).
Proof. by destruct new_eps. Qed.

(** C3, as amended: on the series path of a run that is not a dry run, when
    episode discovery returns, the series state is updated exactly once for
    the series, after the episode loop and whatever the number of episodes:
    the entry of the series is replaced once and the state saved once.  The
    [found_new] flag of that update tells whether at least one NEW episode
    was discovered (an episode not yet seen and not permanently failed); it
    does not depend on any download succeeding. *)
Theorem series_path_updates_once
    (env : Env) (args : Args)
    (item_url folder_path detail_html show_name : string)
    (episode_urls : list string) (w : World) :
  arg_dry_run args = false →
  discover_episode_urls env detail_html = Ret episode_urls →
  let found_new := bool_decide (new_episodes w episode_urls ≠ []) in
  let res := series_path env args item_url folder_path detail_html
               show_name w in
  res.1 = Ret tt
  ∧ ∃ stamp evs,
      series_state res.2
      = <[item_url := updated_entry (series_state w) item_url found_new
                        show_name stamp]> (series_state w)
      ∧ trace res.2
        = trace w ++ evs
          ++ saved (arg_series_state_file args)
                   (SeriesDoc (series_state res.2))
      ∧ Forall not_series_save evs.
Proof.
  intros Hlive Heps found_new res. subst res found_new.
  unfold series_path. rewrite Hlive, Heps.
  rewrite bind_run. cbn [modify]. rewrite bind_run. cbn [lift].
  rewrite bind_run. cbn [get_world].
  set (w1 := set_stats incr_series_checked w).
  change (new_episodes w1 episode_urls) with (new_episodes w episode_urls).
  set (new_eps := new_episodes w episode_urls).
  rewrite bind_run.
  match goal with
  | |- context [(if ?c then skip else modify (set_stats ?f)) w1] =>
      set (w2 := ((if c then skip else modify (set_stats f)) w1).2);
      assert (H2 : (if c then skip else modify (set_stats f)) w1
                   = (Ret tt, w2)) by (unfold w2; by destruct c);
      assert (H12 : series_state w2 = series_state w ∧ trace w2 = trace w)
        by (unfold w2; by destruct c)
  end.
  rewrite H2. destruct H12 as [Hs2 Ht2]. rewrite bind_run.
  pose proof (episode_loop_returns env args folder_path (length new_eps) 0%nat
                new_eps w2) as Hret.
  pose proof (episode_loop_spares_series env args folder_path
                (length new_eps) 0%nat new_eps w2)
    as [(evs & Hevs & Hok) Hser].
  destruct (episode_loop env args folder_path (length new_eps) 0%nat
              new_eps w2) as [r w3].
  cbn in Hret, Hevs, Hser. subst r.
  rewrite update_series_state_run. cbv zeta. cbn [fst snd series_state trace].
  split; [reflexivity|].
  unfold same_series in Hser.
  exists (isoformat env (clock env (tick w3))), evs.
  rewrite Hser, Hs2, Hevs, Ht2, found_new_spec, <- app_assoc.
  done.
Qed.

(** A series with one new episode and a downloader that fails. *)
Lemma series_path_updates_once_witness :
  arg_dry_run args_default = false
  ∧ (series_path site_failing args_default "https://www.svtplay.se/mini"
       "folder" "https://www.svtplay.se/mini" "Mini"
       (init_world ∅ ∅ series_mini ∅)).1 = Ret tt.
Proof.
  split; [reflexivity|].
  by destruct (series_path_updates_once site_failing args_default
                 "https://www.svtplay.se/mini" "folder"
                 "https://www.svtplay.se/mini" "Mini"
                 ["https://www.svtplay.se/mini/a"]
                 (init_world ∅ ∅ series_mini ∅) eq_refl eq_refl)
    as [H _].
Defined.

(** C3, as stated, fails: the one new episode of the series fails to
    download (no episode downloaded, one error this run), yet the update is
    made as for [found_new] true: the check count is reset from 1 to 0 and
    the date stamped, where an update telling whether a new episode
    succeeded would have counted a second check. *)
Lemma series_found_new_without_success :
  let w0 := init_world ∅ ∅ series_mini ∅ in
  let url := "https://www.svtplay.se/mini" in
  let w' := (series_path site_failing args_default url "folder" url "Mini"
               w0).2 in
  episodes_downloaded (stats w') = 0
  ∧ errors_this_run (stats w') = 1
  ∧ series_state w' !! url
    = Some (updated_entry (series_state w0) url true "Mini"
              "2024-01-01T00:00:00")
  ∧ check_count_of (series_state w') url = 0
  ∧ check_count
      (updated_entry (series_state w0) url false "Mini" "2024-01-01T00:00:00")
    = Some 2.
Proof. vm_compute. repeat split. Qed.

(** ** Scenarios *)

(** Error escalation: three failed calls for the same URL make it
    permanent, after six launches; a fourth call launches nothing. *)
Example error_escalation :
  let w3 := failed_call (failed_call (failed_call empty_world)) in
  map_to_list (errors w3)
  = [("u", mkErrorEntry (Some 3) (Some true)
             (Some "svtplay-dl exited with code 1")
             (Some "2024-01-01T00:00:00"))]
  ∧ length (launches (trace w3)) = 6%nat
  ∧ (download_with_retry failing_env "u" "out" false "errors.json" w3).1
    = Ret false
  ∧ trace (failed_call w3) = trace w3.
Proof. vm_compute. repeat split. Qed.

(** Recovery: a success after a recorded failure removes the entry. *)
Example recovery :
  map_to_list
    (errors (download_with_retry succeeding_env "u" "out" false
               "errors.json" (failed_call empty_world)).2)
  = [].
Proof. vm_compute. reflexivity. Qed.

(** File names. *)
Example sanitize_examples :
  sanitize_filename "What? Who: Me/You*" = "What Who MeYou"
  ∧ sanitize_filename "  a<b>:c. ." = "abc"
  ∧ sanitize_filename "Film X" = "Film X".
Proof. repeat split. Qed.

(** Catalog stubs: a movie, a malformed item (skipped), and an item whose
    path is null (the uncaught [AttributeError]). *)
Example parse_item_examples :
  parse_item failing_env (stub "/video/abc/film-x/" "Single")
  = Ret (Some ("https://www.svtplay.se/video/abc/film-x/", true, "film-x"))
  ∧ parse_item failing_env (JObj [("item", JNull)]) = Ret None
  ∧ parse_item failing_env
      (JObj [("item", JObj [("urls", JObj [("svtplay", JNull)])])])
    = Exn AttributeError.
Proof. repeat split. Qed.

(** A full run over the small site: one movie and four episodes are
    downloaded, and each series is updated once. *)
Example full_run :
  let w' := (main_items site_succeeding args_default "Filmer" three_items
               empty_world).2 in
  stats w' = mkStats 1 4 2 0 0 0
  ∧ length (launches (trace w')) = 5%nat
  ∧ length (List.filter
              (fun ev => match ev with
                         | EvSaveJson _ (SeriesDoc _) => true
                         | _ => false
                         end) (trace w')) = 2%nat.
Proof. vm_compute. repeat split. Qed.

(** ** The seen files on disk *)

Lemma str_app_cons c (a b : string) : String c a +:+ b = String c (a +:+ b).
Proof. reflexivity. Qed.

Lemma str_app_nil_l (b : string) : EmptyString +:+ b = b.
Proof. reflexivity. Qed.

Lemma str_app_assoc (a b c : string) : (a +:+ b) +:+ c = a +:+ (b +:+ c).
Proof.
  induction a as [|x a IH]; [reflexivity|].
  by rewrite !str_app_cons, IH.
Qed.

Lemma str_app_nil_r (a : string) : a +:+ EmptyString = a.
Proof.
  induction a as [|x a IH]; [reflexivity|]. by rewrite str_app_cons, IH.
Qed.

Lemma translate_no_cr s :
  no_cr s = true → translate_newlines_from false s = s.
Proof.
  induction s as [|c r IH]; cbn; [reflexivity|].
  destruct (Ascii.eqb c "013"); cbn.
  - intros H. discriminate H.
  - intros H. destruct (Ascii.eqb_spec c "010") as [->|?]; by rewrite IH.
Qed.

Lemma translate_is_no_cr b s : no_cr (translate_newlines_from b s) = true.
Proof.
  revert b. induction s as [|c r IH]; intros b; cbn; [reflexivity|].
  destruct (Ascii.eqb c "013") eqn:E1; cbn; [apply IH|].
  destruct (Ascii.eqb c "010") eqn:E2.
  - destruct b; cbn; apply IH.
  - cbn. rewrite E1. cbn. apply IH.
Qed.

Lemma no_cr_app a b : no_cr (a +:+ b) = no_cr a && no_cr b.
Proof.
  induction a as [|x a IH]; [reflexivity|].
  rewrite str_app_cons. cbn. rewrite IH. by rewrite andb_assoc.
Qed.

Lemma writelines_cons l ls : writelines (l :: ls) = l +:+ writelines ls.
Proof. reflexivity. Qed.

Lemma no_cr_writelines ls : no_cr (writelines ls) = forallb no_cr ls.
Proof.
  induction ls as [|l ls IH]; [reflexivity|].
  rewrite writelines_cons, no_cr_app, IH. reflexivity.
Qed.

Lemma writelines_readlines t : writelines (readlines t) = t.
Proof.
  induction t as [|c r IH]; [reflexivity|]. cbn [readlines].
  destruct (Ascii.eqb c "010").
  - by rewrite writelines_cons, IH.
  - destruct (readlines r) as [|l ls].
    + by rewrite <- IH.
    + rewrite writelines_cons in *. by rewrite str_app_cons, IH.
Qed.

Lemma readlines_wf t : lines_wf (readlines t) = true.
Proof.
  induction t as [|c r IH]; cbn; [reflexivity|].
  destruct (Ascii.eqb c "010") eqn:E.
  - cbn. rewrite E, IH. reflexivity.
  - destruct (readlines r) as [|l ls]; cbn in *.
    + rewrite E. reflexivity.
    + rewrite E. revert IH.
      destruct ls; destruct (is_terminated l), (str_truthy l), (no_lf l);
        cbn; done.
Qed.

Lemma filter_wf f ls : lines_wf ls = true → lines_wf (List.filter f ls) = true.
Proof.
  induction ls as [|l ls IH]; cbn; [done|].
  intros [Hl Hls]%andb_true_iff. specialize (IH Hls).
  destruct (f l); cbn; [|exact IH].
  rewrite IH, andb_true_r.
  apply orb_true_iff in Hl as [Ht|Ho]; [by rewrite Ht|].
  destruct ls as [|l' ls]; [|discriminate].
  cbn in *. rewrite Ho. by destruct (is_terminated l).
Qed.

Lemma readlines_terminated l t :
  is_terminated l = true → readlines (l +:+ t) = l :: readlines t.
Proof.
  induction l as [|c r IH]; [discriminate|].
  rewrite str_app_cons. cbn.
  destruct (Ascii.eqb c "010").
  - destruct r; [reflexivity | discriminate].
  - intros H. by rewrite (IH H).
Qed.

Lemma readlines_open l :
  str_truthy l = true → no_lf l = true → readlines l = [l].
Proof.
  induction l as [|c r IH]; cbn; [discriminate|]. intros _.
  destruct (Ascii.eqb c "010"); cbn; [discriminate|]. intros H.
  destruct r as [|c' r']; [reflexivity|]. by rewrite (IH eq_refl H).
Qed.

Lemma readlines_writelines ls :
  lines_wf ls = true → readlines (writelines ls) = ls.
Proof.
  induction ls as [|l ls IH]; [done|]. cbn [lines_wf].
  intros [Hl Hls]%andb_true_iff. rewrite writelines_cons.
  apply orb_true_iff in Hl as [Ht|Ho].
  - by rewrite (readlines_terminated _ _ Ht), (IH Hls).
  - destruct ls as [|l' ls]; [|discriminate].
    apply andb_true_iff in Ho as [Hne Hlf]. cbn in Hne.
    change (writelines []) with EmptyString.
    rewrite str_app_nil_r. by apply readlines_open.
Qed.

(** A rewritten seen file holds no carriage return, so it is read back as
    written. *)
Lemma reread_writelines f raw :
  translate_newlines
    (writelines (List.filter f (readlines (translate_newlines raw))))
  = writelines (List.filter f (readlines (translate_newlines raw))).
Proof.
  unfold translate_newlines at 1. apply translate_no_cr.
  rewrite no_cr_writelines. apply forallb_forall. intros l Hl.
  apply filter_In in Hl as [Hl _].
  pose proof (translate_is_no_cr false raw) as Hn.
  rewrite <- (writelines_readlines (translate_newlines_from false raw)),
    no_cr_writelines in Hn.
  by apply (proj1 (forallb_forall _ _) Hn).
Qed.

(** What a rewritten seen file reads back as. *)
Lemma reread_filtered f raw :
  readlines (translate_newlines
               (writelines (List.filter f (readlines (translate_newlines raw)))))
  = List.filter f (readlines (translate_newlines raw)).
Proof.
  unfold translate_newlines at 1. rewrite translate_no_cr.
  - apply readlines_writelines, filter_wf, readlines_wf.
  - rewrite no_cr_writelines. apply forallb_forall. intros l Hl.
    apply filter_In in Hl as [Hl _].
    pose proof (translate_is_no_cr false raw) as Hn.
    rewrite <- (writelines_readlines (translate_newlines_from false raw)),
      no_cr_writelines in Hn.
    by apply (proj1 (forallb_forall _ _) Hn).
Qed.

Lemma elem_of_loaded (ls : list string) u :
  u ∈ (list_to_set (List.filter str_truthy (map strip_ws ls)) : gset string)
  ↔ str_truthy u = true ∧ ∃ l, l ∈ ls ∧ strip_ws l = u.
Proof.
  rewrite elem_of_list_to_set, list_elem_of_In, filter_In, in_map_iff.
  split.
  - intros [(l & <- & Hl) Hu]. split; [done|]. exists l.
    by rewrite list_elem_of_In.
  - intros [Hu (l & Hl & <-)]. split; [|done]. exists l.
    by rewrite <- list_elem_of_In.
Qed.

Lemma missing_insert files path text :
  str_truthy path = true → Disk.missing (<[path := text]> files) path = false.
Proof.
  intros Hp. unfold Disk.missing, Disk.file_exists.
  rewrite Hp, lookup_insert_eq. reflexivity.
Qed.

Lemma missing_false files path :
  Disk.missing files path = false →
  str_truthy path = true ∧ is_Some (files !! path).
Proof.
  unfold Disk.missing, Disk.file_exists.
  intros [Hp He]%orb_false_iff. apply negb_false_iff in Hp, He.
  split; [done|]. by apply bool_decide_eq_true_1 in He.
Qed.

Lemma remove_from_seen_load (files : gmap string string)
    (path url : string) :
  let files' := (Disk.remove_from_seen files path url).2 in
  Disk.load_seen files' path = Disk.load_seen files path ∖ {[url]}
  ∧ ∀ other, other ≠ path → files' !! other = files !! other.
Proof.
  cbv zeta. unfold Disk.remove_from_seen.
  destruct (Disk.missing files path) eqn:Hm.
  { cbn. split; [|done]. unfold Disk.load_seen. rewrite Hm.
    apply set_eq. intros u. rewrite elem_of_difference.
    split; [by intros ?%not_elem_of_empty | by intros [?%not_elem_of_empty _]]. }
  destruct (missing_false _ _ Hm) as [Hp _].
  set (lines := readlines (Disk.read_text files path)).
  set (keep := fun l => negb (String.eqb (strip_ws l) url)).
  assert (Hold : ∀ u, u ∈ Disk.load_seen files path
                      ↔ str_truthy u = true ∧ ∃ l, l ∈ lines ∧ strip_ws l = u).
  { intros u. unfold Disk.load_seen. rewrite Hm. apply elem_of_loaded. }
  destruct (Nat.eqb_spec (length (List.filter keep lines)) (length lines))
    as [Hlen|Hlen]; cbn [snd].
  - split; [|done]. apply set_eq. intros u.
    rewrite elem_of_difference, elem_of_singleton, Hold.
    split; [|tauto]. intros [Hu (l & Hl & <-)].
    split; [eauto|]. intros Heq.
    apply filter_length_forallb in Hlen.
    rewrite forallb_forall in Hlen.
    specialize (Hlen l (proj1 (list_elem_of_In _ _) Hl)).
    unfold keep in Hlen. rewrite Heq, String.eqb_refl in Hlen. discriminate.
  - split; [|intros other Ho; by rewrite lookup_insert_ne].
    apply set_eq. intros u.
    rewrite elem_of_difference, elem_of_singleton, Hold.
    unfold Disk.load_seen. rewrite (missing_insert _ _ _ Hp).
    unfold Disk.read_text at 1. rewrite lookup_insert_eq.
    unfold default, from_option, id.
    unfold lines, Disk.read_text. unfold default, from_option, id.
    rewrite reread_filtered, elem_of_loaded.
    split.
    + intros [Hu (l & Hl & <-)].
      apply list_elem_of_In, filter_In in Hl as [Hl Hk].
      split; [split; [done|]; exists l; split; [|done];
              by apply list_elem_of_In|].
      intros Heq. unfold keep in Hk.
      rewrite Heq, String.eqb_refl in Hk. discriminate.
    + intros [[Hu (l & Hl & <-)] Hne]. split; [done|]. exists l.
      split; [|done]. apply list_elem_of_In, filter_In.
      split; [by apply list_elem_of_In in Hl|]. unfold keep.
      apply negb_true_iff, String.eqb_neq. exact Hne.
Qed.

(** X1: [remove_from_seen] deletes exactly the given URL from what
    [load_seen] returns (whether it rewrites the file or not, and also when
    the file is missing), and touches no other file. *)
Theorem remove_from_seen_removes_exactly (files : gmap string string)
    (path url : string) :
  let files' := (Disk.remove_from_seen files path url).2 in
  Disk.load_seen files' path = Disk.load_seen files path ∖ {[url]}
  ∧ ∀ other, other ≠ path → files' !! other = files !! other.
Proof. apply (remove_from_seen_load files path url). Qed.

Lemma filter_all_length {A} (f : A -> bool) (l : list A) :
  (length (List.filter f l) =? length l)%nat = forallb f l.
Proof.
  destruct (forallb f l) eqn:E.
  - by rewrite (forallb_filter_id _ _ E), Nat.eqb_refl.
  - apply Nat.eqb_neq. intros H. apply filter_length_forallb in H. congruence.
Qed.

Lemma forallb_false_elem {A} (f : A -> bool) (l : list A) :
  forallb f l = false → ∃ x, x ∈ l ∧ f x = false.
Proof.
  induction l as [|a l IH]; cbn; [discriminate|].
  destruct (f a) eqn:E; cbn.
  - intros (x & Hx & Hf)%IH. exists x. split; [by right | done].
  - intros _. exists a. split; [by left | done].
Qed.

Lemma remove_from_seen_result (files : gmap string string)
    (path url : string) :
  str_truthy url = true →
  (Disk.remove_from_seen files path url).1
  = bool_decide (url ∈ Disk.load_seen files path).
Proof.
  intros Hu. unfold Disk.remove_from_seen, Disk.load_seen.
  destruct (Disk.missing files path) eqn:Hm; [done|].
  rewrite filter_all_length.
  set (lines := readlines (Disk.read_text files path)).
  destruct (forallb _ lines) eqn:E; cbn [fst negb].
  - symmetry. apply bool_decide_eq_false. rewrite elem_of_loaded.
    intros [_ (l & Hl & Heq)]. rewrite forallb_forall in E.
    specialize (E l (proj1 (list_elem_of_In _ _) Hl)).
    rewrite Heq, String.eqb_refl in E. discriminate.
  - symmetry. apply bool_decide_eq_true. rewrite elem_of_loaded.
    split; [done|].
    apply forallb_false_elem in E as (l & Hl & Hf).
    exists l. split; [done|].
    apply negb_false_iff in Hf. by apply String.eqb_eq.
Qed.

(** X2: for a non-empty URL, [remove_from_seen] returns [True] exactly when
    the URL was among the loaded ones. *)
Theorem remove_from_seen_reports_presence (files : gmap string string)
    (path url : string) :
  str_truthy url = true →
  (Disk.remove_from_seen files path url).1
  = bool_decide (url ∈ Disk.load_seen files path).
Proof. apply (remove_from_seen_result files path url). Qed.

Lemma remove_from_seen_reports_presence_witness :
  str_truthy "http://a" = true
  ∧ (Disk.remove_from_seen
       (Disk.append_seen ∅ "seen" "http://a") "seen" "http://a").1 = true.
Proof.
  split; [reflexivity|].
  rewrite (remove_from_seen_reports_presence _ "seen" "http://a" eq_refl).
  vm_compute. reflexivity.
Defined.

Lemma no_newline_no_cr s : no_newline s = true → no_cr s = true.
Proof.
  induction s as [|c r IH]; cbn; [done|].
  intros [[_ H1]%andb_true_iff H2]%andb_true_iff. by rewrite H1, IH.
Qed.

Lemma no_newline_no_lf s : no_newline s = true → no_lf s = true.
Proof.
  induction s as [|c r IH]; cbn; [done|].
  intros [[H1 _]%andb_true_iff H2]%andb_true_iff. by rewrite H1, IH.
Qed.

Lemma is_terminated_line body :
  no_lf body = true → is_terminated (body +:+ nl) = true.
Proof.
  induction body as [|c r IH]; [done|]. rewrite str_app_cons. cbn.
  intros [Hc Hr]%andb_true_iff. apply negb_true_iff in Hc. rewrite Hc.
  by apply IH.
Qed.

Lemma is_terminated_split l :
  is_terminated l = true → ∃ body, l = body +:+ nl.
Proof.
  induction l as [|c r IH]; cbn; [discriminate|].
  destruct (Ascii.eqb_spec c "010") as [->|Hc].
  - destruct r; [|discriminate]. intros _. by exists EmptyString.
  - intros [body ->]%IH. by exists (String c body).
Qed.

(** A clean line written after any text is read back unchanged. *)
Lemma translate_app_line raw b url :
  str_truthy url = true → no_newline url = true →
  translate_newlines_from b (raw +:+ url +:+ nl)
  = translate_newlines_from b raw +:+ url +:+ nl.
Proof.
  intros Hu Hn. revert b. induction raw as [|c r IH]; intros b.
  - rewrite !str_app_nil_l. destruct url as [|c r]; [discriminate|].
    rewrite str_app_cons. cbn in Hn |- *.
    apply andb_true_iff in Hn as [[H1 H2]%andb_true_iff Hr].
    apply negb_true_iff in H1, H2. rewrite H1, H2.
    rewrite translate_no_cr; [reflexivity|].
    rewrite no_cr_app. by rewrite (no_newline_no_cr _ Hr).
  - rewrite !str_app_cons. cbn.
    destruct (Ascii.eqb c "013"); [by rewrite IH|].
    destruct (Ascii.eqb c "010"); [destruct b|]; by rewrite IH.
Qed.

Lemma readlines_nonempty c r : readlines (String c r) ≠ [].
Proof.
  cbn. destruct (Ascii.eqb c "010"); [done|]. by destruct (readlines r).
Qed.

Lemma readlines_app t s :
  readlines ((t +:+ nl) +:+ s) = readlines (t +:+ nl) ++ readlines s.
Proof.
  induction t as [|c r IH]; [reflexivity|].
  rewrite !str_app_cons. cbn [readlines].
  destruct (Ascii.eqb c "010"); [by rewrite IH|].
  rewrite IH. destruct (readlines (r +:+ nl)) as [|l ls] eqn:E; [|done].
  destruct r; by apply readlines_nonempty in E.
Qed.

(** Appending a clean line to a terminated text adds one line. *)
Lemma readlines_append_line text url :
  ends_with_newline text → no_newline url = true →
  readlines (text +:+ url +:+ nl) = readlines text ++ [url +:+ nl].
Proof.
  intros Ht Hn.
  assert (Hl : readlines (url +:+ nl) = [url +:+ nl]).
  { rewrite <- (str_app_nil_r (url +:+ nl)) at 1.
    rewrite readlines_terminated; [done|].
    by apply is_terminated_line, no_newline_no_lf. }
  destruct Ht as [->|[t ->]]; [by rewrite str_app_nil_l|].
  by rewrite readlines_app, Hl.
Qed.

Lemma read_text_insert files path text :
  Disk.read_text (<[path := text]> files) path = translate_newlines text.
Proof. unfold Disk.read_text. by rewrite lookup_insert_eq. Qed.

Lemma append_seen_load (files : gmap string string)
    (path url : string) :
  str_truthy path = true →
  file_terminated files path →
  clean_url url →
  Disk.load_seen (Disk.append_seen files path url) path
  = Disk.load_seen files path ∪ {[url]}.
Proof.
  intros Hp Ht (Hu & Hn & Hs).
  unfold Disk.append_seen. rewrite Hp. cbn [negb].
  unfold Disk.load_seen at 1.
  rewrite (missing_insert _ _ _ Hp), read_text_insert.
  fold nl. unfold translate_newlines.
  rewrite (translate_app_line _ _ _ Hu Hn).
  change (translate_newlines_from false (default EmptyString (files !! path)))
    with (Disk.read_text files path).
  rewrite (readlines_append_line _ _ Ht Hn).
  apply set_eq. intros u.
  rewrite elem_of_loaded, elem_of_union, elem_of_singleton.
  assert (Hold : u ∈ Disk.load_seen files path
                 ↔ str_truthy u = true
                   ∧ ∃ l, l ∈ readlines (Disk.read_text files path)
                          ∧ strip_ws l = u).
  { unfold Disk.load_seen. destruct (Disk.missing files path) eqn:Hm.
    - split; [by intros ?%not_elem_of_empty|].
      intros [_ (l & Hl & _)]. exfalso.
      unfold Disk.missing, Disk.file_exists in Hm. rewrite Hp in Hm.
      cbn in Hm. apply negb_true_iff, bool_decide_eq_false_1 in Hm.
      unfold Disk.read_text in Hl.
      destruct (files !! path) eqn:E; [by destruct Hm|].
      by apply elem_of_nil in Hl.
    - apply elem_of_loaded. }
  rewrite Hold. split.
  - intros [Hut (l & [Hl|Hl%list_elem_of_singleton]%elem_of_app & <-)].
    + left. eauto.
    + right. subst l. exact Hs.
  - intros [[Hut (l & Hl & <-)]| ->].
    + split; [done|]. exists l. split; [|done]. apply elem_of_app. by left.
    + split; [done|]. exists (url +:+ nl). split; [|done].
      apply elem_of_app. right. by apply list_elem_of_singleton.
Qed.

(** X3: appending a clean URL to a seen file that is empty, missing, or
    ends with a line feed adds exactly that URL to what [load_seen]
    returns. *)
Theorem append_seen_then_load (files : gmap string string)
    (path url : string) :
  str_truthy path = true →
  file_terminated files path →
  clean_url url →
  Disk.load_seen (Disk.append_seen files path url) path
  = Disk.load_seen files path ∪ {[url]}.
Proof. apply (append_seen_load files path url). Qed.

Lemma clean_example : clean_url "https://www.svtplay.se/film".
Proof. repeat split. Qed.

Lemma append_seen_then_load_witness :
  str_truthy "seen_urls.txt" = true
  ∧ file_terminated ∅ "seen_urls.txt"
  ∧ clean_url "https://www.svtplay.se/film"
  ∧ Disk.load_seen
      (Disk.append_seen ∅ "seen_urls.txt" "https://www.svtplay.se/film")
      "seen_urls.txt"
    = Disk.load_seen ∅ "seen_urls.txt" ∪ {["https://www.svtplay.se/film"]}.
Proof.
  assert (Ht : file_terminated ∅ "seen_urls.txt") by (by left).
  split; [reflexivity|]. split; [exact Ht|]. split; [apply clean_example|].
  apply (append_seen_then_load ∅ "seen_urls.txt" _ eq_refl Ht clean_example).
Defined.

Lemma translate_line_terminated s b :
  b = false ∨ str_truthy s = true →
  ∃ t, translate_newlines_from b (s +:+ nl) = t +:+ nl.
Proof.
  revert b. induction s as [|c r IH]; intros b Hb.
  - destruct Hb as [->|?]; [|done]. by exists EmptyString.
  - rewrite str_app_cons. cbn [translate_newlines_from].
    destruct (Ascii.eqb c "013").
    { destruct r as [|c' r'].
      - by exists EmptyString.
      - destruct (IH true) as [t ->]; [by right|]. by exists (String "010" t). }
    destruct (IH false) as [t Ht]; [by left|]. rewrite Ht.
    destruct (Ascii.eqb c "010"); [destruct b|].
    + by exists t.
    + by exists (String "010" t).
    + by exists (String c t).
Qed.

Lemma readlines_all_terminated t :
  forallb is_terminated (readlines (t +:+ nl)) = true.
Proof.
  induction t as [|c r IH]; [reflexivity|].
  rewrite str_app_cons. cbn [readlines].
  destruct (Ascii.eqb c "010") eqn:E.
  - cbn. by rewrite E.
  - destruct (readlines (r +:+ nl)) as [|l ls] eqn:El.
    + destruct r; by apply readlines_nonempty in El.
    + cbn in *. by rewrite E.
Qed.

Lemma writelines_terminated ls :
  forallb is_terminated ls = true → ends_with_newline (writelines ls).
Proof.
  induction ls as [|l ls IH]; [by left|]. cbn [forallb].
  intros [[body ->]%is_terminated_split Hls]%andb_true_iff.
  rewrite writelines_cons. right.
  destruct (IH Hls) as [->|[t ->]].
  - exists body. by rewrite str_app_nil_r.
  - exists ((body +:+ nl) +:+ t). by rewrite !str_app_assoc.
Qed.

Lemma forallb_filter_mono {A} (p f : A -> bool) (l : list A) :
  forallb p l = true → forallb p (List.filter f l) = true.
Proof.
  rewrite !forallb_forall. intros H x [Hx _]%filter_In. by apply H.
Qed.

Lemma append_seen_terminated files path url :
  str_truthy path = true →
  file_terminated (Disk.append_seen files path url) path.
Proof.
  intros Hp. unfold file_terminated, Disk.append_seen. rewrite Hp.
  cbn [negb]. rewrite read_text_insert. fold nl.
  rewrite <- str_app_assoc. unfold translate_newlines.
  destruct (translate_line_terminated
              (default EmptyString (files !! path) +:+ url) false)
    as [t ->]; [by left|].
  right. by exists t.
Qed.

(** X4: the seen files stay line-terminated: after [append_seen] the file
    ends with a line feed whatever was there and whatever is appended, and
    [remove_from_seen] and the [--mark-complete] branch keep a file that is
    empty or ends with a line feed that way.  (So an appended URL never
    runs into the line before it.) *)
Theorem seen_file_stays_terminated (files : gmap string string)
    (path url : string) :
  (str_truthy path = true →
   file_terminated (Disk.append_seen files path url) path)
  ∧ (file_terminated files path →
     file_terminated (Disk.remove_from_seen files path url).2 path
     ∧ file_terminated (Disk.mark_complete files path url) path).
Proof.
  assert (Happ : str_truthy path = true →
                 file_terminated (Disk.append_seen files path url) path)
    by apply append_seen_terminated.
  split; [exact Happ|]. intros Ht. split.
  - unfold Disk.remove_from_seen.
    destruct (Disk.missing files path) eqn:Hm; [exact Ht|].
    destruct (_ =? _)%nat; [exact Ht|]. cbn [snd].
    unfold file_terminated. rewrite read_text_insert.
    unfold Disk.read_text. rewrite reread_writelines.
    apply writelines_terminated, forallb_filter_mono.
    destruct Ht as [E|[t E]]; unfold Disk.read_text in E; rewrite E.
    + reflexivity.
    + apply readlines_all_terminated.
  - unfold Disk.mark_complete. case_bool_decide; [exact Ht|].
    destruct (str_truthy path) eqn:Hp; [by apply Happ|].
    unfold Disk.append_seen. by rewrite Hp.
Qed.

Lemma seen_file_stays_terminated_witness :
  str_truthy "seen" = true
  ∧ file_terminated
      (Disk.append_seen {[ "seen" := "http://a" ]} "seen" "http://b") "seen".
Proof.
  split; [reflexivity|].
  apply (seen_file_stays_terminated {[ "seen" := "http://a" ]} "seen"
           "http://b").
  reflexivity.
Defined.

(** Why the invariant matters: appended to a file without final line feed,
    a URL runs into the last line, and neither is loaded. *)
Example append_to_unterminated_file :
  elements
    (Disk.load_seen
       (Disk.append_seen {[ "seen" := "http://a" ]} "seen" "http://b") "seen")
  = ["http://ahttp://b"].
Proof. vm_compute. reflexivity. Qed.

Lemma mark_unmark_load (files : gmap string string)
    (seen_file url : string) :
  str_truthy seen_file = true →
  file_terminated files seen_file →
  clean_url url →
  let marked := Disk.mark_complete files seen_file url in
  Disk.load_seen marked seen_file = Disk.load_seen files seen_file ∪ {[url]}
  ∧ Disk.mark_complete marked seen_file url = marked
  ∧ (Disk.unmark_complete marked seen_file url).1 = true
  ∧ Disk.load_seen (Disk.unmark_complete marked seen_file url).2 seen_file
    = Disk.load_seen files seen_file ∖ {[url]}.
Proof.
  intros Hp Ht Hc marked.
  assert (Hload : Disk.load_seen marked seen_file
                  = Disk.load_seen files seen_file ∪ {[url]}).
  { unfold marked, Disk.mark_complete. case_bool_decide as Hin.
    - apply set_eq. intros u.
      rewrite elem_of_union, elem_of_singleton. split; [tauto|].
      intros [?| ->]; done.
    - by apply append_seen_load. }
  assert (Hin : url ∈ Disk.load_seen marked seen_file).
  { rewrite Hload, elem_of_union, elem_of_singleton. by right. }
  split; [exact Hload|]. split; [|split].
  - unfold Disk.mark_complete at 1. by rewrite bool_decide_eq_true_2.
  - unfold Disk.unmark_complete.
    rewrite remove_from_seen_result by apply Hc.
    by apply bool_decide_eq_true_2.
  - unfold Disk.unmark_complete.
    rewrite (proj1 (remove_from_seen_load marked seen_file url)).
    rewrite Hload. apply set_eq. intros u.
    rewrite !elem_of_difference, elem_of_union, elem_of_singleton. tauto.
Qed.

(** X5: on a seen file that is missing, empty or line-terminated, marking a
    clean URL complete makes it loaded and changes nothing else in the
    loaded set; marking it again changes nothing at all; and unmarking it
    afterwards reports success and leaves what was loaded before, without
    the URL. *)
Theorem mark_then_unmark (files : gmap string string)
    (seen_file url : string) :
  str_truthy seen_file = true →
  file_terminated files seen_file →
  clean_url url →
  let marked := Disk.mark_complete files seen_file url in
  Disk.load_seen marked seen_file = Disk.load_seen files seen_file ∪ {[url]}
  ∧ Disk.mark_complete marked seen_file url = marked
  ∧ (Disk.unmark_complete marked seen_file url).1 = true
  ∧ Disk.load_seen (Disk.unmark_complete marked seen_file url).2 seen_file
    = Disk.load_seen files seen_file ∖ {[url]}.
Proof. apply (mark_unmark_load files seen_file url). Qed.

Lemma mark_then_unmark_witness :
  str_truthy "seen_urls.txt" = true
  ∧ file_terminated ∅ "seen_urls.txt"
  ∧ clean_url "https://www.svtplay.se/film"
  ∧ (Disk.unmark_complete
       (Disk.mark_complete ∅ "seen_urls.txt" "https://www.svtplay.se/film")
       "seen_urls.txt" "https://www.svtplay.se/film").1 = true.
Proof.
  assert (Ht : file_terminated ∅ "seen_urls.txt") by (by left).
  split; [reflexivity|]. split; [exact Ht|]. split; [apply clean_example|].
  apply (mark_then_unmark ∅ "seen_urls.txt" _ eq_refl Ht clean_example).
Defined.

Lemma stream_spec chunks completes written :
  Disk.stream chunks completes written
  = (written +:+ body_of chunks, completes || has_empty_chunk chunks).
Proof.
  revert written. induction chunks as [|chunk rest IH]; intros written.
  - cbn. by rewrite str_app_nil_r, orb_false_r.
  - cbn. destruct (str_truthy chunk); cbn.
    + by rewrite IH, str_app_assoc.
    + by rewrite str_app_nil_r, orb_true_r.
Qed.

(** X6: [download_file] leaves no partial file: when it returns [False] the
    destination does not exist afterwards (even if it existed before);
    when it returns [True] the destination holds exactly the chunks read up
    to the end of the stream; when the URL is rejected the files are as
    before.  It returns [True] exactly when the stream ended before any
    exception.  No other file is touched. *)
Theorem download_file_no_partial_file (files : gmap string string)
    (session : http_session) (dest_path : string) :
  let res := Disk.download_file files session dest_path in
  match res.1 with
  | Some true =>
      ∃ chunks completes,
        session = Streaming chunks completes
        ∧ completes || has_empty_chunk chunks = true
        ∧ res.2 !! dest_path = Some (body_of chunks)
  | Some false =>
      res.2 !! dest_path = None
      ∧ (session = FailedBeforeOpen
         ∨ ∃ chunks, session = Streaming chunks false
                     ∧ has_empty_chunk chunks = false)
  | None => session = InvalidRequest ∧ res.2 = files
  end
  ∧ ∀ other, other ≠ dest_path → res.2 !! other = files !! other.
Proof.
  destruct session as [| |chunks completes]; cbn.
  - done.
  - split; [|intros o Ho; by rewrite lookup_delete_ne].
    split; [apply lookup_delete_eq | by left].
  - rewrite stream_spec, str_app_nil_l.
    destruct (completes || has_empty_chunk chunks) eqn:E; cbn.
    + split; [|intros o Ho; by rewrite lookup_insert_ne].
      exists chunks, completes. by rewrite lookup_insert_eq.
    + split; [|intros o Ho; by rewrite lookup_delete_ne].
      apply orb_false_iff in E as [-> E].
      split; [apply lookup_delete_eq|]. right. by exists chunks.
Qed.

(** A poster cut off after two chunks, over an old file. *)
Example download_file_interrupted :
  let res := Disk.download_file {[ "poster.jpg" := "old" ]}
               (Streaming ["ab"; "cd"] false) "poster.jpg" in
  res.1 = Some false ∧ res.2 !! "poster.jpg" = None.
Proof. vm_compute. done. Qed.

Lemma printable_plain c :
  printable c = true →
  ascii_ws c = false
  ∧ Ascii.eqb c "010" = false ∧ Ascii.eqb c "013" = false
  ∧ (∀ c2, ws2 c c2 = false) ∧ (∀ c2 c3, ws3 c c2 c3 = false).
Proof.
  destruct c as [b0 b1 b2 b3 b4 b5 b6 b7].
  destruct b0, b1, b2, b3, b4, b5, b6, b7; intros H;
    try discriminate H; repeat split; intros; reflexivity.
Qed.

Lemma lstrip_ws_printable c r :
  printable c = true → lstrip_ws (String c r) = String c r.
Proof.
  intros (Hw & _ & _ & H2 & H3)%printable_plain. cbn. rewrite Hw.
  destruct r as [|c2 r2]; [done|]. rewrite H2.
  destruct r2 as [|c3 r3]; [done|]. by rewrite H3.
Qed.

Lemma rstrip_ws_printable url :
  all_printable url = true → rstrip_ws (url +:+ nl) = url.
Proof.
  induction url as [|c r IH]; [reflexivity|].
  cbn [all_printable]. intros [Hc Hr]%andb_true_iff.
  rewrite str_app_cons. cbn [rstrip_ws]. unfold all_ws.
  rewrite (lstrip_ws_printable _ _ Hc). cbn. by rewrite (IH Hr).
Qed.

Lemma no_newline_printable url :
  all_printable url = true → no_newline url = true.
Proof.
  induction url as [|c r IH]; [reflexivity|]. cbn.
  intros [(_ & H1 & H2 & _)%printable_plain Hr]%andb_true_iff.
  by rewrite H1, H2, (IH Hr).
Qed.

Lemma printable_url_clean url : printable_url url = true → clean_url url.
Proof.
  intros [Hne Hp]%andb_true_iff. split; [done|].
  split; [by apply no_newline_printable|].
  unfold strip_ws. destruct url as [|c r]; [discriminate|].
  pose proof Hp as [Hc _]%andb_true_iff.
  rewrite str_app_cons, (lstrip_ws_printable _ _ Hc), <- str_app_cons.
  by apply rstrip_ws_printable.
Qed.

(** X7: a URL of printable ASCII characters without space that is marked
    complete is found in the seen set the next time the file is loaded,
    provided the file was missing, empty or line-terminated. *)
Theorem marked_url_is_loaded (files : gmap string string)
    (seen_file url : string) :
  printable_url url = true →
  str_truthy seen_file = true →
  file_terminated files seen_file →
  url ∈ Disk.load_seen (Disk.mark_complete files seen_file url) seen_file.
Proof.
  intros Hu Hp Ht.
  destruct (mark_unmark_load files seen_file url Hp Ht
              (printable_url_clean _ Hu)) as [-> _].
  rewrite elem_of_union, elem_of_singleton. by right.
Qed.


Lemma marked_url_is_loaded_witness :
  printable_url "https://www.svtplay.se/film" = true
  ∧ str_truthy "seen_urls.txt" = true
  ∧ file_terminated ∅ "seen_urls.txt"
  ∧ "https://www.svtplay.se/film"
    ∈ Disk.load_seen
        (Disk.mark_complete ∅ "seen_urls.txt" "https://www.svtplay.se/film")
        "seen_urls.txt".
Proof.
  assert (Ht : file_terminated ∅ "seen_urls.txt") by (by left).
  split; [reflexivity|]. split; [reflexivity|]. split; [exact Ht|].
  apply (marked_url_is_loaded ∅ "seen_urls.txt" "https://www.svtplay.se/film"
           eq_refl eq_refl Ht).
Defined.

(** ** More on the pure helpers *)

Lemma safe_get_null keys : _safe_get JNull keys = JNull.
Proof. by destruct keys. Qed.

(** X8: [_safe_get] composes along key paths: looking up a path is looking
    up its first part and then the rest in the result; a value that is not
    a dict on the way gives [None] at once, never an exception. *)
Theorem safe_get_composes (d : json) (keys1 keys2 : list string) :
  _safe_get d (keys1 ++ keys2) = _safe_get (_safe_get d keys1) keys2
  ∧ (keys1 ≠ [] → (∀ kvs, d ≠ JObj kvs) →
     _safe_get d (keys1 ++ keys2) = JNull).
Proof.
  split.
  - revert d. induction keys1 as [|k ks IH]; intros d; [reflexivity|].
    cbn. destruct d; try (by rewrite safe_get_null). apply IH.
  - intros Hne Hd. destruct keys1 as [|k ks]; [done|]. cbn.
    destruct d; try reflexivity. by destruct (Hd kvs).
Qed.

Lemma safe_get_composes_witness :
  _safe_get (JInt 5) (["item"] ++ ["urls"; "svtplay"]) = JNull.
Proof.
  apply (safe_get_composes (JInt 5) ["item"] ["urls"; "svtplay"]); done.
Defined.

Section StripMore.
Variable cs : list ascii.

Lemma chars_of_inj (a b : string) : chars_of a = chars_of b → a = b.
Proof.
  intros H. rewrite <- (string_of_list_ascii_of_string a),
    <- (string_of_list_ascii_of_string b). by rewrite H.
Qed.

Lemma lstrip_fixed s :
  (∀ c r, chars_of s = c :: r → mem_chars cs c = false) → lstrip cs s = s.
Proof.
  destruct s as [|c r]; [done|]. intros H. cbn.
  by rewrite (H c (chars_of r) eq_refl).
Qed.

Lemma rstrip_fixed s :
  (∀ c r, chars_of s = r ++ [c] → mem_chars cs c = false) → rstrip cs s = s.
Proof.
  intros H. destruct (rstrip_split cs s) as (post & E & F).
  induction post as [|c post' _] using rev_ind.
  - rewrite app_nil_r in E. by apply chars_of_inj.
  - rewrite app_assoc in E. specialize (H _ _ E).
    apply Forall_app in F as [_ F]. apply Forall_inv in F. congruence.
Qed.

Lemma strip_idempotent s : strip cs (strip cs s) = strip cs s.
Proof.
  destruct (strip_ends cs s) as [Hh Hl]. unfold strip at 1.
  rewrite (lstrip_fixed _ Hh). by apply rstrip_fixed.
Qed.

Lemma re_sub_class_fixed s :
  Forall (fun c => mem_chars cs c = false) (chars_of s) →
  re_sub_class cs s = s.
Proof.
  induction s as [|c r IH]; cbn; [done|].
  intros [Hc Hr]%Forall_cons. by rewrite Hc, (IH Hr).
Qed.

Lemma re_sub_class_clean s :
  Forall (fun c => mem_chars cs c = false) (chars_of (re_sub_class cs s)).
Proof.
  induction s as [|c r IH]; cbn; [constructor|].
  destruct (mem_chars cs c) eqn:E; cbn; [done|]. by constructor.
Qed.
End StripMore.

Lemma sanitize_clean name :
  Forall (fun c => mem_chars forbidden_chars c = false)
         (chars_of (sanitize_filename name)).
Proof.
  unfold sanitize_filename.
  destruct (strip_split dot_space (re_sub_class forbidden_chars name))
    as (pre & post & E & _ & _).
  pose proof (re_sub_class_clean forbidden_chars name) as H.
  rewrite E in H. by apply Forall_app in H as [_ [H _]%Forall_app].
Qed.

(** X9: [sanitize_filename] is idempotent, and its result contains none of
    the nine forbidden characters. *)
Theorem sanitize_filename_idempotent (name : string) :
  sanitize_filename (sanitize_filename name) = sanitize_filename name
  ∧ Forall (fun c => mem_chars forbidden_chars c = false)
           (chars_of (sanitize_filename name)).
Proof.
  split; [|apply sanitize_clean].
  unfold sanitize_filename at 1.
  rewrite (re_sub_class_fixed _ _ (sanitize_clean name)).
  unfold sanitize_filename. apply strip_idempotent.
Qed.

(** X10: [sanitize_filename] returns the empty string exactly when every
    character of the name is a forbidden character, a dot or a space (so a
    title such as three dots gives an empty folder name). *)
Theorem sanitize_filename_empty (name : string) :
  sanitize_filename name = EmptyString
  ↔ Forall (fun c => vanishing c = true) (chars_of name).
Proof.
  unfold sanitize_filename.
  destruct (strip_split dot_space (re_sub_class forbidden_chars name))
    as (pre & post & E & Fpre & Fpost).
  rewrite chars_re_sub_class in E. split.
  - intros Hempty. rewrite Hempty in E.
    change (pre ++ chars_of EmptyString ++ post) with (pre ++ post) in E.
    apply Forall_forall. intros c Hc. unfold vanishing.
    destruct (mem_chars forbidden_chars c) eqn:Hf; [done|]. cbn.
    assert (Hin : c ∈ pre ++ post).
    { rewrite <- E. apply list_elem_of_In, filter_In.
      split; [by apply list_elem_of_In|]. cbn beta. by rewrite Hf. }
    apply elem_of_app in Hin as [Hin|Hin].
    + by apply (proj1 (Forall_forall _ _) Fpre).
    + by apply (proj1 (Forall_forall _ _) Fpost).
  - intros Hall.
    destruct (strip dot_space (re_sub_class forbidden_chars name))
      as [|c r] eqn:Es; [done|]. exfalso.
    destruct (strip_ends dot_space (re_sub_class forbidden_chars name))
      as [Hh _].
    rewrite Es in Hh. specialize (Hh c (chars_of r) eq_refl).
    assert (Hin : c ∈ List.filter
                    (fun c => negb (mem_chars forbidden_chars c))
                    (chars_of name)).
    { rewrite E. apply elem_of_app. right. by left. }
    apply list_elem_of_In, filter_In in Hin as [Hin Hf].
    apply list_elem_of_In in Hin.
    pose proof (proj1 (Forall_forall _ _) Hall c Hin) as Hv.
    unfold vanishing in Hv. apply negb_true_iff in Hf.
    rewrite Hf, Hh in Hv. discriminate.
Qed.

Example sanitize_filename_dots : sanitize_filename ". . ?" = EmptyString.
Proof. reflexivity. Qed.

Lemma after_last_slash_no_slash s :
  str_contains "/" (after_last_slash s) = false.
Proof.
  induction s as [|c r IH]; [reflexivity|]. cbn [after_last_slash].
  destruct (str_contains "/" r) eqn:Er; [exact IH|].
  destruct (Ascii.eqb_spec c "/") as [->|Hc]; [exact Er|].
  cbn -[Ascii.ascii_dec]. rewrite Er, orb_false_r.
  destruct (Ascii.ascii_dec "/" c) as [<-|?]; [done|reflexivity].
Qed.

Lemma parse_item_hint env item_data item_url is_single name_hint :
  parse_item env item_data = Ret (Some (item_url, is_single, name_hint)) →
  str_contains "/" name_hint = false.
Proof.
  unfold parse_item.
  destruct (subscript item_data "item") as [item|]; [|discriminate].
  destruct (subscript item "urls") as [urls|]; [|discriminate].
  destruct (subscript urls "svtplay") as [url_path|]; [|discriminate].
  destruct url_path; try (destruct (truthy _); discriminate).
  intros [= _ _ <-]. apply after_last_slash_no_slash.
Qed.

(** X11: the name hint [parse_item] derives from the path of an item never
    contains a slash. *)
Theorem name_hint_has_no_slash (env : Env) (item_data : json)
    (item_url name_hint : string) (is_single : bool) :
  parse_item env item_data = Ret (Some (item_url, is_single, name_hint)) →
  str_contains "/" name_hint = false.
Proof. apply parse_item_hint. Qed.

Lemma name_hint_has_no_slash_witness :
  parse_item failing_env (stub "/video/abc/film-x/" "Single")
  = Ret (Some ("https://www.svtplay.se/video/abc/film-x/", true, "film-x"))
  ∧ str_contains "/" "film-x" = false.
Proof.
  split; [reflexivity|].
  apply (name_hint_has_no_slash failing_env
           (stub "/video/abc/film-x/" "Single")
           "https://www.svtplay.se/video/abc/film-x/" "film-x" true).
  reflexivity.
Defined.

(** ** Invariants of a whole run *)

Lemma bind_assoc_run {A B C} (m : M A) (k : A -> M B) (h : B -> M C) w :
  (m ≫= (fun a => k a ≫= h)) w = ((m ≫= k) ≫= h) w.
Proof. rewrite !bind_run. by destruct (m w) as [[a|e] w1]. Qed.

Lemma preserves_assoc (R : World -> World -> Prop) {A B C}
    (m : M A) (k : A -> M B) (h : B -> M C) :
  preserves R ((m ≫= k) ≫= h) → preserves R (m ≫= (fun a => k a ≫= h)).
Proof. intros H w. rewrite bind_assoc_run. apply H. Qed.

(** The retry helper keeps a relation that its three actions keep. *)
Section Retry.
Variable env : Env.
Variable R : World -> World -> Prop.
Context `{!Reflexive R, !Transitive R}.
Variable url out errors_file : string.
Hypothesis R_tick : ∀ w, R w (set_tick S w).
Hypothesis R_popen :
  ∀ r w, R w (set_trace (fun t => t ++ [EvPopen (svtplay_dl_cmd url out) r])
                        w).
Hypothesis A_record : ∀ rc, preserves R (record_error env url rc errors_file).
Hypothesis A_clear : preserves R (clear_error url errors_file).

Lemma act_run_svtplay_dl dry : preserves R (run_svtplay_dl env url out dry).
Proof.
  unfold run_svtplay_dl. destruct dry; [by apply preserves_ret|].
  pres_bind; [intros w; apply R_tick|].
  pres_bind; [intros w; apply R_popen | by apply preserves_ret].
Qed.

Lemma act_download_with_retry dry :
  preserves R (download_with_retry env url out dry errors_file).
Proof.
  unfold download_with_retry.
  pres_bind; [by apply preserves_get|].
  destruct (is_permanent_error (errors a) url); [by apply preserves_ret|].
  pres_bind; [apply act_run_svtplay_dl|].
  destruct (a0 =? 0).
  { pres_bind; [apply A_clear | by apply preserves_ret]. }
  pres_bind; [apply act_run_svtplay_dl|].
  destruct (a1 =? 0).
  { pres_bind; [apply A_clear | by apply preserves_ret]. }
  pres_bind; [apply A_record | by apply preserves_ret].
Qed.
End Retry.

(** A relation that is kept by the few actions that change a store is kept
    by the whole run. *)
Section Actions.
Variable env : Env.
Variable args : Args.
Variable R : World -> World -> Prop.
Context `{!Reflexive R, !Transitive R}.
Variable ok : event -> Prop.
Hypothesis R_tick : ∀ w, R w (set_tick S w).
Hypothesis R_counter : ∀ f w, keeps_downloads f → R w (set_stats f w).
Hypothesis R_reset : ∀ w, R w (set_stats (fun _ => zero_stats) w).
Hypothesis R_emit :
  ∀ ev w, ok ev → R w (set_trace (fun t => t ++ [ev]) w).
Hypothesis ok_sleep : ∀ d, ok (EvSleep d).
Hypothesis ok_makedirs : ∀ p, ok (EvMakedirs p).
Hypothesis ok_download : ∀ u p, ok (EvDownloadFile u p).
Hypothesis A_retry :
  ∀ url out,
    preserves R (download_with_retry env url out (arg_dry_run args)
                   (arg_errors_file args)).
Hypothesis A_movie : ∀ url, preserves R (record_movie args url).
Hypothesis A_episode : ∀ url, preserves R (record_episode args url).
Hypothesis A_series :
  ∀ url found_new nm,
    preserves R (update_series_state env url found_new nm
                   (arg_series_state_file args)).

Lemma act_ask : preserves R ask.
Proof. intros w. apply R_tick. Qed.

Lemma act_emit ev : ok ev → preserves R (emit ev).
Proof. intros H w. by apply R_emit. Qed.

Lemma act_counter f : keeps_downloads f → preserves R (modify (set_stats f)).
Proof. intros H. apply preserves_modify. intros w. by apply R_counter. Qed.

Lemma act_read_stop : preserves R (read_stop env).
Proof.
  unfold read_stop. pres_bind; [apply act_ask | by apply preserves_ret].
Qed.

Lemma act_stop_or_limit : preserves R (stop_or_limit env args).
Proof.
  unfold stop_or_limit. pres_bind; [apply act_read_stop|].
  destruct a; [by apply preserves_ret|].
  pres_bind; [by apply preserves_get | by apply preserves_ret].
Qed.

Lemma act_maybe_sleep i n : preserves R (maybe_sleep env args i n).
Proof.
  unfold maybe_sleep.
  destruct ((arg_sleep args >? 0) && (Z.of_nat i <? Z.of_nat n - 1));
    [|by apply preserves_skip].
  pres_bind; [apply act_read_stop|].
  destruct a; [by apply preserves_skip | by apply act_emit].
Qed.

Lemma act_episode_loop folder n_new ep_i eps :
  preserves R (episode_loop env args folder n_new ep_i eps).
Proof.
  revert ep_i. induction eps as [|ep eps IH]; intros ep_i;
    cbn [episode_loop]; [by apply preserves_skip|].
  pres_bind; [apply act_stop_or_limit|].
  destruct a; [by apply preserves_skip|].
  pres_bind; [apply A_retry|].
  pres_bind.
  { destruct a.
    - apply (preserves_assoc R), A_episode.
    - by apply act_counter. }
  pres_bind; [apply act_maybe_sleep | apply IH].
Qed.

Lemma act_movie_path item_url folder :
  preserves R (movie_path env args item_url folder).
Proof.
  unfold movie_path.
  pres_bind; [by apply preserves_get|].
  destruct (is_permanent_error (errors a) item_url).
  { pres_bind; [by apply act_counter | by apply preserves_ret]. }
  pres_bind; [apply A_retry|].
  pres_bind; [|by apply preserves_ret].
  destruct a0.
  - apply (preserves_assoc R), A_movie.
  - by apply act_counter.
Qed.

Lemma act_series_path item_url folder html nm :
  preserves R (series_path env args item_url folder html nm).
Proof.
  unfold series_path.
  pres_bind; [by apply act_counter|].
  pres_bind; [by apply preserves_lift|].
  pres_bind; [by apply preserves_get|].
  pres_bind.
  { destruct (_ =? 0); [by apply preserves_skip | by apply act_counter]. }
  pres_bind; [apply act_episode_loop|].
  destruct (arg_dry_run args); [by apply preserves_skip | apply A_series].
Qed.

Lemma act_fetch_poster image_url poster_path :
  preserves R (fetch_poster env args image_url poster_path).
Proof.
  unfold fetch_poster.
  destruct image_url as [img|]; [|by apply preserves_skip].
  destruct (str_truthy img); [|by apply preserves_skip].
  pres_bind; [apply act_ask|].
  destruct (path_exists env a poster_path); [by apply preserves_skip|].
  destruct (arg_dry_run args); [by apply preserves_skip | by apply act_emit].
Qed.

Lemma act_handle_item cat item_url is_single name_hint html :
  preserves R (handle_item env args cat item_url is_single name_hint html).
Proof.
  unfold handle_item.
  pres_bind; [by apply preserves_lift|].
  destruct a as [[name0 year] image_url].
  pres_bind.
  { destruct (arg_dry_run args); [by apply preserves_skip | by apply act_emit]. }
  pres_bind; [apply act_fetch_poster|].
  destruct is_single; [apply act_movie_path|].
  pres_bind; [apply act_series_path | by apply preserves_ret].
Qed.

Lemma act_item_loop cat n idx items :
  preserves R (item_loop env args cat n idx items).
Proof.
  revert idx. induction items as [|item items IH]; intros idx;
    cbn [item_loop]; [by apply preserves_skip|].
  pres_bind; [apply act_stop_or_limit|].
  destruct a; [by apply preserves_skip|].
  pres_bind; [by apply preserves_lift|].
  destruct a as [[[item_url is_single] name_hint]|]; [|apply IH].
  pres_bind; [by apply preserves_get|].
  case_bool_decide.
  { pres_bind; [by apply act_counter | apply IH]. }
  pres_bind; [apply act_ask|].
  destruct (fetch_html env a0 item_url) as [html|].
  2:{ pres_bind; [by apply act_counter | apply IH]. }
  pres_bind; [apply act_handle_item|].
  pres_bind; [|apply IH].
  destruct a1; [apply act_maybe_sleep | by apply preserves_skip].
Qed.

Lemma act_stale_report : preserves R (stale_report env args).
Proof.
  unfold stale_report, find_stale_series, now.
  pres_bind; [by apply preserves_get|].
  pres_bind.
  { pres_bind; [|by apply preserves_lift].
    pres_bind; [apply act_ask | by apply preserves_ret]. }
  pres_bind; [by apply preserves_get | by apply preserves_ret].
Qed.

Lemma act_main_items cat items :
  preserves R (main_items env args cat items).
Proof.
  unfold main_items.
  pres_bind; [apply preserves_modify, R_reset|].
  pres_bind; [apply act_item_loop | apply act_stale_report].
Qed.
End Actions.

(** When every change of the counters is harmless the marking and the
    counting of a download can be taken one by one. *)
Section Marking.
Variable args : Args.
Variable R : World -> World -> Prop.
Context `{!Reflexive R, !Transitive R}.
Hypothesis R_stats : ∀ f w, R w (set_stats f w).

Lemma act_record_movie url :
  preserves R (mark_movie args url) → preserves R (record_movie args url).
Proof.
  intros H. unfold record_movie. pres_bind; [exact H|].
  apply preserves_modify. intros w. apply R_stats.
Qed.

Lemma act_record_episode url :
  preserves R (mark_episode args url) → preserves R (record_episode args url).
Proof.
  intros H. unfold record_episode. pres_bind; [exact H|].
  apply preserves_modify. intros w. apply R_stats.
Qed.
End Marking.


(** *** The seen sets and the lines appended to the seen files *)

Lemma appended_app path e1 e2 :
  appended path (e1 ++ e2) = appended path e1 ++ appended path e2.
Proof. unfold appended. apply omap_app. Qed.

#[global] Instance tracks_seen_refl args : Reflexive (tracks_seen args).
Proof.
  intros w. exists []. rewrite app_nil_r. cbn.
  by rewrite !(right_id_L ∅ (∪)).
Qed.

#[global] Instance tracks_seen_trans args : Transitive (tracks_seen args).
Proof.
  intros w1 w2 w3 (e1 & T1 & S1 & P1) (e2 & T2 & S2 & P2).
  exists (e1 ++ e2). rewrite !appended_app, !list_to_set_app_L.
  split; [by rewrite T2, T1, app_assoc|].
  by rewrite S2, S1, P2, P1, !(assoc_L (∪)).
Qed.

Lemma tracks_seen_frame args (f : World -> World) :
  (∀ w, trace (f w) = trace w) →
  (∀ w, seen (f w) = seen w) →
  (∀ w, seen_episodes (f w) = seen_episodes w) →
  ∀ w, tracks_seen args w (f w).
Proof.
  intros Ht Hs He w. exists []. rewrite app_nil_r, Ht, Hs, He. cbn.
  by rewrite !(right_id_L ∅ (∪)).
Qed.

Lemma tracks_seen_emit args ev w :
  not_append ev → tracks_seen args w (set_trace (fun t => t ++ [ev]) w).
Proof.
  intros H. exists [ev]. split; [reflexivity|].
  destruct ev; try done; cbn; by rewrite !(right_id_L ∅ (∪)).
Qed.

Section LiveSeen.
Variable env : Env.
Variable args : Args.
Hypothesis Hlive : arg_dry_run args = false.
Hypothesis Hsf : str_truthy (arg_seen_file args) = true.
Hypothesis Hef : str_truthy (arg_seen_episodes_file args) = true.
Hypothesis Hne : arg_seen_file args ≠ arg_seen_episodes_file args.

Lemma seen_record_error url rc ef :
  preserves (tracks_seen args) (record_error env url rc ef).
Proof.
  apply (pres_record_error env (tracks_seen args) not_append);
    try (intros; by apply tracks_seen_frame);
    try (intros; by apply tracks_seen_emit); done.
Qed.

Lemma seen_clear_error url ef :
  preserves (tracks_seen args) (clear_error url ef).
Proof.
  apply (pres_clear_error (tracks_seen args) not_append);
    try (intros; by apply tracks_seen_frame);
    try (intros; by apply tracks_seen_emit); done.
Qed.

Lemma seen_update_series_state url found_new nm sf :
  preserves (tracks_seen args) (update_series_state env url found_new nm sf).
Proof.
  intros w. rewrite update_series_state_run. cbv zeta. cbn [snd].
  eexists. split; [reflexivity|]. cbn [seen seen_episodes].
  unfold saved. destruct (str_truthy sf); cbn;
    by rewrite !(right_id_L ∅ (∪)).
Qed.

Lemma seen_mark_movie url : preserves (tracks_seen args) (mark_movie args url).
Proof.
  intros w. unfold mark_movie, append_seen. rewrite Hlive, Hsf.
  exists [EvAppend (arg_seen_file args) url]. split; [reflexivity|].
  cbn. rewrite String.eqb_refl.
  apply String.eqb_neq in Hne. rewrite Hne. cbn.
  by rewrite !(right_id_L ∅ (∪)).
Qed.

Lemma seen_mark_episode url :
  preserves (tracks_seen args) (mark_episode args url).
Proof.
  intros w. unfold mark_episode, append_seen. rewrite Hlive, Hef.
  exists [EvAppend (arg_seen_episodes_file args) url].
  split; [reflexivity|].
  cbn. rewrite String.eqb_refl.
  assert (Hne' : arg_seen_episodes_file args ≠ arg_seen_file args) by done.
  apply String.eqb_neq in Hne'. rewrite Hne'. cbn.
  by rewrite !(right_id_L ∅ (∪)).
Qed.

Lemma main_items_tracks_seen cat items :
  preserves (tracks_seen args) (main_items env args cat items).
Proof.
  apply (act_main_items env args (tracks_seen args) not_append);
    try (intros; by apply tracks_seen_frame);
    try (intros; by apply tracks_seen_emit); try done.
  - intros url out.
    apply (act_download_with_retry env (tracks_seen args));
      try (intros; by apply tracks_seen_frame);
      try (intros; by apply tracks_seen_emit).
    + intros. apply seen_record_error.
    + apply seen_clear_error.
  - intros url. apply act_record_movie; [apply _| |apply seen_mark_movie].
    intros. by apply tracks_seen_frame.
  - intros url. apply act_record_episode; [apply _| |apply seen_mark_episode].
    intros. by apply tracks_seen_frame.
  - intros. apply seen_update_series_state.
Qed.
End LiveSeen.

(** X12: in a live run with two distinct seen files, the seen sets grow by
    exactly the URLs the run appends to their files, also when the run ends
    in an exception. *)
Theorem seen_sets_track_appends (env : Env) (args : Args) (cat : string)
    (items : list json) (w : World) :
  arg_dry_run args = false →
  str_truthy (arg_seen_file args) = true →
  str_truthy (arg_seen_episodes_file args) = true →
  arg_seen_file args ≠ arg_seen_episodes_file args →
  let w' := (main_items env args cat items w).2 in
  ∃ evs, trace w' = trace w ++ evs
    ∧ seen w' = seen w ∪ list_to_set (appended (arg_seen_file args) evs)
    ∧ seen_episodes w'
      = seen_episodes w
        ∪ list_to_set (appended (arg_seen_episodes_file args) evs).
Proof.
  intros Hlive Hsf Hef Hne.
  apply (main_items_tracks_seen env args Hlive Hsf Hef Hne cat items w).
Qed.

Lemma seen_sets_track_appends_witness :
  let w' := (main_items site_succeeding args_default "Filmer" three_items
               empty_world).2 in
  ∃ evs, trace w' = trace empty_world ++ evs
    ∧ seen w' = seen empty_world
                ∪ list_to_set (appended "seen_urls.txt" evs)
    ∧ seen_episodes w'
      = seen_episodes empty_world
        ∪ list_to_set (appended "seen_episodes.txt" evs).
Proof.
  apply (seen_sets_track_appends site_succeeding args_default "Filmer"
           three_items empty_world); done.
Defined.

(** *** The seen files after the run *)

Lemma load_seen_ext files files' path :
  files' !! path = files !! path →
  Disk.load_seen files' path = Disk.load_seen files path.
Proof.
  intros H.
  unfold Disk.load_seen, Disk.missing, Disk.file_exists, Disk.read_text.
  by rewrite H.
Qed.

Lemma file_terminated_ext files files' path :
  files' !! path = files !! path →
  file_terminated files path → file_terminated files' path.
Proof. intros H. unfold file_terminated, Disk.read_text. by rewrite H. Qed.

Lemma append_seen_other files p url path :
  p ≠ path → Disk.append_seen files p url !! path = files !! path.
Proof.
  intros H. unfold Disk.append_seen. destruct (negb _); [done|].
  by rewrite lookup_insert_ne.
Qed.

Lemma appended_cons path p url evs :
  appended path (EvAppend p url :: evs)
  = if String.eqb p path then url :: appended path evs
    else appended path evs.
Proof. unfold appended. cbn. by destruct (String.eqb p path). Qed.

Lemma replay_load path :
  str_truthy path = true →
  ∀ evs files,
    file_terminated files path →
    Forall clean_url (appended path evs) →
    Disk.load_seen (replay_appends evs files) path
    = Disk.load_seen files path ∪ list_to_set (appended path evs).
Proof.
  intros Hp. induction evs as [|ev evs IH]; intros files Ht Hc.
  { cbn. by rewrite (right_id_L ∅ (∪)). }
  destruct ev as [| |p url| | |];
    try (cbn in *; by apply IH).
  change (replay_appends (EvAppend p url :: evs) files)
    with (replay_appends evs (Disk.append_seen files p url)).
  rewrite appended_cons in Hc |- *.
  destruct (String.eqb_spec p path) as [->|Hpp].
  - apply Forall_cons in Hc as [Hu Hc].
    rewrite IH; [|by apply append_seen_terminated|done].
    rewrite append_seen_load by done.
    by rewrite list_to_set_cons, (assoc_L (∪)).
  - rewrite IH; [| |done].
    + by rewrite (load_seen_ext files) by by apply append_seen_other.
    + apply (file_terminated_ext files); [by apply append_seen_other|done].
Qed.

(** X13: what a restart finds.  If the seen sets were loaded from two
    distinct seen files that are missing, empty or line-terminated, then
    after a live run, however it ends, loading the files with the lines of
    the run appended gives exactly the seen sets the run ended with,
    provided the appended URLs are clean. *)
Theorem seen_files_reload_as_seen_sets (env : Env) (args : Args)
    (cat : string) (items : list json) (w : World)
    (files : gmap string string) :
  arg_dry_run args = false →
  str_truthy (arg_seen_file args) = true →
  str_truthy (arg_seen_episodes_file args) = true →
  arg_seen_file args ≠ arg_seen_episodes_file args →
  file_terminated files (arg_seen_file args) →
  file_terminated files (arg_seen_episodes_file args) →
  Disk.load_seen files (arg_seen_file args) = seen w →
  Disk.load_seen files (arg_seen_episodes_file args) = seen_episodes w →
  let w' := (main_items env args cat items w).2 in
  let evs := new_events w w' in
  Forall clean_url (appended (arg_seen_file args) evs
                    ++ appended (arg_seen_episodes_file args) evs) →
  Disk.load_seen (replay_appends evs files) (arg_seen_file args) = seen w'
  ∧ Disk.load_seen (replay_appends evs files) (arg_seen_episodes_file args)
    = seen_episodes w'.
Proof.
  intros Hlive Hsf Hef Hne Ht1 Ht2 Hl1 Hl2 w' evs.
  destruct (main_items_tracks_seen env args Hlive Hsf Hef Hne cat items w)
    as (evs' & Htr & Hs & He).
  fold w' in Htr, Hs, He.
  assert (evs = evs') as ->.
  { unfold evs, new_events. by rewrite Htr, drop_app_length. }
  intros [Hc1 Hc2]%Forall_app.
  rewrite !replay_load by done. by rewrite Hl1, Hl2, Hs, He.
Qed.

Lemma seen_files_reload_as_seen_sets_witness :
  let w' := (main_items site_succeeding args_default "Filmer" three_items
               empty_world).2 in
  let evs := new_events empty_world w' in
  Disk.load_seen (replay_appends evs ∅) "seen_urls.txt" = seen w'
  ∧ Disk.load_seen (replay_appends evs ∅) "seen_episodes.txt"
    = seen_episodes w'.
Proof.
  apply (seen_files_reload_as_seen_sets site_succeeding args_default
           "Filmer" three_items empty_world ∅); try done; try (by left).
  vm_compute new_events. vm_compute appended. cbn [app].
  repeat (apply Forall_cons; split; [by apply printable_url_clean|]).
  constructor.
Defined.

(** *** The JSON state files *)

Lemma persisted_app path doc0 e1 e2 :
  persisted path doc0 (e1 ++ e2) = persisted path (persisted path doc0 e1) e2.
Proof. unfold persisted. apply foldl_app. Qed.

#[global] Instance tracks_stores_refl args : Reflexive (tracks_stores args).
Proof. intros w. exists []. by rewrite app_nil_r. Qed.

#[global] Instance tracks_stores_trans args : Transitive (tracks_stores args).
Proof.
  intros w1 w2 w3 (e1 & T1 & E1 & S1) (e2 & T2 & E2 & S2).
  exists (e1 ++ e2). rewrite !persisted_app, E1, S1.
  split; [by rewrite T2, T1, app_assoc | done].
Qed.

Lemma tracks_stores_frame args (f : World -> World) :
  (∀ w, trace (f w) = trace w) →
  (∀ w, errors (f w) = errors w) →
  (∀ w, series_state (f w) = series_state w) →
  ∀ w, tracks_stores args w (f w).
Proof.
  intros Ht He Hs w. exists []. by rewrite app_nil_r, Ht, He, Hs.
Qed.

Lemma tracks_stores_emit args ev w :
  not_save ev → tracks_stores args w (set_trace (fun t => t ++ [ev]) w).
Proof.
  intros H. exists [ev]. split; [reflexivity|]. by destruct ev.
Qed.

Section Stores.
Variable env : Env.
Variable args : Args.
Hypothesis Hef : str_truthy (arg_errors_file args) = true.
Hypothesis Hsf : str_truthy (arg_series_state_file args) = true.
Hypothesis Hne : arg_errors_file args ≠ arg_series_state_file args.

Lemma stores_record_error url rc :
  preserves (tracks_stores args)
    (record_error env url rc (arg_errors_file args)).
Proof.
  intros w. rewrite record_error_run. cbv zeta. cbn [snd].
  eexists. split; [reflexivity|]. cbn [errors series_state].
  unfold saved. rewrite Hef. cbn. rewrite String.eqb_refl.
  apply String.eqb_neq in Hne. by rewrite Hne.
Qed.

Lemma stores_clear_error url :
  preserves (tracks_stores args) (clear_error url (arg_errors_file args)).
Proof.
  intros w. rewrite clear_error_run. cbn [snd].
  case_bool_decide; [|reflexivity].
  eexists. split; [reflexivity|]. cbn [errors series_state].
  unfold saved. rewrite Hef. cbn. rewrite String.eqb_refl.
  apply String.eqb_neq in Hne. by rewrite Hne.
Qed.

Lemma stores_update_series_state url found_new nm :
  preserves (tracks_stores args)
    (update_series_state env url found_new nm (arg_series_state_file args)).
Proof.
  intros w. rewrite update_series_state_run. cbv zeta. cbn [snd].
  eexists. split; [reflexivity|]. cbn [errors series_state].
  unfold saved. rewrite Hsf. cbn. rewrite String.eqb_refl.
  assert (Hne' : arg_series_state_file args ≠ arg_errors_file args) by done.
  apply String.eqb_neq in Hne'. by rewrite Hne'.
Qed.

Lemma stores_mark_movie url :
  preserves (tracks_stores args) (mark_movie args url).
Proof.
  unfold mark_movie. pres_bind.
  - destruct (arg_dry_run args); [apply preserves_skip; apply _|].
    apply (pres_append_seen (tracks_stores args) not_save); [|done].
    intros. by apply tracks_stores_emit.
  - apply preserves_modify. intros w. by apply tracks_stores_frame.
Qed.

Lemma stores_mark_episode url :
  preserves (tracks_stores args) (mark_episode args url).
Proof.
  unfold mark_episode. pres_bind.
  - destruct (arg_dry_run args); [apply preserves_skip; apply _|].
    apply (pres_append_seen (tracks_stores args) not_save); [|done].
    intros. by apply tracks_stores_emit.
  - apply preserves_modify. intros w. by apply tracks_stores_frame.
Qed.

Lemma main_items_tracks_stores cat items :
  preserves (tracks_stores args) (main_items env args cat items).
Proof.
  apply (act_main_items env args (tracks_stores args) not_save);
    try (intros; by apply tracks_stores_frame);
    try (intros; by apply tracks_stores_emit); try done.
  - intros url out.
    apply (act_download_with_retry env (tracks_stores args));
      try (intros; by apply tracks_stores_frame);
      try (intros; by apply tracks_stores_emit).
    + intros. apply stores_record_error.
    + apply stores_clear_error.
  - intros url. apply act_record_movie; [apply _| |apply stores_mark_movie].
    intros. by apply tracks_stores_frame.
  - intros url. apply act_record_episode; [apply _| |apply stores_mark_episode].
    intros. by apply tracks_stores_frame.
  - apply stores_update_series_state.
Qed.
End Stores.

(** X14: the JSON state files never lag behind the stores.  With two
    distinct, non-empty paths for the errors file and the series state
    file, the document last saved to each by the run (or the store the run
    started with, if none was saved) is the store the run ends with, also
    when the run ends in an exception and also in a dry run. *)
Theorem state_files_match_stores (env : Env) (args : Args) (cat : string)
    (items : list json) (w : World) :
  str_truthy (arg_errors_file args) = true →
  str_truthy (arg_series_state_file args) = true →
  arg_errors_file args ≠ arg_series_state_file args →
  let w' := (main_items env args cat items w).2 in
  ∃ evs, trace w' = trace w ++ evs
    ∧ persisted (arg_errors_file args) (ErrorsDoc (errors w)) evs
      = ErrorsDoc (errors w')
    ∧ persisted (arg_series_state_file args) (SeriesDoc (series_state w)) evs
      = SeriesDoc (series_state w').
Proof.
  intros Hef Hsf Hne.
  apply (main_items_tracks_stores env args Hef Hsf Hne cat items w).
Qed.

Lemma state_files_match_stores_witness :
  let w' := (main_items site_failing args_default "Filmer" three_items
               empty_world).2 in
  ∃ evs, trace w' = trace empty_world ++ evs
    ∧ persisted "errors.json" (ErrorsDoc ∅) evs = ErrorsDoc (errors w')
    ∧ persisted "series_state.json" (SeriesDoc ∅) evs
      = SeriesDoc (series_state w').
Proof.
  apply (state_files_match_stores site_failing args_default "Filmer"
           three_items empty_world); done.
Defined.

(** *** Consistency of the error store *)

#[global] Instance keeps_consistent_refl : Reflexive keeps_consistent.
Proof. intros w H. exact H. Qed.

#[global] Instance keeps_consistent_trans : Transitive keeps_consistent.
Proof. unfold keeps_consistent. intros w1 w2 w3 H1 H2. auto. Qed.

Lemma keeps_consistent_frame (f : World -> World) :
  (∀ w, errors (f w) = errors w) → ∀ w, keeps_consistent w (f w).
Proof. intros H w. unfold keeps_consistent. by rewrite H. Qed.

Section Consistency.
Variable env : Env.
Variable args : Args.

Lemma consistent_record_error url rc ef :
  preserves keeps_consistent (record_error env url rc ef).
Proof.
  intros w. rewrite record_error_run. cbv zeta. cbn [snd].
  unfold keeps_consistent, errors_consistent. cbn [errors]. intros H.
  apply map_Forall_insert_2; [|done].
  apply bump_error_consistent.
  destruct (errors w !! url) as [old|] eqn:E; [|reflexivity].
  exact (H url old E).
Qed.

Lemma consistent_clear_error url ef :
  preserves keeps_consistent (clear_error url ef).
Proof.
  intros w. rewrite clear_error_run. cbn [snd].
  case_bool_decide; [|reflexivity].
  unfold keeps_consistent, errors_consistent. cbn [errors].
  apply map_Forall_delete.
Qed.

Lemma consistent_mark (m : M unit) :
  (∀ w, errors (m w).2 = errors w) → preserves keeps_consistent m.
Proof. intros H w. unfold keeps_consistent. by rewrite H. Qed.

Lemma main_items_keeps_consistent cat items :
  preserves keeps_consistent (main_items env args cat items).
Proof.
  apply (act_main_items env args keeps_consistent (fun _ => True));
    try (intros; by apply keeps_consistent_frame); try done.
  - intros url out.
    apply (act_download_with_retry env keeps_consistent);
      try (intros; by apply keeps_consistent_frame).
    + intros. apply consistent_record_error.
    + apply consistent_clear_error.
  - intros url. apply consistent_mark. intros w.
    unfold record_movie, mark_movie, append_seen.
    destruct (arg_dry_run args); [done|]. by destruct (negb _).
  - intros url. apply consistent_mark. intros w.
    unfold record_episode, mark_episode, append_seen.
    destruct (arg_dry_run args); [done|]. by destruct (negb _).
  - intros url found_new nm w. rewrite update_series_state_run.
    intros H. exact H.
Qed.
End Consistency.

Lemma consistent_permanent errs url :
  errors_consistent errs →
  (is_permanent_error errs url = true ↔ fail_count_of errs url > 2).
Proof.
  intros H. unfold is_permanent_error, fail_count_of.
  destruct (errs !! url) as [entry|] eqn:E; [|split; [done|lia]].
  rewrite (H url entry E). rewrite Z.gtb_ltb, Z.ltb_lt. lia.
Qed.

(** X15: over a whole run, whatever the downloads do and however the run
    ends, an error store whose entries are flagged permanent exactly when
    they count more than two failures stays such a store; so after the run
    a URL is skipped as permanently failed if and only if its failure count
    exceeds two. *)
Theorem error_store_stays_consistent (env : Env) (args : Args)
    (cat : string) (items : list json) (w : World) :
  errors_consistent (errors w) →
  let w' := (main_items env args cat items w).2 in
  errors_consistent (errors w')
  ∧ ∀ url, is_permanent_error (errors w') url = true
           ↔ fail_count_of (errors w') url > 2.
Proof.
  intros H w'.
  assert (H' : errors_consistent (errors w'))
    by exact (main_items_keeps_consistent env args cat items w H).
  split; [exact H'|]. intros url. by apply consistent_permanent.
Qed.

Lemma error_store_stays_consistent_witness :
  errors_consistent
    (errors (main_items site_failing args_default "Filmer" three_items
               (init_world ∅ ∅ ∅ errors_two)).2).
Proof.
  apply (error_store_stays_consistent site_failing args_default "Filmer"
           three_items (init_world ∅ ∅ ∅ errors_two)).
  apply map_Forall_singleton. reflexivity.
Defined.

(** *** The download counters *)

#[global] Instance counts_downloads_refl args :
  Reflexive (counts_downloads args).
Proof.
  intros w. exists []. rewrite app_nil_r. cbn. split; [done|]. lia.
Qed.

#[global] Instance counts_downloads_trans args :
  Transitive (counts_downloads args).
Proof.
  intros w1 w2 w3 (e1 & T1 & M1 & E1) (e2 & T2 & M2 & E2).
  exists (e1 ++ e2). rewrite !appended_app, !length_app.
  split; [by rewrite T2, T1, app_assoc | lia].
Qed.

Lemma counts_downloads_frame args (f : World -> World) :
  (∀ w, trace (f w) = trace w) →
  (∀ w, movies_downloaded (stats (f w)) = movies_downloaded (stats w)) →
  (∀ w, episodes_downloaded (stats (f w)) = episodes_downloaded (stats w)) →
  ∀ w, counts_downloads args w (f w).
Proof.
  intros Ht Hm He w. exists []. rewrite app_nil_r, Ht, Hm, He. cbn.
  split; [done|]. lia.
Qed.

Lemma counts_downloads_emit args ev w :
  not_append ev → counts_downloads args w (set_trace (fun t => t ++ [ev]) w).
Proof.
  intros H. exists [ev]. split; [reflexivity|].
  destruct ev; try done; cbn; lia.
Qed.

Section LiveCounters.
Variable env : Env.
Variable args : Args.
Hypothesis Hlive : arg_dry_run args = false.
Hypothesis Hsf : str_truthy (arg_seen_file args) = true.
Hypothesis Hef : str_truthy (arg_seen_episodes_file args) = true.
Hypothesis Hne : arg_seen_file args ≠ arg_seen_episodes_file args.

Lemma counts_record_movie url :
  preserves (counts_downloads args) (record_movie args url).
Proof.
  intros w. unfold record_movie, mark_movie, append_seen.
  rewrite Hlive, Hsf.
  exists [EvAppend (arg_seen_file args) url]. split; [reflexivity|].
  unfold mbind, M_bind, emit, modify. cbn. rewrite String.eqb_refl.
  apply String.eqb_neq in Hne. rewrite Hne. cbn. lia.
Qed.

Lemma counts_record_episode url :
  preserves (counts_downloads args) (record_episode args url).
Proof.
  intros w. unfold record_episode, mark_episode, append_seen.
  rewrite Hlive, Hef.
  exists [EvAppend (arg_seen_episodes_file args) url].
  split; [reflexivity|].
  unfold mbind, M_bind, emit, modify. cbn. rewrite String.eqb_refl.
  assert (Hne' : arg_seen_episodes_file args ≠ arg_seen_file args) by done.
  apply String.eqb_neq in Hne'. rewrite Hne'. cbn. lia.
Qed.

Lemma item_loop_counts_downloads cat n idx items :
  preserves (counts_downloads args) (item_loop env args cat n idx items).
Proof.
  apply (act_item_loop env args (counts_downloads args) not_append);
    try (intros; by apply counts_downloads_frame);
    try (intros; by apply counts_downloads_emit); try done.
  - intros f w Hf. apply (counts_downloads_frame args (set_stats f));
      [done | intros w0; apply Hf | intros w0; apply Hf].
  - intros url out.
    apply (pres_download_with_retry env (counts_downloads args) not_append);
      try (intros; by apply counts_downloads_frame);
      try (intros; by apply counts_downloads_emit); done.
  - apply counts_record_movie.
  - apply counts_record_episode.
  - intros url found_new nm w. rewrite update_series_state_run.
    cbv zeta. cbn [snd]. eexists. split; [reflexivity|].
    cbn [stats]. unfold saved.
    destruct (str_truthy (arg_series_state_file args)); cbn; lia.
Qed.

Lemma stale_report_counts_downloads :
  preserves (counts_downloads args) (stale_report env args).
Proof.
  apply (act_stale_report env args (counts_downloads args)).
  intros. by apply counts_downloads_frame.
Qed.
End LiveCounters.

(** X16: the summary counts what was recorded.  In a live run with two
    distinct seen files, when the run ends, or is ended by an exception,
    the counter of downloaded movies is the number of lines the run
    appended to the seen file, and the counter of downloaded episodes the
    number of lines it appended to the seen-episodes file. *)
Theorem counters_match_appends (env : Env) (args : Args) (cat : string)
    (items : list json) (w : World) :
  arg_dry_run args = false →
  str_truthy (arg_seen_file args) = true →
  str_truthy (arg_seen_episodes_file args) = true →
  arg_seen_file args ≠ arg_seen_episodes_file args →
  let w' := (main_items env args cat items w).2 in
  movies_downloaded (stats w')
  = Z.of_nat (length (appended (arg_seen_file args) (new_events w w')))
  ∧ episodes_downloaded (stats w')
    = Z.of_nat (length (appended (arg_seen_episodes_file args)
                          (new_events w w'))).
Proof.
  intros Hlive Hsf Hef Hne w'.
  assert (H : counts_downloads args (set_stats (fun _ => zero_stats) w) w').
  { unfold w', main_items. rewrite bind_run. unfold modify at 1.
    cbv beta iota.
    apply (preserves_bind (counts_downloads args)).
    - by apply item_loop_counts_downloads.
    - intros _. by apply stale_report_counts_downloads. }
  destruct H as (evs & Ht & Hm & He). cbn [trace set_stats] in Ht.
  unfold new_events. rewrite Ht, drop_app_length.
  rewrite Hm, He. cbn. lia.
Qed.

Lemma counters_match_appends_witness :
  let w' := (main_items site_succeeding args_default "Filmer" three_items
               empty_world).2 in
  movies_downloaded (stats w')
  = Z.of_nat (length (appended "seen_urls.txt" (new_events empty_world w')))
  ∧ episodes_downloaded (stats w')
    = Z.of_nat (length (appended "seen_episodes.txt"
                          (new_events empty_world w'))).
Proof.
  apply (counters_match_appends site_succeeding args_default "Filmer"
           three_items empty_world); done.
Defined.

(** *** Permanent failures *)

Lemma launched_app e1 e2 : launched (e1 ++ e2) = launched e1 ++ launched e2.
Proof. unfold launched. apply omap_app. Qed.

#[global] Instance never_launches_refl url : Reflexive (never_launches url).
Proof.
  intros w H. split; [done|]. exists []. rewrite app_nil_r.
  split; [done|]. apply not_elem_of_nil.
Qed.

#[global] Instance never_launches_trans url : Transitive (never_launches url).
Proof.
  intros w1 w2 w3 H1 H2 Hp.
  destruct (H1 Hp) as (Hp2 & e1 & T1 & L1).
  destruct (H2 Hp2) as (Hp3 & e2 & T2 & L2).
  split; [done|]. exists (e1 ++ e2).
  split; [by rewrite T2, T1, app_assoc|].
  rewrite launched_app, elem_of_app. tauto.
Qed.

Lemma never_launches_frame url (f : World -> World) :
  (∀ w, trace (f w) = trace w) →
  (∀ w, errors (f w) !! url = errors w !! url) →
  ∀ w, never_launches url w (f w).
Proof.
  intros Ht He w Hp. split.
  - unfold is_permanent_error in *. by rewrite He.
  - exists []. rewrite app_nil_r. split; [done|]. apply not_elem_of_nil.
Qed.

Lemma never_launches_emit url ev w :
  launch_url ev ≠ Some url →
  never_launches url w (set_trace (fun t => t ++ [ev]) w).
Proof.
  intros H Hp. split; [done|]. exists [ev]. split; [done|].
  unfold launched. cbn. destruct (launch_url ev) as [u|] eqn:E; cbn.
  - rewrite list_elem_of_singleton. congruence.
  - apply not_elem_of_nil.
Qed.

Section Permanent.
Variable env : Env.
Variable args : Args.
Variable url : string.

Lemma permanent_download_with_retry url' out dry ef :
  preserves (never_launches url) (download_with_retry env url' out dry ef).
Proof.
  destruct (decide (url' = url)) as [->|Hne].
  - intros w Hp. rewrite download_with_retry_permanent by done.
    by apply never_launches_refl.
  - apply (act_download_with_retry env (never_launches url)).
    + intros. by apply never_launches_frame.
    + intros r w. apply never_launches_emit. cbn. congruence.
    + intros rc w. rewrite record_error_run. cbv zeta. cbn [snd].
      intros Hp. split.
      * unfold is_permanent_error in *. cbn [errors].
        by rewrite lookup_insert_ne.
      * eexists. split; [reflexivity|]. unfold saved.
        destruct (str_truthy ef); apply not_elem_of_nil.
    + intros w. rewrite clear_error_run. cbn [snd].
      case_bool_decide; [|by apply never_launches_refl].
      intros Hp. split.
      * unfold is_permanent_error in *. cbn [errors].
        by rewrite lookup_delete_ne.
      * eexists. split; [reflexivity|]. unfold saved.
        destruct (str_truthy ef); apply not_elem_of_nil.
Qed.

Lemma main_items_never_launches cat items :
  preserves (never_launches url) (main_items env args cat items).
Proof.
  apply (act_main_items env args (never_launches url)
           (fun ev => launch_url ev ≠ Some url));
    try (intros; by apply never_launches_frame);
    try (intros; by apply never_launches_emit); try done.
  - intros. apply permanent_download_with_retry.
  - intros u. apply act_record_movie;
      [apply _ | intros; by apply never_launches_frame|].
    unfold mark_movie. pres_bind.
    + destruct (arg_dry_run args); [apply preserves_skip; apply _|].
      apply (pres_append_seen (never_launches url)
               (fun ev => launch_url ev ≠ Some url)); [|done].
      intros. by apply never_launches_emit.
    + apply preserves_modify. intros w. by apply never_launches_frame.
  - intros u. apply act_record_episode;
      [apply _ | intros; by apply never_launches_frame|].
    unfold mark_episode. pres_bind.
    + destruct (arg_dry_run args); [apply preserves_skip; apply _|].
      apply (pres_append_seen (never_launches url)
               (fun ev => launch_url ev ≠ Some url)); [|done].
      intros. by apply never_launches_emit.
    + apply preserves_modify. intros w. by apply never_launches_frame.
  - intros u found_new nm w. rewrite update_series_state_run.
    cbv zeta. cbn [snd]. intros Hp. split; [done|].
    eexists. split; [reflexivity|]. unfold saved.
    destruct (str_truthy _); apply not_elem_of_nil.
Qed.
End Permanent.

(** X17: a URL that is flagged permanent when the run starts is left alone
    by the whole run: the downloader is never launched for it, as a movie
    or as an episode, and it is still flagged permanent when the run ends
    or is ended by an exception. *)
Theorem permanent_url_never_launched (env : Env) (args : Args)
    (cat : string) (items : list json) (url : string) (w : World) :
  is_permanent_error (errors w) url = true →
  let w' := (main_items env args cat items w).2 in
  is_permanent_error (errors w') url = true
  ∧ ∃ evs, trace w' = trace w ++ evs ∧ url ∉ launched evs.
Proof.
  intros Hp. exact (main_items_never_launches env args url cat items w Hp).
Qed.

Lemma permanent_url_never_launched_witness :
  let w' := (main_items site_succeeding args_default "Filmer" three_items
               (init_world ∅ ∅ ∅
                  {[ "https://www.svtplay.se/film"
                     := mkErrorEntry (Some 3) (Some true) None None ]})).2 in
  is_permanent_error (errors w') "https://www.svtplay.se/film" = true
  ∧ ∃ evs, trace w' = [] ++ evs
           ∧ "https://www.svtplay.se/film" ∉ launched evs.
Proof.
  apply (permanent_url_never_launched site_succeeding args_default "Filmer"
           three_items "https://www.svtplay.se/film"
           (init_world ∅ ∅ ∅
              {[ "https://www.svtplay.se/film"
                 := mkErrorEntry (Some 3) (Some true) None None ]})).
  reflexivity.
Defined.

(** *** What a series check launches *)

#[global] Instance launches_within_refl U : Reflexive (launches_within U).
Proof.
  intros w. exists []. rewrite app_nil_r. split; [done|].
  by intros u ?%elem_of_nil.
Qed.

#[global] Instance launches_within_trans U : Transitive (launches_within U).
Proof.
  intros w1 w2 w3 (e1 & T1 & L1) (e2 & T2 & L2). exists (e1 ++ e2).
  split; [by rewrite T2, T1, app_assoc|].
  intros u. rewrite launched_app, elem_of_app. intros [?|?]; auto.
Qed.

Lemma launches_within_frame U (f : World -> World) :
  (∀ w, trace (f w) = trace w) → ∀ w, launches_within U w (f w).
Proof.
  intros Ht w. exists []. rewrite app_nil_r, Ht. split; [done|].
  by intros u ?%elem_of_nil.
Qed.

Lemma launches_within_emit U ev w :
  (∀ u, launch_url ev = Some u → u ∈ U) →
  launches_within U w (set_trace (fun t => t ++ [ev]) w).
Proof.
  intros H. exists [ev]. split; [done|]. intros u. unfold launched. cbn.
  destruct (launch_url ev) as [u'|]; cbn.
  - intros ->%list_elem_of_singleton. by apply H.
  - by intros ?%elem_of_nil.
Qed.

Section SeriesLaunches.
Variable env : Env.
Variable args : Args.

Lemma launches_download_with_retry U url out dry ef :
  url ∈ U →
  preserves (launches_within U) (download_with_retry env url out dry ef).
Proof.
  intros Hin. apply (act_download_with_retry env (launches_within U)).
  - intros. by apply launches_within_frame.
  - intros r w. apply launches_within_emit. cbn. by intros u [= <-].
  - intros rc w. rewrite record_error_run. cbv zeta. cbn [snd].
    eexists. split; [reflexivity|]. unfold saved.
    destruct (str_truthy ef); cbn; by intros u ?%elem_of_nil.
  - intros w. rewrite clear_error_run. cbn [snd].
    case_bool_decide; [|reflexivity].
    eexists. split; [reflexivity|]. unfold saved.
    destruct (str_truthy ef); cbn; by intros u ?%elem_of_nil.
Qed.

Lemma launches_quiet U (m : M unit) :
  (∀ w, ∃ evs, trace (m w).2 = trace w ++ evs ∧ launched evs = []) →
  preserves (launches_within U) m.
Proof.
  intros H w. destruct (H w) as (evs & Ht & Hl). exists evs.
  split; [done|]. rewrite Hl. by intros u ?%elem_of_nil.
Qed.

Lemma launches_record_episode U url :
  preserves (launches_within U) (record_episode args url).
Proof.
  apply launches_quiet. intros w.
  unfold record_episode, mark_episode, append_seen.
  destruct (arg_dry_run args); [by exists []; rewrite app_nil_r|].
  destruct (negb _); [by exists []; rewrite app_nil_r|].
  by eexists [_].
Qed.

Lemma launches_stop_or_limit U :
  preserves (launches_within U) (stop_or_limit env args).
Proof.
  intros w. rewrite stop_or_limit_run. by apply launches_within_frame.
Qed.

Lemma launches_maybe_sleep U i n :
  preserves (launches_within U) (maybe_sleep env args i n).
Proof.
  apply launches_quiet. intros w. unfold maybe_sleep.
  destruct (_ && _); [|by exists []; rewrite app_nil_r].
  unfold read_stop, ask. rewrite !bind_run. cbn.
  destruct (stop_requested env (tick w));
    [by exists []; rewrite app_nil_r | by eexists [_]].
Qed.

Lemma launches_episode_loop U folder n_new ep_i eps :
  (∀ u, u ∈ eps → u ∈ U) →
  preserves (launches_within U)
    (episode_loop env args folder n_new ep_i eps).
Proof.
  revert ep_i. induction eps as [|ep eps IH]; intros ep_i Hsub;
    cbn [episode_loop]; [apply preserves_skip; apply _|].
  pres_bind; [apply launches_stop_or_limit|].
  destruct a; [apply preserves_skip; apply _|].
  pres_bind.
  { apply launches_download_with_retry, Hsub. by left. }
  pres_bind.
  { destruct a.
    - apply (preserves_assoc (launches_within U)), launches_record_episode.
    - apply preserves_modify. intros w. by apply launches_within_frame. }
  pres_bind; [apply launches_maybe_sleep|].
  apply IH. intros u Hu. apply Hsub. by right.
Qed.

Lemma series_path_launches item_url folder html nm w :
  ∃ evs, trace (series_path env args item_url folder html nm w).2
         = trace w ++ evs
    ∧ ∀ u, u ∈ launched evs →
           ∃ urls, discover_episode_urls env html = Ret urls
                   ∧ u ∈ new_episodes w urls.
Proof.
  unfold series_path. rewrite bind_run. unfold modify at 1.
  cbv beta iota. rewrite bind_run. unfold lift at 1.
  destruct (discover_episode_urls env html) as [urls|e] eqn:Ed.
  2:{ exists []. rewrite app_nil_r. split; [done|].
      by intros u ?%elem_of_nil. }
  rewrite bind_run. unfold get_world at 1. cbv beta iota.
  set (w0 := set_stats incr_series_checked w).
  assert (Hnew : new_episodes w0 urls = new_episodes w urls) by done.
  match goal with
  | |- context [(?m ≫= ?k) w0] =>
      assert (H : launches_within (new_episodes w urls) w0 ((m ≫= k) w0).2)
  end.
  { apply (preserves_bind (launches_within (new_episodes w urls))).
    - destruct (_ =? 0); [apply preserves_skip; apply _|].
      apply preserves_modify. intros w1. by apply launches_within_frame.
    - intros _. apply (preserves_bind (launches_within (new_episodes w urls))).
      + rewrite Hnew. by apply launches_episode_loop.
      + intros _. destruct (arg_dry_run args); [apply preserves_skip; apply _|].
        intros w1. rewrite update_series_state_run. cbv zeta. cbn [snd].
        eexists. split; [reflexivity|]. unfold saved.
        destruct (str_truthy _); cbn; by intros u ?%elem_of_nil. }
  destruct H as (evs & Ht & Hl). exists evs. split; [exact Ht|].
  intros u Hu. exists urls. split; [done|]. by apply Hl.
Qed.
End SeriesLaunches.

(** X18: a series check launches the downloader only for episodes it has
    discovered on the page and that were, when the check began, neither in
    the seen-episodes set nor flagged permanent: nothing already
    downloaded and nothing given up is launched again. *)
Theorem series_launches_only_new_episodes (env : Env) (args : Args)
    (item_url folder html nm : string) (w : World) :
  let w' := (series_path env args item_url folder html nm w).2 in
  ∃ evs, trace w' = trace w ++ evs
    ∧ ∀ u, u ∈ launched evs →
           ∃ urls, discover_episode_urls env html = Ret urls
                   ∧ u ∈ urls
                   ∧ u ∉ seen_episodes w
                   ∧ is_permanent_error (errors w) u = false.
Proof.
  cbv zeta.
  destruct (series_path_launches env args item_url folder html nm w)
    as (evs & Ht & Hl).
  exists evs. split; [exact Ht|]. intros u Hu.
  destruct (Hl u Hu) as (urls & Ed & Hin). exists urls. split; [done|].
  unfold new_episodes in Hin. apply list_elem_of_filter in Hin.
  tauto.
Qed.

(** ** Edge behaviour *)

Section StaleAware.
Variable env : Env.

Lemma stale_entry_raises now_t stale_days url entry e :
  stale_entry env now_t stale_days url entry = Exn e ↔
  e = TypeError ∧ aware_stamp env entry.
Proof.
  unfold stale_entry, aware_stamp.
  destruct (default 0 (check_count entry) <? 2) eqn:Ec.
  { apply Z.ltb_lt in Ec. split; [discriminate | intros [_ [? _]]; lia]. }
  apply Z.ltb_ge in Ec.
  assert (G : ∀ d : Z,
    (Ret d ≫= λ days : Z,
       if days >=? stale_days
       then Ret (Some (url, default url (name entry), days,
                       default 0 (check_count entry)))
       else Ret None) ≠ Exn e).
  { intros d. unfold mbind, outcome_bind, obind.
    by destruct (d >=? stale_days). }
  destruct (last_new_episode_date entry) as [raw|] eqn:E.
  2:{ split; [by intros ?%G | by intros (_ & _ & raw & ? & _)]. }
  destruct (str_truthy raw) eqn:Et.
  2:{ split; [by intros ?%G|]. intros (_ & _ & raw' & [= <-] & ? & _).
      congruence. }
  destruct (fromisoformat env raw) eqn:Ef.
  - split; [by intros ?%G|]. intros (_ & _ & raw' & [= <-] & _ & ?).
    congruence.
  - cbn. split; [intros [= <-]|by intros [-> _]].
    split; [done|]. split; [lia|]. by exists raw.
  - split; [by intros ?%G|]. intros (_ & _ & raw' & [= <-] & _ & ?).
    congruence.
Qed.

Lemma stale_items_raises now_t stale_days items e :
  stale_items env now_t stale_days items = Exn e ↔
  e = TypeError ∧ ∃ url entry, (url, entry) ∈ items ∧ aware_stamp env entry.
Proof.
  induction items as [|[url entry] rest IH].
  { cbn. split; [discriminate|]. by intros (_ & ? & ? & ?%elem_of_nil & _). }
  cbn [stale_items].
  destruct (stale_entry env now_t stale_days url entry) as [y|e'] eqn:Ey.
  - assert (Hno : ¬ aware_stamp env entry).
    { intros Ha.
      assert (stale_entry env now_t stale_days url entry = Exn TypeError)
        by by apply stale_entry_raises.
      congruence. }
    cbn. destruct (stale_items env now_t stale_days rest) as [ys|e''].
    + cbn. split; [discriminate|].
      intros (-> & u & en & [[= -> ->]|Hin]%elem_of_cons & Ha); [done|].
      assert (@Ret (list (string * string * Z * Z)) ys = Exn TypeError);
        [|discriminate].
      apply IH. eauto.
    + cbn. split.
      * intros [= ->]. destruct (proj1 IH eq_refl) as (-> & u & en & Hin & Ha).
        split; [done|]. exists u, en. split; [by right | done].
      * intros (-> & u & en & [[= -> ->]|Hin]%elem_of_cons & Ha); [done|].
        apply IH. eauto.
  - cbn. apply stale_entry_raises in Ey as [-> Ha]. split.
    + intros [= <-]. split; [done|]. exists url, entry.
      split; [by left | done].
    + by intros [-> _].
Qed.

Lemma find_stale_series_raises state stale_days w e :
  (find_stale_series env state stale_days w).1 = Exn e ↔
  e = TypeError ∧ ∃ url entry, state !! url = Some entry
                               ∧ aware_stamp env entry.
Proof.
  unfold find_stale_series, now, ask, lift. rewrite !bind_run. cbn.
  rewrite stale_items_raises. split.
  - intros (-> & u & en & Hin%elem_of_map_to_list & Ha). eauto.
  - intros (-> & u & en & Hin & Ha). split; [done|]. exists u, en.
    by rewrite elem_of_map_to_list.
Qed.
End StaleAware.

(** X19: stale detection raises exactly when the series state holds an
    entry with a check count of at least 2 and a timezone-aware stamp; the
    exception is [TypeError], nothing catches it, and the stale report (and
    with it the summary of the run) is lost. *)
Theorem stale_detection_raises_on_aware_stamp (env : Env) (args : Args)
    (w : World) (e : exn) :
  ((find_stale_series env (series_state w) (arg_stale_days args) w).1 = Exn e
   ↔ e = TypeError
     ∧ ∃ url entry, series_state w !! url = Some entry
                    ∧ aware_stamp env entry)
  ∧ ((find_stale_series env (series_state w) (arg_stale_days args) w).1
     = Exn e →
     (stale_report env args w).1 = Exn e).
Proof.
  split; [apply find_stale_series_raises|].
  intros H. unfold stale_report. mstep. unfold get_world. mstep.
  destruct (find_stale_series env (series_state w) (arg_stale_days args) w)
    as [[l|e'] w1]; cbn in *; congruence.
Qed.

Lemma stale_detection_raises_on_aware_stamp_witness :
  (stale_report offset_env args_default
     (init_world ∅ ∅ series_aware ∅)).1 = Exn TypeError.
Proof.
  apply (stale_detection_raises_on_aware_stamp offset_env args_default
           (init_world ∅ ∅ series_aware ∅) TypeError).
  reflexivity.
Defined.

(** *** A listing item without a usable path *)

Lemma parse_item_falsy_path env item_data v :
  svtplay_path item_data = Some v →
  truthy v = false →
  (∀ p, v ≠ JStr p) →
  parse_item env item_data = Exn AttributeError.
Proof.
  unfold parse_item, svtplay_path.
  destruct (subscript item_data "item") as [item|]; [|discriminate].
  destruct (subscript item "urls") as [urls|]; [|discriminate].
  intros -> Hf Hs.
  destruct v as [|b|n|nz|p|l|kvs]; try (by rewrite Hf).
  by destruct (Hs p).
Qed.

(** X20: when the three subscripts at the head of the loop body succeed and
    give a falsy value that is not a string (JSON null, say), the [try]
    block raises [AttributeError]: [urljoin] returns the base for a falsy
    path, [url_path.rstrip] fails, and the [except] clause catches only
    [KeyError] and [TypeError].  A listing that starts with such an item
    ends the run before anything is fetched: no event, no change to any
    store. *)
Theorem falsy_path_aborts_run (env : Env) (args : Args) (cat : string)
    (item_data v : json) (rest : list json) (w : World) :
  svtplay_path item_data = Some v →
  truthy v = false →
  (∀ p, v ≠ JStr p) →
  parse_item env item_data = Exn AttributeError
  ∧ (stop_requested env (tick w) = false →
     main_items env args cat (item_data :: rest) w
     = (Exn AttributeError,
        set_tick S (set_stats (fun _ => zero_stats) w))).
Proof.
  intros Hv Hf Hn.
  assert (Hp : parse_item env item_data = Exn AttributeError)
    by exact (parse_item_falsy_path env item_data v Hv Hf Hn).
  split; [exact Hp|]. intros Hs.
  assert (Hl : dl_limit_reached args zero_stats = false).
  { unfold dl_limit_reached. destruct (arg_max_dl args <=? 0) eqn:E;
      [done|]. cbn. apply Z.leb_gt in E. rewrite Z.geb_leb.
    apply Z.leb_gt. lia. }
  unfold main_items. mstep. unfold modify at 1. cbv beta iota.
  mstep. cbn [item_loop]. mstep. rewrite stop_or_limit_run.
  cbn [tick set_stats stats]. rewrite Hs, Hl. cbn [orb].
  mstep. unfold lift. by rewrite Hp.
Qed.

Lemma falsy_path_aborts_run_witness :
  main_items failing_env args_default "Filmer"
    (null_item :: three_items) empty_world
  = (Exn AttributeError,
     set_tick S (set_stats (fun _ => zero_stats) empty_world)).
Proof.
  apply (falsy_path_aborts_run failing_env args_default "Filmer" null_item
           JNull three_items empty_world); try reflexivity.
  intros p. discriminate.
Defined.

(** *** The details object of a page *)

Section FindDetails.
Variable env : Env.

Lemma details_in_items_some want items d :
  details_in_items want items = Some d →
  ∃ kvs, d = JObj kvs ∧ is_Some (dict_lookup kvs want)
         ∧ (("detailsPageByPath" : string), d) ∈ items.
Proof.
  induction items as [|[key data] rest IH]; cbn; [discriminate|].
  destruct (String.eqb_spec key "detailsPageByPath") as [->|Hk]; cbn.
  2:{ intros (kvs & ? & ? & ?)%IH. exists kvs. by repeat split; [..|right]. }
  destruct data as [|b|n|nz|p|l|kvs];
    try (intros (kvs' & ? & ? & ?)%IH; exists kvs';
         by repeat split; [..|right]).
  case_bool_decide as Hs.
  - intros [= <-]. exists kvs. by repeat split; [..|left].
  - intros (kvs' & ? & ? & ?)%IH. exists kvs'. by repeat split; [..|right].
Qed.

Lemma details_in_items_none want items kvs :
  details_in_items want items = None →
  (("detailsPageByPath" : string), JObj kvs) ∈ items →
  dict_lookup kvs want = None.
Proof.
  induction items as [|[key data] rest IH]; cbn;
    [by intros _ ?%elem_of_nil|].
  destruct (String.eqb_spec key "detailsPageByPath") as [->|Hk]; cbn.
  2:{ intros Hn [[= ? ?]|Hin]%elem_of_cons; [congruence | by apply IH]. }
  destruct data as [|b|n|nz|p|l|kvs'];
    try (intros Hn [[= ?]|Hin]%elem_of_cons; by apply IH).
  case_bool_decide as Hs; [discriminate|].
  intros Hn [[= ->]|Hin]%elem_of_cons; [|by apply IH].
  by apply eq_None_not_Some.
Qed.

Lemma find_details_pass_some want raw d :
  find_details_pass env want raw = Ret (Some d) →
  ∃ kvs, d = JObj kvs ∧ is_Some (dict_lookup kvs want)
    ∧ ∃ e items, e ∈ raw ∧ urql_entry env e = Ret (Some (JObj items))
                 ∧ (("detailsPageByPath" : string), d) ∈ items.
Proof.
  induction raw as [|e raw IH]; cbn; [discriminate|].
  assert (Hrest : find_details_pass env want raw = Ret (Some d) →
    ∃ kvs, d = JObj kvs ∧ is_Some (dict_lookup kvs want)
      ∧ ∃ e' items, e' ∈ e :: raw
                    ∧ urql_entry env e' = Ret (Some (JObj items))
                    ∧ (("detailsPageByPath" : string), d) ∈ items).
  { intros (kvs & ? & ? & e' & items & ? & ? & ?)%IH. exists kvs.
    split; [done|]. split; [done|]. exists e', items.
    by repeat split; [right|..]. }
  destruct (urql_entry env e) as [[entry|]|x] eqn:Ee; cbn;
    [|exact Hrest|discriminate].
  destruct entry as [|b|n|nz|p|l|items]; cbn; try discriminate.
  destruct (details_in_items want items) as [d'|] eqn:E; [|exact Hrest].
  intros [= <-]. apply details_in_items_some in E as (kvs & ? & ? & ?).
  exists kvs. split; [done|]. split; [done|]. exists e, items.
  by repeat split; [left|..].
Qed.

Lemma find_details_pass_none want raw e entry :
  find_details_pass env want raw = Ret None →
  e ∈ raw → urql_entry env e = Ret (Some entry) →
  ¬ carries_details want entry.
Proof.
  induction raw as [|e' raw IH]; cbn; [by intros _ ?%elem_of_nil|].
  destruct (urql_entry env e') as [[entry'|]|x] eqn:Ee; cbn;
    [| |discriminate].
  2:{ intros Hn [->|Hin]%elem_of_cons; [congruence | by apply IH]. }
  destruct entry' as [|b|n|nz|p|l|items]; cbn; try discriminate.
  destruct (details_in_items want items) as [d'|] eqn:E; [discriminate|].
  intros Hn [->|Hin]%elem_of_cons; [|by apply IH].
  rewrite Ee. intros [= <-] (items' & kvs & [= <-] & Hin & Hs).
  rewrite (details_in_items_none _ _ _ E Hin) in Hs. by destruct Hs.
Qed.
End FindDetails.

(** X21: what [_find_details] returns is the [detailsPageByPath] object of
    an entry of the data store of the page, and it has the key
    [smartStart], or else it has the key [item] and no entry of the page
    carries a details object with [smartStart]: an object with
    [smartStart] is preferred wherever it stands. *)
Theorem find_details_prefers_smartStart (env : Env) (page_json d : json) :
  _find_details env page_json = Ret (Some d) →
  ∃ raw kvs,
    urql_values page_json = Ret raw ∧ d = JObj kvs
    ∧ (∃ e items, e ∈ raw ∧ urql_entry env e = Ret (Some (JObj items))
                  ∧ (("detailsPageByPath" : string), d) ∈ items)
    ∧ (is_Some (dict_lookup kvs "smartStart")
       ∨ (is_Some (dict_lookup kvs "item")
          ∧ ∀ e entry, e ∈ raw → urql_entry env e = Ret (Some entry) →
                       ¬ carries_details "smartStart" entry)).
Proof.
  unfold _find_details.
  destruct (urql_values page_json) as [raw|x]; cbn; [|discriminate].
  destruct (find_details_pass env "smartStart" raw) as [[d'|]|x] eqn:E;
    cbn; [| |discriminate].
  - intros [= <-].
    apply find_details_pass_some in E as (kvs & -> & Hs & Horigin).
    exists raw, kvs. by repeat split; [..|left].
  - intros (kvs & -> & Hs & Horigin)%find_details_pass_some.
    exists raw, kvs. split; [done|]. split; [done|]. split; [done|].
    right. split; [done|]. intros e entry. by apply find_details_pass_none.
Qed.

Lemma find_details_prefers_smartStart_witness :
  ∃ raw kvs,
    urql_values (page_with "SHOW") = Ret raw ∧ show_details = JObj kvs
    ∧ (∃ e items, e ∈ raw
                  ∧ urql_entry site_failing e = Ret (Some (JObj items))
                  ∧ (("detailsPageByPath" : string), show_details) ∈ items)
    ∧ (is_Some (dict_lookup kvs "smartStart")
       ∨ (is_Some (dict_lookup kvs "item")
          ∧ ∀ e entry, e ∈ raw →
                       urql_entry site_failing e = Ret (Some entry) →
                       ¬ carries_details "smartStart" entry)).
Proof.
  apply (find_details_prefers_smartStart site_failing (page_with "SHOW")
           show_details).
  reflexivity.
Defined.

(** *** The error entry of a URL after a download *)

Lemma download_with_retry_entry (env : Env) (url out errors_file : string)
    (dry_run : bool) (w : World) :
  let res := download_with_retry env url out dry_run errors_file w in
  ∃ ok_, res.1 = Ret ok_
         ∧ (is_Some (errors res.2 !! url) ↔ ok_ = false).
Proof.
  cbv zeta.
  assert (Hclear : ∀ w0, errors (clear_error url errors_file w0).2 !! url
                         = None).
  { intros w0. rewrite clear_error_run. cbn [snd].
    case_bool_decide as Hs; cbn [errors].
    - apply lookup_delete_eq.
    - by apply eq_None_not_Some. }
  destruct (is_permanent_error (errors w) url) eqn:Hp.
  - rewrite download_with_retry_permanent by done. exists false.
    split; [done|]. split; [done|]. intros _. cbn.
    unfold is_permanent_error in Hp. by destruct (errors w !! url).
  - destruct dry_run.
    + rewrite download_with_retry_dry by done. exists true.
      split; [done|]. cbn [snd]. rewrite Hclear.
      split; [by intros [? ?] | done].
    + rewrite download_with_retry_live by done. cbv zeta.
      destruct (_ =? 0); [|destruct (_ =? 0)].
      * exists true. split; [done|]. cbn [snd]. rewrite Hclear.
        split; [by intros [? ?] | done].
      * exists true. split; [done|]. cbn [snd]. rewrite Hclear.
        split; [by intros [? ?] | done].
      * exists false. split; [done|]. split; [done|]. intros _.
        rewrite record_error_run. cbv zeta. cbn [snd errors].
        rewrite lookup_insert_eq. by eexists.
Qed.

(** X22: whenever [download_with_retry] returns, the URL has an entry in
    the error store afterwards exactly when the result is [False]: a
    success leaves no entry behind, a failure always leaves one. *)
Theorem error_entry_iff_failed (env : Env) (url out errors_file : string)
    (dry_run ok_ : bool) (w : World) :
  let res := download_with_retry env url out dry_run errors_file w in
  res.1 = Ret ok_ →
  (is_Some (errors res.2 !! url) ↔ ok_ = false).
Proof.
  cbv zeta. intros Hres.
  destruct (download_with_retry_entry env url out errors_file dry_run w)
    as (ok' & Hok & Hiff).
  rewrite Hok in Hres. injection Hres as <-. exact Hiff.
Qed.

Lemma error_entry_iff_failed_witness :
  is_Some
    (errors (download_with_retry failing_env "u" "out" false "errors.json"
               empty_world).2 !! "u").
Proof.
  apply (error_entry_iff_failed failing_env "u" "out" "errors.json" false
           false empty_world); reflexivity.
Defined.

(** *** What the loop leaves alone *)

#[global] Instance spares_seen_refl args : Reflexive (spares_seen args).
Proof. intros w. exists []. by rewrite app_nil_r. Qed.

#[global] Instance spares_seen_trans args : Transitive (spares_seen args).
Proof.
  intros w1 w2 w3 (e1 & T1 & S1 & A1) (e2 & T2 & S2 & A2).
  exists (e1 ++ e2). rewrite appended_app, A1, A2.
  split; [by rewrite T2, T1, app_assoc|]. split; [congruence | done].
Qed.

Lemma spares_seen_frame args (f : World -> World) :
  (∀ w, trace (f w) = trace w) →
  (∀ w, seen (f w) = seen w) →
  ∀ w, spares_seen args w (f w).
Proof. intros Ht Hs w. exists []. by rewrite app_nil_r, Ht, Hs. Qed.

Lemma spares_seen_emit args ev w :
  not_append_to (arg_seen_file args) ev →
  spares_seen args w (set_trace (fun t => t ++ [ev]) w).
Proof. intros H. by exists [ev]. Qed.

Section SeriesSeen.
Variable env : Env.
Variable args : Args.
Hypothesis Hne : arg_seen_file args ≠ arg_seen_episodes_file args.

Lemma series_path_spares_seen item_url folder html nm :
  preserves (spares_seen args)
    (series_path env args item_url folder html nm).
Proof.
  apply (act_series_path env args (spares_seen args)
           (not_append_to (arg_seen_file args)));
    try (intros; by apply spares_seen_frame);
    try (intros; by apply spares_seen_emit); try done.
  - intros url out.
    apply (pres_download_with_retry env (spares_seen args)
             (not_append_to (arg_seen_file args)));
      try (intros; by apply spares_seen_frame);
      try (intros; by apply spares_seen_emit); done.
  - intros url. apply act_record_episode;
      [apply _ | intros; by apply spares_seen_frame|].
    unfold mark_episode. pres_bind.
    + destruct (arg_dry_run args); [apply preserves_skip; apply _|].
      unfold append_seen. destruct (negb _); [apply preserves_skip; apply _|].
      intros w. apply spares_seen_emit. unfold not_append_to. cbn.
      assert (Hne' : arg_seen_episodes_file args ≠ arg_seen_file args)
        by done.
      apply String.eqb_neq in Hne'. by rewrite Hne'.
    + apply preserves_modify. intros w. by apply spares_seen_frame.
  - intros url found_new nm' w. rewrite update_series_state_run.
    cbv zeta. cbn [snd]. eexists. split; [reflexivity|].
    split; [reflexivity|]. unfold saved. by destruct (str_truthy _).
Qed.
End SeriesSeen.

(** X23: checking a series never marks anything as a seen movie: whatever
    its episodes do, [series_path] leaves the seen set of [main] as it was
    and appends no line to the seen file (the seen-episodes file being
    another file).  So a series is checked again on every run until it is
    marked complete by hand. *)
Theorem series_never_marked_seen (env : Env) (args : Args)
    (item_url folder html nm : string) (w : World) :
  arg_seen_file args ≠ arg_seen_episodes_file args →
  let w' := (series_path env args item_url folder html nm w).2 in
  ∃ evs, trace w' = trace w ++ evs
    ∧ seen w' = seen w
    ∧ appended (arg_seen_file args) evs = [].
Proof.
  intros Hne.
  apply (series_path_spares_seen env args Hne item_url folder html nm w).
Qed.

Lemma series_never_marked_seen_witness :
  let w' := (series_path site_succeeding args_default
               "https://www.svtplay.se/show" "Downloads/Show"
               "https://www.svtplay.se/show" "Show" empty_world).2 in
  ∃ evs, trace w' = trace empty_world ++ evs
    ∧ seen w' = seen empty_world
    ∧ appended "seen_urls.txt" evs = [].
Proof.
  apply (series_never_marked_seen site_succeeding args_default
           "https://www.svtplay.se/show" "Downloads/Show"
           "https://www.svtplay.se/show" "Show" empty_world).
  done.
Defined.

Lemma item_loop_passes_over env args cat n U items :
  Forall (passed_over env U) items →
  ∀ idx w, seen w = U →
    ∃ w', item_loop env args cat n idx items w = (Ret tt, w')
      ∧ trace w' = trace w
      ∧ errors w' = errors w
      ∧ series_state w' = series_state w
      ∧ seen w' = seen w
      ∧ seen_episodes w' = seen_episodes w.
Proof.
  induction 1 as [|item items Hitem _ IH]; intros idx w Hw;
    [by exists w|].
  cbn [item_loop]. rewrite bind_run, stop_or_limit_run.
  destruct (_ || _); [by eexists|]. rewrite bind_run. unfold lift.
  destruct Hitem as [->|(u & s & h & -> & Hu)].
  - destruct (IH (S idx) (set_tick S w) Hw) as (w' & -> & H).
    by exists w'.
  - rewrite bind_run. unfold get_world.
    rewrite bool_decide_eq_true_2 by (cbn; by rewrite Hw).
    rewrite bind_run. unfold modify at 1.
    destruct (IH (S idx) (set_stats incr_skipped_seen (set_tick S w)) Hw)
      as (w' & -> & H).
    by exists w'.
Qed.

(** X24: items that are malformed or whose URL is in the seen set cost
    nothing: over a listing of such items the loop returns without an
    event (no process, no write) and without a change to any store; only
    the counters and the number of reads of the stop flag change. *)
Theorem seen_items_are_skipped (env : Env) (args : Args) (cat : string)
    (items : list json) (n idx : nat) (w : World) :
  Forall (passed_over env (seen w)) items →
  let res := item_loop env args cat n idx items w in
  res.1 = Ret tt
  ∧ trace res.2 = trace w
  ∧ errors res.2 = errors w
  ∧ series_state res.2 = series_state w
  ∧ seen res.2 = seen w
  ∧ seen_episodes res.2 = seen_episodes w.
Proof.
  intros H.
  destruct (item_loop_passes_over env args cat n (seen w) items H idx w
              eq_refl) as (w' & -> & Hw').
  split; [reflexivity | exact Hw'].
Qed.

Lemma seen_items_are_skipped_witness :
  trace (item_loop site_failing args_default "Filmer" 1 0
           [stub "/film" "Single"]
           (init_world {["https://www.svtplay.se/film"]} ∅ ∅ ∅)).2 = [].
Proof.
  apply (seen_items_are_skipped site_failing args_default "Filmer"
           [stub "/film" "Single"] 1 0
           (init_world {["https://www.svtplay.se/film"]} ∅ ∅ ∅)).
  apply Forall_cons. split; [|constructor].
  right. eexists _, _, _. split; [reflexivity|].
  cbn. by apply elem_of_singleton.
Defined.

(** ** The category listing and the cover image *)

Lemma elements_of_default kvs k l :
  dict_get_default kvs k (JArr []) = JArr l →
  elements_of (dict_get kvs k) = l.
Proof.
  unfold dict_get_default, dict_get.
  destruct (dict_lookup kvs k) as [v|]; cbn; [by intros ->|].
  by intros [= <-].
Qed.

Lemma category_modules_total modules items :
  Forall module_listed modules →
  category_modules modules items
  = Ret (items ++ flat_map module_listing modules).
Proof.
  intros H. revert items.
  induction H as [|module modules (m & -> & Hsel) _ IH]; intros items.
  { cbn. by rewrite app_nil_r. }
  cbn [category_modules as_dict flat_map].
  unfold mbind at 1, outcome_bind at 1, obind at 1.
  unfold module_listing at 1. cbn [_safe_get].
  destruct Hsel as [Hf|(s & l & Hs & Hl)].
  - rewrite Hf, IH.
    destruct (dict_get m "selection") as [|b|n|nz|p|ms|s]; try done.
    destruct s; [|done]. done.
  - rewrite Hs. destruct (truthy (JObj s)) eqn:Et.
    + cbn [as_dict]. unfold mbind, outcome_bind, obind.
      rewrite Hl. cbn [py_iter]. rewrite IH.
      by rewrite (elements_of_default _ _ _ Hl), app_assoc.
    + rewrite IH. destruct s; [|done]. done.
Qed.

Lemma category_tabs_total tabs items :
  Forall tab_listed tabs →
  category_tabs tabs items = Ret (items ++ flat_map tab_listing tabs).
Proof.
  intros H. revert items.
  induction H as [|tab tabs (t & -> & Hslug) _ IH]; intros items.
  { cbn. by rewrite app_nil_r. }
  cbn [category_tabs as_dict flat_map].
  unfold mbind at 1, outcome_bind at 1, obind at 1.
  unfold tab_listing at 1. cbn [_safe_get].
  destruct Hslug as [Hf|(modules & Hm & Hmods)].
  - by rewrite Hf, IH.
  - destruct (is_all (dict_get t "slug")); [|by rewrite IH].
    rewrite Hm. cbn [py_iter]. unfold mbind, outcome_bind, obind.
    rewrite (category_modules_total _ _ Hmods), IH.
    by rewrite (elements_of_default _ _ _ Hm), app_assoc.
Qed.

Lemma category_entry_total kvs items :
  entry_listed kvs →
  category_entry kvs items = Ret (items ++ entry_listing kvs).
Proof.
  intros H. revert items.
  induction H as [|[key data] kvs Hkv _ IH]; intros items.
  { cbn. by rewrite app_nil_r. }
  cbn [category_entry]. unfold entry_listing. cbn [flat_map].
  fold (entry_listing kvs).
  destruct data as [|b|n|nz|p|l|d]; try apply IH.
  destruct (String.eqb_spec key "categoryPage") as [->|Hk]; [|apply IH].
  destruct (Hkv d eq_refl) as (tabs & Ht & Htabs).
  rewrite Ht. cbn [py_iter]. unfold mbind, outcome_bind, obind.
  rewrite (category_tabs_total _ _ Htabs), IH.
  by rewrite (elements_of_default _ _ _ Ht), app_assoc.
Qed.

Lemma category_pass_total env raw items :
  store_listed env raw →
  category_pass env raw items = Ret (items ++ store_listing env raw).
Proof.
  intros H. revert items.
  induction H as [|e raw He _ IH]; intros items.
  { cbn. by rewrite app_nil_r. }
  cbn [category_pass]. unfold store_listing. cbn [flat_map].
  fold (store_listing env raw).
  destruct He as [->|(kvs & -> & Hkvs)].
  - cbn. apply IH.
  - unfold mbind, outcome_bind, obind. cbn [as_dict]. cbv beta iota.
    rewrite (category_entry_total _ _ Hkvs), IH. by rewrite app_assoc.
Qed.

(** X25: on a page of the expected shape [get_category_items] returns, and
    what it returns is the items of the selections of the modules of the
    tabs with slug [all] of the [categoryPage] objects of the data store,
    in the order of the page and with nothing removed: the items of other
    tabs are left out, and an item listed twice comes twice. *)
Theorem get_category_items_lists_all_tab (env : Env) (page_json : json)
    (raw : list json) :
  urql_values page_json = Ret raw →
  store_listed env raw →
  get_category_items env page_json = Ret (store_listing env raw).
Proof.
  intros Hraw H. unfold get_category_items. rewrite Hraw. cbn.
  by rewrite (category_pass_total env raw [] H).
Qed.

Lemma category_data_listed :
  store_listed category_env [JObj [("data", JStr "CATEGORY")]].
Proof.
  apply Forall_cons. split; [|constructor]. right. eexists.
  split; [reflexivity|].
  apply Forall_cons. split; [|constructor].
  intros d [= <-]. eexists. split; [reflexivity|].
  repeat (apply Forall_cons; split); try constructor.
  - eexists. split; [reflexivity|]. by left.
  - eexists. split; [reflexivity|]. right. eexists.
    split; [reflexivity|].
    repeat (apply Forall_cons; split); try constructor.
    + eexists. split; [reflexivity|]. right. by eexists _, _.
    + eexists. split; [reflexivity|]. by left.
    + eexists. split; [reflexivity|]. right. by eexists _, _.
Qed.

Lemma get_category_items_lists_all_tab_witness :
  get_category_items category_env (page_with "CATEGORY")
  = Ret [stub "/film" "Single"; stub "/show" "TvSeries";
         stub "/mini" "TvSeries"].
Proof.
  apply (get_category_items_lists_all_tab category_env
           (page_with "CATEGORY") [JObj [("data", JStr "CATEGORY")]]
           eq_refl category_data_listed).
Defined.

(** X26: [_image_from_json] never returns the empty string, so that the
    HTML fallback of [get_video_metadata] is tried exactly when it returns
    [None]; and a wide image of the parent that is an object ends the
    search: if that object lacks [id] or [changed] the result is [None]
    whatever the page's own wide image is. *)
Theorem image_from_json_never_empty (fmt : json -> string) (details : json) :
  _image_from_json fmt details ≠ Some EmptyString
  ∧ (∀ img,
       _safe_get details ["item"; "parent"; "image"; "wide"] = JObj img →
       dict_lookup img "id" = None ∨ dict_lookup img "changed" = None →
       _image_from_json fmt details = None).
Proof.
  assert (Hd : ∀ img, _image_url_from_dict fmt img ≠ Some EmptyString).
  { intros img. unfold _image_url_from_dict.
    destruct (dict_lookup img "id"); [|done].
    destruct (dict_lookup img "changed"); [|done].
    by rewrite str_app_cons. }
  split.
  - unfold _image_from_json.
    destruct (_safe_get details ["item"; "parent"; "image"; "wide"])
      as [|b|n|nz|p|l|img]; try destruct p;
      try apply Hd; try done;
      destruct (_safe_get details ["images"; "wide"])
        as [|b'|n'|nz'|p'|l'|img']; try destruct p';
        try apply Hd; done.
  - intros img Himg Hmiss. unfold _image_from_json. rewrite Himg.
    unfold _image_url_from_dict.
    destruct Hmiss as [-> | ->]; [done|].
    by destruct (dict_lookup img "id").
Qed.

Lemma image_from_json_never_empty_witness :
  _image_from_json (fun _ => "x")
    (JObj [("item", JObj [("parent",
              JObj [("image", JObj [("wide", JObj [("id", JInt 1)])])])]);
           ("images", JObj [("wide", JStr "https://img/wide.jpg")])])
  = None.
Proof.
  apply (proj2 (image_from_json_never_empty (fun _ => "x")
           (JObj [("item", JObj [("parent",
                     JObj [("image",
                            JObj [("wide", JObj [("id", JInt 1)])])])]);
                  ("images", JObj [("wide", JStr "https://img/wide.jpg")])]))
           [("id", JInt 1)] eq_refl).
  by right.
Defined.

(** *** The cover image in the HTML *)

Section SrcsetFacts.
Variable py_int : string -> option Z.

Lemma best_candidate_spec parts best_url best_w :
  let best := best_candidate py_int parts best_url best_w in
  (best = (best_url, best_w)
   ∧ ∀ part url w, part ∈ parts → candidate py_int part = Some (url, w) →
                   w ≤ best_w)
  ∨ (best_w < best.2
     ∧ ∃ pre part post url,
         parts = pre ++ part :: post
         ∧ best.1 = Some url
         ∧ candidate py_int part = Some (url, best.2)
         ∧ (∀ p url' w', p ∈ pre → candidate py_int p = Some (url', w') →
                         w' < best.2)
         ∧ (∀ p url' w', p ∈ post → candidate py_int p = Some (url', w') →
                         w' ≤ best.2)).
Proof.
  revert best_url best_w.
  induction parts as [|part rest IH]; intros best_url best_w; cbv zeta.
  { left. split; [done|]. by intros ? ? ? ?%elem_of_nil. }
  cbn [best_candidate].
  assert (Hkeep :
    (∀ url w, candidate py_int part = Some (url, w) → w ≤ best_w) →
    let best := best_candidate py_int rest best_url best_w in
    (best = (best_url, best_w)
     ∧ ∀ p url w, p ∈ part :: rest → candidate py_int p = Some (url, w) →
                  w ≤ best_w)
    ∨ (best_w < best.2
       ∧ ∃ pre p post url,
           part :: rest = pre ++ p :: post
           ∧ best.1 = Some url
           ∧ candidate py_int p = Some (url, best.2)
           ∧ (∀ q url' w', q ∈ pre → candidate py_int q = Some (url', w') →
                           w' < best.2)
           ∧ (∀ q url' w', q ∈ post → candidate py_int q = Some (url', w') →
                           w' ≤ best.2))).
  { intros Hpart. cbv zeta.
    destruct (IH best_url best_w) as [[E Hall]|(Hlt & pre & p & post & url
                                                & -> & Hu & Hc & Hpre & Hpost)].
    - left. split; [done|].
      intros p url w [->|Hin]%elem_of_cons; [apply Hpart | by apply Hall].
    - right. split; [done|]. exists (part :: pre), p, post, url.
      split; [done|]. split; [done|]. split; [done|]. split; [|done].
      intros q url' w' [->|Hin]%elem_of_cons Hq; [|by eapply Hpre].
      specialize (Hpart _ _ Hq). lia. }
  destruct (candidate py_int part) as [[url w]|] eqn:Ec;
    [|apply Hkeep; intros; discriminate].
  destruct (Z.gtb_spec w best_w) as [Hgt|Hle];
    [|apply Hkeep; intros ? ? [= <- <-]; lia].
  destruct (IH (Some url) w) as [[E Hall]|(Hlt & pre & p & post & url0
                                          & -> & Hu & Hc & Hpre & Hpost)].
  - right. rewrite E. cbn [fst snd]. split; [lia|].
    exists [], part, rest, url. split; [done|]. split; [done|].
    split; [done|]. split; [by intros ? ? ? ?%elem_of_nil | done].
  - right. split; [lia|]. exists (part :: pre), p, post, url0.
    split; [done|]. split; [done|]. split; [done|]. split; [|done].
    intros q url' w' [->|Hin]%elem_of_cons Hq; [|by eapply Hpre].
    rewrite Ec in Hq. injection Hq as <- <-. lia.
Qed.
End SrcsetFacts.

(** X27: the URL chosen from the parts of a srcset is that of its widest
    candidate, the first one among equally wide ones, and its width is
    positive; no URL is chosen exactly when no part has a URL and a
    positive width that parses. *)
Theorem srcset_picks_widest (py_int : string -> option Z)
    (parts : list string) :
  let best := best_candidate py_int parts None 0 in
  match best.1 with
  | Some url =>
      0 < best.2
      ∧ ∃ pre part post,
          parts = pre ++ part :: post
          ∧ candidate py_int part = Some (url, best.2)
          ∧ (∀ p url' w', p ∈ pre → candidate py_int p = Some (url', w') →
                          w' < best.2)
          ∧ (∀ p url' w', p ∈ post → candidate py_int p = Some (url', w') →
                          w' ≤ best.2)
  | None =>
      ∀ part url w, part ∈ parts → candidate py_int part = Some (url, w) →
                    w ≤ 0
  end.
Proof.
  cbv zeta.
  destruct (best_candidate_spec py_int parts None 0)
    as [[-> Hall]|(Hlt & pre & part & post & url & -> & -> & Hc & Hpre
                   & Hpost)].
  - exact Hall.
  - split; [done|]. by exists pre, part, post.
Qed.

(** The widest of three candidates is chosen, not the last one. *)
Example srcset_example :
  best_candidate decimal
    (split_char "," "a.jpg 320w, b.jpg 1280w, c.jpg 640w") None 0
  = (Some "b.jpg", 1280).
Proof. vm_compute. reflexivity. Qed.

Section ExtractorFacts.
Variable py_int : string -> option Z.

Lemma handle_starttag_keeps st tag attrs url :
  image_url st = Some url →
  image_url (handle_starttag py_int st tag attrs) = Some url.
Proof.
  intros H. unfold handle_starttag. rewrite H.
  rewrite (bool_decide_eq_false_2 (Some url = None)) by done.
  by rewrite andb_false_r.
Qed.

Lemma feed_start tag attrs evs st :
  feed py_int (StartTag tag attrs :: evs) st
  = feed py_int evs (handle_starttag py_int st tag attrs).
Proof. reflexivity. Qed.

Lemma feed_end tag evs st :
  feed py_int (EndTag tag :: evs) st = feed py_int evs (handle_endtag st tag).
Proof. reflexivity. Qed.

Lemma feed_keeps evs st url :
  image_url st = Some url → image_url (feed py_int evs st) = Some url.
Proof.
  revert st. induction evs as [|ev evs IH]; intros st H; [done|].
  destruct ev as [tag attrs|tag].
  - rewrite feed_start. by apply IH, handle_starttag_keeps.
  - rewrite feed_end. apply IH. unfold handle_endtag.
    by destruct (String.eqb tag "div").
Qed.

Lemma feed_outside evs st :
  in_container st = false →
  forallb (fun ev => negb (opens_container ev)) evs = true →
  image_url (feed py_int evs st) = image_url st.
Proof.
  revert st. induction evs as [|ev evs IH]; intros st Hout Hno; [done|].
  cbn [forallb] in Hno. apply andb_true_iff in Hno as [Hev Hno].
  destruct ev as [tag attrs|tag].
  - rewrite feed_start.
    cbn [opens_container] in Hev. apply negb_true_iff in Hev.
    assert (E : handle_starttag py_int st tag attrs = st).
    { unfold handle_starttag. rewrite Hev, Hout. cbn [orb].
      rewrite andb_false_r. cbn [andb]. destruct st; cbn in *. by subst. }
    rewrite E. by apply IH.
  - rewrite feed_end. unfold handle_endtag.
    destruct (String.eqb tag "div"); [|by apply IH].
    by rewrite IH.
Qed.
End ExtractorFacts.

(** X28: the HTML fallback takes the first image it accepts and no other:
    once an image URL is set no later tag changes it; and as long as no
    [div] with the [imageContainer] selector is opened, images are
    ignored, so a page without such a container gives no image. *)
Theorem first_container_image_wins (py_int : string -> option Z)
    (evs : list tag_event) (st : extractor) :
  (∀ url, image_url st = Some url →
          image_url (feed py_int evs st) = Some url)
  ∧ (in_container st = false →
     forallb (fun ev => negb (opens_container ev)) evs = true →
     image_url (feed py_int evs st) = image_url st).
Proof.
  split; [intros url; apply feed_keeps | apply feed_outside].
Qed.

Lemma first_container_image_wins_witness :
  image_url
    (feed decimal
       [StartTag "img" [("src", Some "late.jpg")]]
       (feed decimal
          [StartTag "div" [("data-css-selector", Some "imageContainer")];
           StartTag "img" [("srcset", Some "a.jpg 320w, b.jpg 1280w")]]
          (mkExtractor false None)))
  = Some "b.jpg".
Proof.
  apply (proj1 (first_container_image_wins decimal
                  [StartTag "img" [("src", Some "late.jpg")]] _)).
  vm_compute. reflexivity.
Defined.

(** Any closing [div] ends the container, also a nested one: the image
    after it is not taken. *)
Example nested_div_ends_container :
  image_url
    (feed decimal
       [StartTag "div" [("data-css-selector", Some "imageContainer")];
        StartTag "div" []; EndTag "div";
        StartTag "img" [("src", Some "cover.jpg")]; EndTag "div"]
       (mkExtractor false None))
  = None.
Proof. vm_compute. reflexivity. Qed.
